(** * Structural Change on multiple time scales: a shallow embedding

    The development follows [StructuralChange.hpp]: the machine integers
    of the window-boundary table, the divergence policies, the cumulative
    matrix and the engine [calculate].  Arithmetic on [float] and [double]
    is kept behind an interface so that the very same program text can be
    run on IEEE binary32/binary64 numbers and read over the reals.

    The engine is first written on frames that are [std::vector<float>],
    the frame type for which [FeaturesAccessPolicy] is defined in
    [StructuralChange.hpp] itself and which carries no metadata.  The
    template over the frame types and the Vamp adapter of
    [VampFeaturesAccess.hpp] follow, and are related to it. *)

From Stdlib Require Import ZArith List Bool Lia.
From Stdlib Require Import Reals Lra.
From Stdlib Require Import Floats.SpecFloat.
From Stdlib Require String.
Import ListNotations.

Local Open Scope Z_scope.

(** ** Machine integers

    [int] and [unsigned] are 32 bits wide, [size_t] is 64 bits wide.
    Conversions reduce modulo the width of the target type. *)

Module MachInt.

Definition to_uint (z : Z) : Z := z mod 2 ^ 32.

Definition to_size_t (z : Z) : Z := z mod 2 ^ 64.

Definition to_int (z : Z) : Z := (z + 2 ^ 31) mod 2 ^ 32 - 2 ^ 31.

End MachInt.

Import MachInt.

(** ** Window boundaries ([StructuralChange::init_window_boundaries]) *)

(** Status codes pushed as the fifth entry of a boundary vector. *)
Definition NORMAL : Z := 0.
Definition LEFT_SHORT : Z := -1.
Definition RIGHT_SHORT : Z := -2.
Definition BOTH_SHORT : Z := -3.

(** [size_t window_width = 1U << i_timescale].  The shift is done on a
    32-bit unsigned.  For a count of 32 or more C++ leaves the result
    undefined; the model follows the x86-64 and AArch64 shift
    instructions, which take the count modulo 32. *)
Definition window_width (i_timescale : Z) : Z :=
  to_size_t (to_uint (Z.shiftl 1 (i_timescale mod 32))).

(** The body of the inner loop: the five [int]s pushed for one frame. *)
Definition window_boundary (window_width num_frame i_frame : Z) : list Z :=
  let ll := to_int (if to_size_t (i_frame + 1) >? window_width
                    then to_size_t (i_frame - window_width) else 0) in
  let rr := to_int (if to_size_t (i_frame + window_width) <? num_frame
                    then to_size_t (i_frame + window_width) else num_frame) in
  let status :=
    if to_int (2 * to_int window_width) =? to_int (rr - ll) then 0
    else if window_width =? to_size_t (rr - i_frame) then -1
    else if window_width =? to_size_t (i_frame - ll) then -2
    else -3 in
  [ll; to_int i_frame; to_int i_frame; rr; status].

(** Index of the rows: [0 .. n-1] as values of the loop counter. *)
Definition counter (n : nat) : list Z := map Z.of_nat (seq 0 n).

Definition init_window_boundaries (num_dim num_frame : nat) : list (list (list Z)) :=
  map (fun i_timescale =>
         map (window_boundary (window_width i_timescale) (Z.of_nat num_frame))
             (counter num_frame))
      (counter num_dim).

(** Accessors mirroring [window_boundaries[t][i][k]]. *)
Definition entry (wb : list Z) (k : nat) : Z := nth k wb 0.

Definition boundary_at (tbl : list (list (list Z))) (t i : nat) : list Z :=
  nth i (nth t tbl []) [].

(** ** Arithmetic of the program

    The program computes on [float], with a few sub-expressions promoted
    to [double] by the usual arithmetic conversions.  The operations it
    uses are collected in one interface. *)

Class Arith : Type := {
  flt : Type;                          (* float *)
  dbl : Type;                          (* double *)
  f_of_int : Z -> flt;                 (* int or size_t converted to float *)
  fadd : flt -> flt -> flt;
  fsub : flt -> flt -> flt;
  fmul : flt -> flt -> flt;
  fdiv : flt -> flt -> flt;
  fsqrt : flt -> flt;                  (* std::sqrt on float *)
  feqb : flt -> flt -> bool;           (* == *)
  fltb : flt -> flt -> bool;           (* < *)
  to_dbl : flt -> dbl;                 (* promotion float -> double *)
  of_dbl : dbl -> flt;                 (* conversion double -> float *)
  d_zero : dbl;                        (* the literal 0.0 *)
  d_half : dbl;                        (* the literal 0.5 *)
  dopp : dbl -> dbl;
  dadd : dbl -> dbl -> dbl;
  dmul : dbl -> dbl -> dbl;
  ddiv : dbl -> dbl -> dbl;
  dsqrt : dbl -> dbl;                  (* sqrt of <cmath> on double *)
  dltb : dbl -> dbl -> bool
}.

(** *** IEEE 754 instance: binary32 for [float], binary64 for [double],
    round to nearest even, on the specification floats of the standard
    library. *)

Module IEEE.

Definition prec32 : Z := 24.
Definition emax32 : Z := 128.
Definition prec64 : Z := 53.
Definition emax64 : Z := 1024.

Definition b32_of_Z (z : Z) : spec_float := binary_normalize prec32 emax32 z 0 false.
Definition b64_of_Z (z : Z) : spec_float := binary_normalize prec64 emax64 z 0 false.

(** Re-rounding of a finite number into another format. *)
Definition convert (prec emax : Z) (x : spec_float) : spec_float :=
  match x with
  | S754_finite s m e => binary_normalize prec emax (cond_Zopp s (Zpos m)) e s
  | _ => x
  end.

Definition widen : spec_float -> spec_float := convert prec64 emax64.
Definition narrow : spec_float -> spec_float := convert prec32 emax32.

Definition b64_half : spec_float :=
  Eval vm_compute in SFdiv prec64 emax64 (b64_of_Z 1) (b64_of_Z 2).

Definition arith : Arith := {|
  flt := spec_float;
  dbl := spec_float;
  f_of_int := b32_of_Z;
  fadd := SFadd prec32 emax32;
  fsub := SFsub prec32 emax32;
  fmul := SFmul prec32 emax32;
  fdiv := SFdiv prec32 emax32;
  fsqrt := SFsqrt prec32 emax32;
  feqb := SFeqb;
  fltb := SFltb;
  to_dbl := widen;
  of_dbl := narrow;
  d_zero := S754_zero false;
  d_half := b64_half;
  dopp := SFopp;
  dadd := SFadd prec64 emax64;
  dmul := SFmul prec64 emax64;
  ddiv := SFdiv prec64 emax64;
  dsqrt := SFsqrt prec64 emax64;
  dltb := SFltb
|}.

(** A finite binary32 number: a zero, or a mantissa and exponent in
    canonical form within the exponent range. *)
Definition finite32 (x : spec_float) : bool :=
  match x with
  | S754_zero _ => true
  | S754_finite _ m e => bounded prec32 emax32 m e
  | _ => false
  end.

(** Sign bit clear, or not a number. *)
Definition nonneg32 (x : spec_float) : bool :=
  match x with
  | S754_zero s | S754_infinity s | S754_finite s _ _ => negb s
  | S754_nan => true
  end.

(** A zero loses its sign when added to [+0]. *)
Definition plus_zero (x : spec_float) : spec_float :=
  match x with
  | S754_zero _ => S754_zero false
  | _ => x
  end.

(** A binary32 value: finite numbers are in canonical form. *)
Definition valid32 (x : spec_float) : bool := valid_binary prec32 emax32 x.

Definition is_zero32 (x : spec_float) : bool :=
  match x with
  | S754_zero _ => true
  | _ => false
  end.

(** Positive (finite with an exponent in range, or infinite) or not a
    number: what a sum of non-negative values is once it has left zero. *)
Definition off_zero32 (x : spec_float) : bool :=
  match x with
  | S754_finite false _ e => emin prec32 emax32 <=? e
  | S754_infinity false => true
  | S754_nan => true
  | _ => false
  end.

(** The sum of a vector as the loops accumulate it. *)
Definition sum32 (v : list spec_float) : spec_float :=
  fold_left (SFadd prec32 emax32) v (S754_zero false).

End IEEE.

(** *** Exact instance: both types are the real numbers, conversions are
    the identity.  This is the arithmetic the specification reasons in. *)

Module Exact.

Definition Reqb (x y : R) : bool := if Req_dec_T x y then true else false.
Definition Rltb (x y : R) : bool := if Rlt_dec x y then true else false.

Definition arith : Arith := {|
  flt := R;
  dbl := R;
  f_of_int := IZR;
  fadd := Rplus;
  fsub := Rminus;
  fmul := Rmult;
  fdiv := Rdiv;
  fsqrt := sqrt;
  feqb := Reqb;
  fltb := Rltb;
  to_dbl := fun x => x;
  of_dbl := fun x => x;
  d_zero := 0%R;
  d_half := (1 / 2)%R;
  dopp := Ropp;
  dadd := Rplus;
  dmul := Rmult;
  ddiv := Rdiv;
  dsqrt := sqrt;
  dltb := Rltb
|}.

End Exact.

(** ** Vectors and the divergence policies *)

Section Policies.

Context {A : Arith}.

(** [std::vector<float>] *)
Definition vec : Type := list flt.

Definition f0 : flt := f_of_int 0.

(** [v[i]]; the program never checks the index, the model reads [0]
    where C++ would read past the end. *)
Definition elem (v : vec) (i : nat) : flt := nth i v f0.

(** *** [CorrelationDivergencePolicy] *)

Record corr_scan : Type := {
  cs_a_mean : flt;
  cs_b_mean : flt;
  cs_a_valid : bool;
  cs_b_valid : bool
}.

Definition corr_scan_step (a b : vec) (st : corr_scan) (i_element : nat) : corr_scan :=
  {| cs_a_mean := fadd (cs_a_mean st) (elem a i_element);
     cs_b_mean := fadd (cs_b_mean st) (elem b i_element);
     cs_a_valid :=
       if (0 <? i_element)%nat
       then (if negb (feqb (elem a i_element) (elem a (i_element - 1)))
             then true else cs_a_valid st)
       else cs_a_valid st;
     cs_b_valid :=
       if (0 <? i_element)%nat
       then (if negb (feqb (elem b i_element) (elem b (i_element - 1)))
             then true else cs_b_valid st)
       else cs_b_valid st |}.

Definition corr_scan_init : corr_scan :=
  {| cs_a_mean := f0; cs_b_mean := f0; cs_a_valid := false; cs_b_valid := false |}.

Record corr_sums : Type := {
  above : flt;
  below_a : flt;
  below_b : flt
}.

Definition corr_sums_step (a b : vec) (a_mean b_mean : flt)
    (st : corr_sums) (i_element : nat) : corr_sums :=
  let a_shifted := fsub (elem a i_element) a_mean in
  let b_shifted := fsub (elem b i_element) b_mean in
  {| above := fadd (above st) (fmul a_shifted b_shifted);
     below_a := fadd (below_a st) (fmul a_shifted a_shifted);
     below_b := fadd (below_b st) (fmul b_shifted b_shifted) |}.

Definition CorrelationDivergencePolicy (a b : vec) : flt :=
  let num_element := length a in
  let sc := fold_left (corr_scan_step a b) (seq 0 num_element) corr_scan_init in
  if cs_a_valid sc && cs_b_valid sc then
    let a_mean := fdiv (cs_a_mean sc) (f_of_int (Z.of_nat num_element)) in
    let b_mean := fdiv (cs_b_mean sc) (f_of_int (Z.of_nat num_element)) in
    let s := fold_left (corr_sums_step a b a_mean b_mean) (seq 0 num_element)
               {| above := f0; below_a := f0; below_b := f0 |} in
    of_dbl (dadd d_half
                 (ddiv (dmul (dopp d_half) (to_dbl (above s)))
                       (to_dbl (fmul (fsqrt (below_a s)) (fsqrt (below_b s))))))
  else of_dbl d_zero.

(** *** [JensonShannonDivergencePolicy]

    [log] comes from the C library; it is a parameter of the policy. *)

Variable dlog : dbl -> dbl.

Record js_scan : Type := {
  js_a_sum : flt;
  js_b_sum : flt;
  js_a_valid : bool;
  js_b_valid : bool;
  js_break : bool                       (* the loop was left by [break] *)
}.

Definition js_scan_step (a b : vec) (st : js_scan) (i_element : nat) : js_scan :=
  if js_break st then st else
  let a_sum := fadd (js_a_sum st) (elem a i_element) in
  let b_sum := fadd (js_b_sum st) (elem b i_element) in
  let a_valid := if dltb d_zero (to_dbl (elem a i_element)) then true else js_a_valid st in
  let b_valid := if dltb d_zero (to_dbl (elem b i_element)) then true else js_b_valid st in
  if dltb (to_dbl (elem a i_element)) d_zero then
    {| js_a_sum := a_sum; js_b_sum := b_sum;
       js_a_valid := false; js_b_valid := b_valid; js_break := true |}
  else if dltb (to_dbl (elem b i_element)) d_zero then
    {| js_a_sum := a_sum; js_b_sum := b_sum;
       js_a_valid := a_valid; js_b_valid := false; js_break := true |}
  else
    {| js_a_sum := a_sum; js_b_sum := b_sum;
       js_a_valid := a_valid; js_b_valid := b_valid; js_break := false |}.

Definition js_scan_init : js_scan :=
  {| js_a_sum := f0; js_b_sum := f0;
     js_a_valid := false; js_b_valid := false; js_break := false |}.

(** The element of [a] after [a[i] /= a_sum]. *)
Definition js_normalized (v : vec) (v_sum : flt) (i_element : nat) : flt :=
  fdiv (elem v i_element) v_sum.

Definition js_term (x m : flt) : dbl := dmul (to_dbl x) (dlog (to_dbl (fdiv x m))).

Definition js_sum_step (a b : vec) (a_sum b_sum : flt)
    (js_divergence : flt) (i_element : nat) : flt :=
  let ai := js_normalized a a_sum i_element in
  let bi := js_normalized b b_sum i_element in
  let mi := of_dbl (dmul d_half (to_dbl (fadd ai bi))) in
  let js1 := if fltb f0 ai
             then of_dbl (dadd (to_dbl js_divergence) (js_term ai mi))
             else js_divergence in
  if fltb f0 bi
  then of_dbl (dadd (to_dbl js1) (js_term bi mi))
  else js1.

Definition JensonShannonDivergencePolicy (a b : vec) : flt :=
  let num_element := length a in
  let sc := fold_left (js_scan_step a b) (seq 0 num_element) js_scan_init in
  if js_a_valid sc && js_b_valid sc then
    let js_divergence :=
      fold_left (js_sum_step a b (js_a_sum sc) (js_b_sum sc)) (seq 0 num_element) f0 in
    of_dbl (dmul (to_dbl js_divergence) d_half)
  else of_dbl d_zero.

(** *** [MahalanobisDivergencePolicy] and [EuclideanDivergencePolicy]

    Both end in the unqualified [sqrt] of <cmath>, which works on
    [double]; the result is converted back on return. *)

Definition c_sqrt (x : flt) : flt := of_dbl (dsqrt (to_dbl x)).

Definition mahalanobis_currval (m_inv_cov : list vec) (a b : vec)
    (num_element i : nat) : flt :=
  fold_left (fun currval j =>
               fadd currval (fmul (elem (nth i m_inv_cov []) j)
                                  (fsub (elem a j) (elem b j))))
            (seq 0 num_element) f0.

Definition MahalanobisDivergencePolicy (m_inv_cov : list vec) (a b : vec) : flt :=
  let num_element :=
    if (length m_inv_cov <? length a)%nat then length m_inv_cov else length a in
  let outsum :=
    fold_left (fun outsum i =>
                 fadd outsum (fmul (mahalanobis_currval m_inv_cov a b num_element i)
                                   (fsub (elem a i) (elem b i))))
              (seq 0 num_element) f0 in
  c_sqrt outsum.

Definition EuclideanDivergencePolicy (a b : vec) : flt :=
  let num_element := length a in
  let outsum :=
    fold_left (fun outsum i =>
                 fadd outsum (fmul (fsub (elem a i) (elem b i))
                                   (fsub (elem a i) (elem b i))))
              (seq 0 num_element) f0 in
  c_sqrt outsum.

End Policies.

(** ** The engine ([class StructuralChange]) *)

Record StructuralChange : Type := { m_num_dim : Z }.

(** The constructor takes a [size_t]; an argument of another integer
    type is converted by the caller, modulo [2^64]. *)
Inductive construction : Type :=
| Constructed (sc : StructuralChange)
| Rejected.

Definition StructuralChange_new (num_dim : Z) : construction :=
  Constructed {| m_num_dim := to_size_t num_dim |}.

Section Engine.

Context {A : Arith}.

(** [v[i] = x] on a vector; nothing is written past the end. *)
Fixpoint upd {X : Type} (i : nat) (x : X) (l : list X) : list X :=
  match l, i with
  | [], _ => []
  | _ :: l', O => x :: l'
  | y :: l', S i' => y :: upd i' x l'
  end.

Definition get_out (change_matrix : list vec) (i_frame i_timescale : nat) : flt :=
  elem (nth i_frame change_matrix []) i_timescale.

Definition set_out (change_matrix : list vec) (i_frame i_timescale : nat) (x : flt)
  : list vec :=
  upd i_frame (upd i_timescale x (nth i_frame change_matrix [])) change_matrix.

(** *** Cumulative matrix *)

Definition accumulate (num_element : nat) (cumulative_vector frame : vec) : vec :=
  map (fun i_element => fadd (elem cumulative_vector i_element) (elem frame i_element))
      (seq 0 num_element).

Fixpoint cumulative_rows (num_element : nat) (cumulative_vector : vec)
    (input_vector : list vec) : list vec :=
  match input_vector with
  | [] => []
  | frame :: rest =>
      let cumulative_vector' := accumulate num_element cumulative_vector frame in
      cumulative_vector' :: cumulative_rows num_element cumulative_vector' rest
  end.

Definition cumulative_matrix (input_vector : list vec) : list vec :=
  let num_element := length (nth 0 input_vector []) in
  repeat f0 num_element
    :: cumulative_rows num_element (repeat f0 num_element) input_vector.

(** [cumulative_matrix[k]] for an [int] index [k]. *)
Definition cum_row (cumulative : list vec) (k : Z) : vec :=
  nth (Z.to_nat k) cumulative [].

(** *** One time scale *)

Definition LEFT : flt := f_of_int (-1).
Definition RIGHT : flt := f_of_int (-2).

Definition window_mean (cumulative : list vec) (num_element : nat)
    (hi lo current_num_frames : Z) : vec :=
  map (fun i_element =>
         fdiv (fsub (elem (cum_row cumulative hi) i_element)
                    (elem (cum_row cumulative lo) i_element))
              (f_of_int current_num_frames))
      (seq 0 num_element).

(** The value [divergence(mean_L, mean_R)] for a boundary vector. *)
Definition frame_divergence (divergence : vec -> vec -> flt)
    (cumulative : list vec) (num_element : nat) (wb : list Z) : flt :=
  let current_num_frames := to_int (entry wb 1 - entry wb 0) in
  let mean_L := window_mean cumulative num_element (entry wb 1) (entry wb 0)
                  current_num_frames in
  let mean_R := window_mean cumulative num_element (entry wb 3) (entry wb 2)
                  current_num_frames in
  divergence mean_L mean_R.

Record pass_state : Type := {
  change_matrix : list vec;
  mean_div : flt;
  count_valid : Z
}.

Definition frame_step (divergence : vec -> vec -> flt) (cumulative : list vec)
    (num_element : nat) (boundaries : list (list Z)) (i_timescale : nat)
    (st : pass_state) (i_boundary : nat) : pass_state :=
  let wb := nth i_boundary boundaries [] in
  if entry wb 4 =? 0 then
    let cm := set_out (change_matrix st) i_boundary i_timescale
                (frame_divergence divergence cumulative num_element wb) in
    {| change_matrix := cm;
       mean_div := fadd (mean_div st) (get_out cm i_boundary i_timescale);
       count_valid := to_int (count_valid st + 1) |}
  else if entry wb 4 =? -1 then
    {| change_matrix := set_out (change_matrix st) i_boundary i_timescale LEFT;
       mean_div := mean_div st; count_valid := count_valid st |}
  else if entry wb 4 =? -2 then
    {| change_matrix := set_out (change_matrix st) i_boundary i_timescale RIGHT;
       mean_div := mean_div st; count_valid := count_valid st |}
  else
    {| change_matrix := set_out (change_matrix st) i_boundary i_timescale (of_dbl d_zero);
       mean_div := mean_div st; count_valid := count_valid st |}.

(** The second loop: sentinels are replaced by multiples of [mean_div]. *)
Definition substitute_step (i_timescale : nat) (mean_div : flt)
    (cm : list vec) (i_frame : nat) : list vec :=
  if feqb (get_out cm i_frame i_timescale) RIGHT then
    set_out cm i_frame i_timescale (fmul (f_of_int 3) mean_div)
  else if feqb (get_out cm i_frame i_timescale) LEFT then
    set_out cm i_frame i_timescale (fmul (f_of_int (-1)) mean_div)
  else cm.

Definition normalize_mean (mean_div : flt) (count_valid : Z) : flt :=
  if 0 <? count_valid then fdiv mean_div (f_of_int count_valid) else mean_div.

Definition timescale_pass (divergence : vec -> vec -> flt) (cumulative : list vec)
    (num_element num_frame : nat) (window_boundaries : list (list (list Z)))
    (cm : list vec) (i_timescale : nat) : list vec :=
  let boundaries := nth i_timescale window_boundaries [] in
  let st := fold_left (frame_step divergence cumulative num_element boundaries i_timescale)
              (seq 0 (length boundaries))
              {| change_matrix := cm; mean_div := f0; count_valid := 0 |} in
  let mean_div := normalize_mean (mean_div st) (count_valid st) in
  fold_left (substitute_step i_timescale mean_div) (seq 0 num_frame) (change_matrix st).

(** *** [StructuralChange::calculate] on [std::vector<float>] frames,
    returning the vector swapped into [rv]. *)
Definition calculate (sc : StructuralChange) (divergence : vec -> vec -> flt)
    (input_vector : list vec) : list vec :=
  let num_frame := length input_vector in
  if (num_frame =? 0)%nat then []
  else
    let num_element := length (nth 0 input_vector []) in
    let num_dim := Z.to_nat (m_num_dim sc) in
    let change_matrix := repeat (repeat f0 num_dim) num_frame in
    let cumulative := cumulative_matrix input_vector in
    let window_boundaries := init_window_boundaries num_dim num_frame in
    fold_left (timescale_pass divergence cumulative num_element num_frame window_boundaries)
              (seq 0 num_dim) change_matrix.

End Engine.

(** ** Vocabulary of the statements

    The definitions below are not part of the program; the lemmas and
    theorems are stated with them. *)

(** What the specification calls the status of a frame, as a function of
    the two window sizes and the half-width. *)
Definition status_of_sizes (w left_size right_size : Z) : Z :=
  if (left_size =? w) && (right_size =? w) then NORMAL
  else if right_size =? w then LEFT_SHORT
  else if left_size =? w then RIGHT_SHORT
  else BOTH_SHORT.

Section EngineVocabulary.

Context {A : Arith}.

(** A matrix of [N] rows of [T] entries. *)
Definition rect (N T : nat) (cm : list vec) : Prop :=
  length cm = N /\ forall i, (i < N)%nat -> length (nth i cm []) = T.

(** The effect of the second loop on one slot. *)
Definition substituted (m v : flt) : flt :=
  if feqb v RIGHT then fmul (f_of_int 3) m
  else if feqb v LEFT then fmul (f_of_int (-1)) m
  else v.

(** Arithmetic mean of a list of values, [0] for the empty list; the sum
    runs from left to right as the loop does. *)
Definition mean_of (l : list flt) : flt :=
  match l with
  | [] => f0
  | _ => fdiv (fold_left fadd l f0) (f_of_int (Z.of_nat (length l)))
  end.

Variable divergence : vec -> vec -> flt.
Variable cumulative : list vec.
Variable num_element : nat.

(** What the first loop leaves in the slot of a frame. *)
Definition raw_value (wb : list Z) : flt :=
  if entry wb 4 =? 0 then frame_divergence divergence cumulative num_element wb
  else if entry wb 4 =? -1 then LEFT
  else if entry wb 4 =? -2 then RIGHT
  else of_dbl d_zero.

Definition is_normal (wb : list Z) : bool := entry wb 4 =? 0.

(** The divergence values of the normal frames of a row, in frame order. *)
Definition normal_divergences (row : list (list Z)) : list flt :=
  map (frame_divergence divergence cumulative num_element) (filter is_normal row).

(** The final value of a slot, from the row of the table for its time
    scale: the raw value of the first loop, with sentinels replaced by
    multiples of the mean of the normal frames' divergences. *)
Definition final_value (row : list (list Z)) (i : nat) : flt :=
  substituted (mean_of (normal_divergences row)) (raw_value (nth i row [])).

(** The state after the first [n] iterations of the first loop. *)
Definition first_loop (boundaries : list (list Z)) (i_timescale : nat)
    (n : nat) (cm : list vec) : pass_state :=
  fold_left (frame_step divergence cumulative num_element boundaries i_timescale)
            (seq 0 n)
            {| change_matrix := cm; mean_div := f0; count_valid := 0 |}.

End EngineVocabulary.

Section RunVocabulary.

Context {A : Arith}.

Variable sc : StructuralChange.
Variable divergence : vec -> vec -> flt.
Variable input_vector : list vec.

Definition num_dim_of : nat := Z.to_nat (m_num_dim sc).

(** Status of frame [i] at time scale [t], as stored in the table. *)
Definition status (t i : nat) : Z :=
  entry (boundary_at (init_window_boundaries num_dim_of (length input_vector)) t i) 4.

(** The value the policy returns for frame [i] at time scale [t]. *)
Definition divergence_at (t i : nat) : flt :=
  frame_divergence divergence (cumulative_matrix input_vector)
    (length (nth 0 input_vector []))
    (boundary_at (init_window_boundaries num_dim_of (length input_vector)) t i).

Definition normal_frames (t : nat) : list nat :=
  filter (fun i => status t i =? NORMAL) (seq 0 (length input_vector)).

(** The mean of the divergences of the normal frames of a time scale. *)
Definition meanDiv (t : nat) : flt :=
  mean_of (map (divergence_at t) (normal_frames t)).

Definition output : list vec := calculate sc divergence input_vector.

End RunVocabulary.

Section CumulativeVocabulary.

Context {A : Arith}.

(** The values of one dimension over a run of frames. *)
Definition column (frames : list vec) (i_element : nat) : list flt :=
  map (fun frame => elem frame i_element) frames.

(** Elementwise sum of a run of frames, each dimension added from the
    first frame to the last. *)
Definition frames_sum (num_element : nat) (frames : list vec) : vec :=
  map (fun i_element => fold_left fadd (column frames i_element) f0)
      (seq 0 num_element).

(** Elementwise difference of two rows. *)
Definition vsub (num_element : nat) (u v : vec) : vec :=
  map (fun i_element => fsub (elem u i_element) (elem v i_element))
      (seq 0 num_element).

(** The frames [[j, k)] of the input. *)
Definition frames_between (input_vector : list vec) (j k : nat) : list vec :=
  firstn (k - j) (skipn j input_vector).

End CumulativeVocabulary.

Definition identity_matrix {A : Arith} (n : nat) : list vec :=
  map (fun i => map (fun j => if (i =? j)%nat then f_of_int 1 else f_of_int 0)
                    (seq 0 n))
      (seq 0 n).

Section PolicyVocabulary.

Context {A : Arith}.

(** No adjacent pair of elements differs. *)
Definition constant (v : vec) : Prop :=
  forall i, (S i < length v)%nat -> feqb (elem v (S i)) (elem v i) = true.

(** [x < 0.0] and [x > 0.0] as the first loop of the Jensen-Shannon
    policy tests them. *)
Definition is_negative (x : flt) : bool := dltb (to_dbl x) d_zero.
Definition is_positive (x : flt) : bool := dltb d_zero (to_dbl x).

Definition any_negative (a b : vec) (n : nat) : bool :=
  existsb (fun i => is_negative (elem a i) || is_negative (elem b i)) (seq 0 n).

Definition js_scan_upto (a b : vec) (n : nat) : js_scan :=
  fold_left (js_scan_step a b) (seq 0 n) js_scan_init.

End PolicyVocabulary.

(** Sums, means and the closed formulas over the reals. *)
Module ExactSpec.

Import Exact.

Local Open Scope R_scope.

Definition Rsum (l : list R) : R := fold_right Rplus 0 l.

Definition Rmean (v : list R) : R := Rsum v / INR (length v).

(** Sum of the products of the deviations from the means. *)
Definition co_moment (u v : list R) : R :=
  Rsum (map (fun p => (fst p - Rmean u) * (snd p - Rmean v)) (combine u v)).

(** Pearson correlation coefficient of two samples. *)
Definition pearson (a b : list R) : R :=
  co_moment a b / (sqrt (co_moment a a) * sqrt (co_moment b b)).

(** The vector divided by its sum. *)
Definition normalize (v : list R) : list R := map (fun x => x / Rsum v) v.

(** One term [x * log (x / m)], left out when [x] is not positive. *)
Definition kl_term (xm : R * R) : R :=
  if Rltb 0 (fst xm) then fst xm * ln (fst xm / snd xm) else 0.

(** The divergence as the specification writes it: normalize, take the
    midpoint [m], and halve the two sums of terms. *)
Definition js_formula (a b : list R) : R :=
  let p := normalize a in
  let q := normalize b in
  let m := map (fun pq => 1 / 2 * (fst pq + snd pq)) (combine p q) in
  1 / 2 * (Rsum (map kl_term (combine p m)) + Rsum (map kl_term (combine q m))).

(** The scaled elements and the terms of one index. *)
Definition scaled (v : list R) (i : nat) : R := nth i v 0 / Rsum v.

Definition index_term (a b : list R) (i : nat) : R :=
  kl_term (scaled a i, 1 / 2 * (scaled a i + scaled b i)) +
  kl_term (scaled b i, 1 / 2 * (scaled a i + scaled b i)).

End ExactSpec.

(** The natural logarithm of the C library at the six arguments which
    the runs of the Jensen-Shannon policy on [[1, 2]], [[2, 1]] and on
    [[1, 144]], [[1, 145]] evaluate; not a number elsewhere.  With all
    offsets [0] the values are the logarithms correctly rounded to
    binary64; an offset moves the value of its argument by that many
    units in the last place. *)
Definition ulp_shift (d : Z) (x : spec_float) : spec_float :=
  match x with
  | S754_finite s m e => S754_finite s (Z.to_pos (Z.pos m + (if s then - d else d))) e
  | _ => x
  end.

Definition log_near (offsets : list Z) (x : spec_float) : spec_float :=
  if SFeqb x (S754_finite false 6004799682117632 (-53))
  then ulp_shift (nth 0 offsets 0) (S754_finite true 7304209502279764 (-54))
  else if SFeqb x (S754_finite false 6004799682117632 (-52))
  then ulp_shift (nth 1 offsets 0) (S754_finite false 5182420034050954 (-54))
  else if SFeqb x (S754_finite false 4519076005150720 (-52))
  then ulp_shift (nth 2 offsets 0) (S754_finite false 7910321497565273 (-61))
  else if SFeqb x (S754_finite false 8976246499180544 (-53))
  then ulp_shift (nth 3 offsets 0) (S754_finite true 7937551732950198 (-61))
  else if SFeqb x (S754_finite false 9006984506376192 (-53))
  then ulp_shift (nth 4 offsets 0) (S754_finite true 7036958305179757 (-68))
  else if SFeqb x (S754_finite false 4503706464681984 (-52))
  then ulp_shift (nth 5 offsets 0) (S754_finite false 7001606997674626 (-68))
  else S754_nan.

Definition log_sample : spec_float -> spec_float := log_near [].

(** All ways of moving each of [n] values by at most one unit in the
    last place. *)
Fixpoint all_offsets (n : nat) : list (list Z) :=
  match n with
  | O => [[]]
  | S n' => flat_map (fun o => [(-1) :: o; 0 :: o; 1 :: o]) (all_offsets n')
  end.

(** ** A first run: four frames [1, 1, 5, 5], one time scale *)

Definition scenario_input : list (@vec IEEE.arith) :=
  [[IEEE.b32_of_Z 1]; [IEEE.b32_of_Z 1]; [IEEE.b32_of_Z 5]; [IEEE.b32_of_Z 5]].

(** ** Frame types of the template [calculate]

    [calculate] is a template over the types of the input and of the
    output frames.  It reaches the values of a frame through
    [FeaturesAccessPolicy<T>::get], which returns a reference to a
    [std::vector<float>], and copies metadata from an input frame to
    the output frame of the same index with
    [FeaturesCopyMetaPolicy<Dest, Source>::copy_meta]. *)

Class FeaturesAccessPolicy {A : Arith} (features_t : Type) : Type := {
  get : features_t -> vec;                  (* the vector the reference designates *)
  put : features_t -> vec -> features_t     (* a write through that reference *)
}.

Class FeaturesCopyMetaPolicy (Dest Source : Type) : Type := {
  copy_meta : Dest -> Source -> Dest        (* the destination after the call *)
}.

(** [FeaturesAccessPolicy< std::vector<float> >]: the frame is its own
    vector of values. *)
Definition vector_access {A : Arith} : FeaturesAccessPolicy vec :=
  {| get := fun v => v; put := fun _ values => values |}.

(** The primary template of [FeaturesCopyMetaPolicy]: nothing is copied. *)
Definition no_meta (Dest Source : Type) : FeaturesCopyMetaPolicy Dest Source :=
  {| copy_meta := fun lhs _ => lhs |}.

(** *** The Vamp adapter ([VampFeaturesAccess.hpp])

    [Vamp::Plugin::Feature] comes from the Vamp SDK; the adapter reads
    and writes its members [values], [hasTimestamp] and [timestamp].
    The type of time stamps is left open. *)

Module Vamp.

Record Feature {A : Arith} {RealTime : Type} : Type := {
  hasTimestamp : bool;
  timestamp : RealTime;
  hasDuration : bool;
  duration : RealTime;
  values : vec;
  label : String.string
}.

Arguments Feature {A} RealTime.

Section Adapter.

Context {A : Arith} {RealTime : Type}.

Definition access : FeaturesAccessPolicy (Feature RealTime) :=
  {| get := values;
     put := fun v new_values =>
       {| hasTimestamp := hasTimestamp v; timestamp := timestamp v;
          hasDuration := hasDuration v; duration := duration v;
          values := new_values; label := label v |} |}.

(** [FeaturesCopyMetaPolicy<Feature, Source>], for a source that is not
    itself a [Feature]. *)
Definition copy_meta_from (Source : Type)
  : FeaturesCopyMetaPolicy (Feature RealTime) Source :=
  {| copy_meta := fun lhs _ =>
       {| hasTimestamp := false; timestamp := timestamp lhs;
          hasDuration := hasDuration lhs; duration := duration lhs;
          values := values lhs; label := label lhs |} |}.

(** [FeaturesCopyMetaPolicy<Feature, Feature>]. *)
Definition copy_meta_feature
  : FeaturesCopyMetaPolicy (Feature RealTime) (Feature RealTime) :=
  {| copy_meta := fun lhs rhs =>
       {| hasTimestamp := hasTimestamp rhs;
          timestamp := if hasTimestamp rhs then timestamp rhs else timestamp lhs;
          hasDuration := hasDuration lhs; duration := duration lhs;
          values := values lhs; label := label lhs |} |}.

End Adapter.

End Vamp.

(** *** [StructuralChange::calculate] as the template is written

    The state of the loops is a vector of output frames; every read and
    write of a value goes through [get].  [fresh] is the
    value-initialised output frame with which
    [std::vector<OutputFeatures> change_matrix(num_frame)] is filled. *)

Module Generic.

Section Engine.

Context {A : Arith} {OutputFeatures InputFeatures : Type}.
Context (out_access : FeaturesAccessPolicy OutputFeatures).
Context (in_access : FeaturesAccessPolicy InputFeatures).
Context (meta : FeaturesCopyMetaPolicy OutputFeatures InputFeatures).

(** [v.resize(n)]: a longer vector is cut, a shorter one is filled with
    zeros. *)
Definition resize (n : nat) (v : vec) : vec :=
  firstn n v ++ repeat f0 (n - length v).

Definition get_out (change_matrix : list OutputFeatures) (i_frame i_timescale : nat) : flt :=
  match nth_error change_matrix i_frame with
  | Some features => elem (get features) i_timescale
  | None => f0
  end.

Definition set_out (change_matrix : list OutputFeatures) (i_frame i_timescale : nat)
    (x : flt) : list OutputFeatures :=
  match nth_error change_matrix i_frame with
  | Some features =>
      upd i_frame (put features (upd i_timescale x (get features))) change_matrix
  | None => change_matrix
  end.

Record pass_state : Type := {
  change_matrix : list OutputFeatures;
  mean_div : flt;
  count_valid : Z
}.

Definition frame_step (divergence : vec -> vec -> flt) (cumulative : list vec)
    (num_element : nat) (boundaries : list (list Z)) (i_timescale : nat)
    (st : pass_state) (i_boundary : nat) : pass_state :=
  let wb := nth i_boundary boundaries [] in
  if entry wb 4 =? 0 then
    let cm := set_out (change_matrix st) i_boundary i_timescale
                (frame_divergence divergence cumulative num_element wb) in
    {| change_matrix := cm;
       mean_div := fadd (mean_div st) (get_out cm i_boundary i_timescale);
       count_valid := to_int (count_valid st + 1) |}
  else if entry wb 4 =? -1 then
    {| change_matrix := set_out (change_matrix st) i_boundary i_timescale LEFT;
       mean_div := mean_div st; count_valid := count_valid st |}
  else if entry wb 4 =? -2 then
    {| change_matrix := set_out (change_matrix st) i_boundary i_timescale RIGHT;
       mean_div := mean_div st; count_valid := count_valid st |}
  else
    {| change_matrix := set_out (change_matrix st) i_boundary i_timescale (of_dbl d_zero);
       mean_div := mean_div st; count_valid := count_valid st |}.

Definition substitute_step (i_timescale : nat) (mean_div : flt)
    (cm : list OutputFeatures) (i_frame : nat) : list OutputFeatures :=
  if feqb (get_out cm i_frame i_timescale) RIGHT then
    set_out cm i_frame i_timescale (fmul (f_of_int 3) mean_div)
  else if feqb (get_out cm i_frame i_timescale) LEFT then
    set_out cm i_frame i_timescale (fmul (f_of_int (-1)) mean_div)
  else cm.

Definition timescale_pass (divergence : vec -> vec -> flt) (cumulative : list vec)
    (num_element num_frame : nat) (window_boundaries : list (list (list Z)))
    (cm : list OutputFeatures) (i_timescale : nat) : list OutputFeatures :=
  let boundaries := nth i_timescale window_boundaries [] in
  let st := fold_left (frame_step divergence cumulative num_element boundaries i_timescale)
              (seq 0 (length boundaries))
              {| change_matrix := cm; mean_div := f0; count_valid := 0 |} in
  let mean_div := normalize_mean (mean_div st) (count_valid st) in
  fold_left (substitute_step i_timescale mean_div) (seq 0 num_frame) (change_matrix st).

(** The first loop of [calculate] leaves, for every input frame, a fresh
    output frame resized to [m_num_dim] values and given the metadata of
    the input frame. *)
Definition prepare (fresh : OutputFeatures) (num_dim : nat) (input : InputFeatures)
  : OutputFeatures :=
  copy_meta (put fresh (resize num_dim (get fresh))) input.

Definition calculate (fresh : OutputFeatures) (sc : StructuralChange)
    (divergence : vec -> vec -> flt) (input_vector : list InputFeatures)
  : list OutputFeatures :=
  match input_vector with
  | [] => []
  | first :: _ =>
      let num_frame := length input_vector in
      let num_element := length (get first) in
      let num_dim := Z.to_nat (m_num_dim sc) in
      let change_matrix := map (prepare fresh num_dim) input_vector in
      let cumulative := cumulative_matrix (map get input_vector) in
      let window_boundaries := init_window_boundaries num_dim num_frame in
      fold_left (timescale_pass divergence cumulative num_element num_frame window_boundaries)
                (seq 0 num_dim) change_matrix
  end.

(** The overload of [calculate] without a policy argument: the
    Jensen-Shannon policy is the default. *)
Definition calculate_default (dlog : dbl -> dbl) (fresh : OutputFeatures)
    (sc : StructuralChange) (input_vector : list InputFeatures) : list OutputFeatures :=
  calculate fresh sc (JensonShannonDivergencePolicy dlog) input_vector.

End Engine.

End Generic.

(** The default overload on [std::vector<float>] frames. *)
Definition calculate_default {A : Arith} (dlog : dbl -> dbl) (sc : StructuralChange)
    (input_vector : list vec) : list vec :=
  calculate sc (JensonShannonDivergencePolicy dlog) input_vector.

(** ** Vocabulary of the further properties *)

(** The access functions of a frame type behave as one member: what is
    written is what is read, and copying metadata leaves the values. *)
Definition lawful_access {A : Arith} {Dest Source : Type}
    (access : FeaturesAccessPolicy Dest) (meta : FeaturesCopyMetaPolicy Dest Source)
  : Prop :=
  (forall (v : Dest) (x : vec), get (put v x) = x) /\
  (forall (v : Dest) (s : Source), get (copy_meta v s) = get v).

Section WindowVocabulary.

Context {A : Arith}.

(** The mean of a run of frames, dimension by dimension. *)
Definition frames_mean (num_element : nat) (frames : list vec) : vec :=
  map (fun i_element =>
         fdiv (elem (frames_sum num_element frames) i_element)
              (f_of_int (Z.of_nat (length frames))))
      (seq 0 num_element).

End WindowVocabulary.

(** The half-width of time scale [t] as a natural number. *)
Definition half_width (t : nat) : nat := 2 ^ t.

(** Frame indices with a given status at a time scale. *)
Definition frames_with_status (status_code : Z) (T N t : nat) : list nat :=
  filter (fun i => entry (boundary_at (init_window_boundaries T N) t i) 4 =? status_code)
         (seq 0 N).

(** Neither a negative number nor minus infinity: a NaN, a zero of
    either sign, or a value above zero. *)
Definition not_below_zero (x : spec_float) : bool :=
  match x with
  | S754_finite true _ _ | S754_infinity true => false
  | _ => true
  end.

(** Not a number.  The sign and the payload of a NaN are not part of
    [spec_float]; nothing is said about them. *)
Definition is_nan (x : spec_float) : bool :=
  match x with
  | S754_nan => true
  | _ => false
  end.

Module ExactVocabulary.

Local Open Scope R_scope.

(** Every value of every frame multiplied by [c]. *)
Definition scale (c : R) (input_vector : list (list R)) : list (list R) :=
  map (map (Rmult c)) input_vector.

(** The vector [v] added to a frame, element by element. *)
Definition shift (v frame : list R) : list R :=
  map (fun i => nth i frame 0 + nth i v 0) (seq 0 (length frame)).

(** The same vector added to every frame. *)
Definition translate (v : list R) (input_vector : list (list R)) : list (list R) :=
  map (shift v) input_vector.

(** Sum of the squares of the componentwise differences, over the
    length of the first vector. *)
Definition squared_distance (a b : list R) : R :=
  ExactSpec.Rsum (map (fun i => (nth i a 0 - nth i b 0) * (nth i a 0 - nth i b 0))
                      (seq 0 (length a))).

(** The quadratic form [d^T M d] of the difference [d = a - b], over
    the first [n] dimensions. *)
Definition quadratic_form (m : list (list R)) (a b : list R) (n : nat) : R :=
  ExactSpec.Rsum
    (map (fun i =>
            ExactSpec.Rsum
              (map (fun j => nth j (nth i m []) 0 * (nth j a 0 - nth j b 0)) (seq 0 n))
            * (nth i a 0 - nth i b 0))
         (seq 0 n)).

End ExactVocabulary.

(** ** Facts about the machine integers and the window table *)

Lemma to_int_small (z : Z) : - 2 ^ 31 <= z < 2 ^ 31 -> to_int z = z.
Proof.
  intros H. unfold to_int.
  rewrite Z.mod_small; lia.
Qed.

Lemma to_size_t_small (z : Z) : 0 <= z < 2 ^ 64 -> to_size_t z = z.
Proof. intros H. unfold to_size_t. apply Z.mod_small. exact H. Qed.

Lemma to_uint_small (z : Z) : 0 <= z < 2 ^ 32 -> to_uint z = z.
Proof. intros H. unfold to_uint. apply Z.mod_small. exact H. Qed.

Lemma window_width_pow2 (t : Z) : 0 <= t < 32 -> window_width t = 2 ^ t.
Proof.
  intros H. unfold window_width.
  rewrite Z.mod_small by lia.
  rewrite Z.shiftl_1_l.
  assert (0 < 2 ^ t) by (apply Z.pow_pos_nonneg; lia).
  assert (2 ^ t < 2 ^ 32) by (apply Z.pow_lt_mono_r; lia).
  rewrite to_uint_small by lia.
  apply to_size_t_small. lia.
Qed.

Lemma nth_map_lt {A B : Type} (f : A -> B) (l : list A) (i : nat) (d : B) (d' : A) :
  (i < length l)%nat -> nth i (map f l) d = f (nth i l d').
Proof.
  revert i. induction l as [| x l IH]; intros i H; simpl in *.
  - lia.
  - destruct i as [| i]; [reflexivity | apply IH; lia].
Qed.

Lemma length_counter (n : nat) : length (counter n) = n.
Proof. unfold counter. now rewrite length_map, length_seq. Qed.

Lemma nth_counter (n i : nat) (d : Z) :
  (i < n)%nat -> nth i (counter n) d = Z.of_nat i.
Proof.
  intros H. unfold counter.
  rewrite nth_map_lt with (d' := 0%nat) by (now rewrite length_seq).
  now rewrite seq_nth.
Qed.

Lemma boundary_at_init (T N t i : nat) :
  (t < T)%nat -> (i < N)%nat ->
  boundary_at (init_window_boundaries T N) t i =
  window_boundary (window_width (Z.of_nat t)) (Z.of_nat N) (Z.of_nat i).
Proof.
  intros Ht Hi. unfold boundary_at, init_window_boundaries.
  rewrite nth_map_lt with (d' := 0) by (now rewrite length_counter).
  rewrite nth_map_lt with (d' := 0) by (now rewrite length_counter).
  now rewrite !nth_counter.
Qed.

Lemma length_init_window_boundaries (T N : nat) :
  length (init_window_boundaries T N) = T.
Proof. unfold init_window_boundaries. now rewrite length_map, length_counter. Qed.

Lemma length_init_row (T N t : nat) :
  (t < T)%nat -> length (nth t (init_window_boundaries T N) []) = N.
Proof.
  intros Ht. unfold init_window_boundaries.
  rewrite nth_map_lt with (d' := 0) by (now rewrite length_counter).
  now rewrite length_map, length_counter.
Qed.

(** The boundary vector of one frame when nothing overflows. *)
Lemma window_boundary_in_range (w N i : Z) :
  0 < w <= 2 ^ 31 -> N < 2 ^ 31 -> 0 <= i < N ->
  window_boundary w N i =
  [Z.max 0 (i - w); i; i; Z.min N (i + w);
   status_of_sizes w (i - Z.max 0 (i - w)) (Z.min N (i + w) - i)].
Proof.
  intros Hw HN Hi. unfold window_boundary.
  assert (E64 : 2 ^ 64 = 18446744073709551616) by reflexivity.
  assert (E31 : 2 ^ 31 = 2147483648) by reflexivity.
  rewrite (to_size_t_small (i + 1)) by lia.
  rewrite (to_size_t_small (i + w)) by lia.
  assert (Hll : to_int (if i + 1 >? w then to_size_t (i - w) else 0) = Z.max 0 (i - w)).
  { destruct (Z.gtb_spec (i + 1) w).
    - rewrite to_size_t_small by lia. rewrite to_int_small by lia. lia.
    - rewrite to_int_small by lia. lia. }
  assert (Hrr : to_int (if i + w <? N then i + w else N) = Z.min N (i + w)).
  { destruct (Z.ltb_spec (i + w) N); rewrite to_int_small by lia; lia. }
  rewrite Hll, Hrr.
  rewrite (to_int_small i) by lia.
  rewrite (to_int_small (Z.min N (i + w) - Z.max 0 (i - w))) by lia.
  rewrite (to_size_t_small (Z.min N (i + w) - i)) by lia.
  rewrite (to_size_t_small (i - Z.max 0 (i - w))) by lia.
  do 4 f_equal. unfold status_of_sizes, NORMAL, LEFT_SHORT, RIGHT_SHORT, BOTH_SHORT.
  f_equal.
  assert (Hdbl : to_int (2 * to_int w) = 2 * w \/
                 (to_int (2 * to_int w) <= 0 /\ 2 ^ 30 <= w)).
  { destruct (Z_lt_le_dec w (2 ^ 30)) as [Hs | Hb].
    - left. rewrite (to_int_small w) by lia. apply to_int_small. lia.
    - right. split; [| exact Hb].
      destruct (Z.eq_dec w (2 ^ 31)) as [-> | Hne].
      + vm_compute. discriminate.
      + rewrite (to_int_small w) by lia.
        unfold to_int.
        replace (2 * w + 2 ^ 31) with (2 * w - 2 ^ 31 + 1 * 2 ^ 32) by lia.
        rewrite Z.mod_add by lia. rewrite Z.mod_small by lia. lia. }
  destruct (Z.eqb_spec (to_int (2 * to_int w)) (Z.min N (i + w) - Z.max 0 (i - w)));
    destruct (Z.eqb_spec (i - Z.max 0 (i - w)) w);
    destruct (Z.eqb_spec (Z.min N (i + w) - i) w);
    destruct (Z.eqb_spec w (Z.min N (i + w) - i));
    destruct (Z.eqb_spec w (i - Z.max 0 (i - w)));
    simpl; try reflexivity; try lia.
Qed.

(** ** Comparisons of the exact instance *)

Lemma Reqb_true (x y : R) : Exact.Reqb x y = true <-> x = y.
Proof. unfold Exact.Reqb. destruct (Req_dec_T x y); split; intros; congruence. Qed.

Lemma Rltb_true (x y : R) : Exact.Rltb x y = true <-> (x < y)%R.
Proof. unfold Exact.Rltb. destruct (Rlt_dec x y); split; intros; try congruence; tauto. Qed.

Lemma Rltb_false (x y : R) : Exact.Rltb x y = false <-> (y <= x)%R.
Proof.
  unfold Exact.Rltb. destruct (Rlt_dec x y); split; intros; try congruence; lra.
Qed.

(** ** Facts about indexed updates *)

Section UpdateFacts.

Context {X : Type}.

Lemma length_upd (i : nat) (x : X) (l : list X) : length (upd i x l) = length l.
Proof.
  revert i. induction l as [| y l IH]; intros [| i]; simpl; auto.
Qed.

Lemma nth_upd_same (i : nat) (x d : X) (l : list X) :
  (i < length l)%nat -> nth i (upd i x l) d = x.
Proof.
  revert i. induction l as [| y l IH]; intros [| i] H; simpl in *; try lia; auto.
  apply IH. lia.
Qed.

Lemma nth_upd_other (i j : nat) (x d : X) (l : list X) :
  i <> j -> nth j (upd i x l) d = nth j l d.
Proof.
  revert i j. induction l as [| y l IH]; intros [| i] [| j] H; simpl; auto;
    try congruence.
Qed.

Lemma upd_beyond (i : nat) (x : X) (l : list X) :
  (length l <= i)%nat -> upd i x l = l.
Proof.
  revert i. induction l as [| y l IH]; intros [| i] H; simpl in *; auto; try lia.
  f_equal. apply IH. lia.
Qed.

End UpdateFacts.

(** ** Facts about the engine, valid in every arithmetic *)

Section EngineFacts.

Context {A : Arith}.

Lemma rect_repeat (N T : nat) : rect N T (repeat (repeat f0 T) N).
Proof.
  split.
  - apply repeat_length.
  - intros i Hi. rewrite nth_repeat_lt by exact Hi. apply repeat_length.
Qed.

Lemma rect_set_out (N T : nat) (cm : list vec) (i t : nat) (x : flt) :
  rect N T cm -> rect N T (set_out cm i t x).
Proof.
  intros [HN HT]. unfold set_out. split.
  - now rewrite length_upd.
  - intros k Hk. destruct (Nat.eq_dec i k) as [-> | Hne].
    + rewrite nth_upd_same by lia. rewrite length_upd. now apply HT.
    + rewrite nth_upd_other by exact Hne. now apply HT.
Qed.

Lemma get_out_set_same (cm : list vec) (i t : nat) (x : flt) :
  (i < length cm)%nat -> (t < length (nth i cm []))%nat ->
  get_out (set_out cm i t x) i t = x.
Proof.
  intros Hi Ht. unfold get_out, set_out, elem.
  rewrite nth_upd_same by exact Hi. now apply nth_upd_same.
Qed.

Lemma get_out_set_other (cm : list vec) (i t i' t' : nat) (x : flt) :
  i' <> i \/ t' <> t ->
  get_out (set_out cm i t x) i' t' = get_out cm i' t'.
Proof.
  intros H. unfold get_out, set_out, elem.
  destruct (Nat.eq_dec i i') as [<- | Hne].
  - destruct (Nat.lt_ge_cases i (length cm)) as [Hlt | Hge].
    + rewrite nth_upd_same by exact Hlt.
      apply nth_upd_other. destruct H; congruence.
    + now rewrite upd_beyond by exact Hge.
  - now rewrite nth_upd_other by exact Hne.
Qed.

Section OnePass.

Variable divergence : vec -> vec -> flt.
Variable cumulative : list vec.
Variable num_element : nat.
Variable boundaries : list (list Z).
Variable i_timescale : nat.

Lemma normal_divergences_app (r1 r2 : list (list Z)) :
  normal_divergences divergence cumulative num_element (r1 ++ r2) = normal_divergences divergence cumulative num_element r1 ++ normal_divergences divergence cumulative num_element r2.
Proof. unfold normal_divergences. now rewrite filter_app, map_app. Qed.

Lemma normal_divergences_one (wb : list Z) :
  normal_divergences divergence cumulative num_element [wb] =
  if entry wb 4 =? 0 then [frame_divergence divergence cumulative num_element wb] else [].
Proof.
  unfold normal_divergences, is_normal. simpl.
  now destruct (entry wb 4 =? 0).
Qed.

Lemma firstn_succ_nth {X : Type} (l : list X) (n : nat) (d : X) :
  (n < length l)%nat -> firstn (S n) l = firstn n l ++ [nth n l d].
Proof.
  revert n. induction l as [| x l IH]; intros n H; simpl in *; [lia |].
  destruct n as [| n]; [reflexivity |].
  simpl. f_equal. apply IH. lia.
Qed.

Lemma length_normal_divergences_le (row : list (list Z)) :
  (length (normal_divergences divergence cumulative num_element row) <= length row)%nat.
Proof.
  unfold normal_divergences. rewrite length_map. apply filter_length_le.
Qed.

Lemma first_loop_spec (N T : nat) (cm : list vec) (n : nat) :
  rect N T cm -> (i_timescale < T)%nat ->
  (n <= N)%nat -> (n <= length boundaries)%nat -> Z.of_nat n < 2 ^ 31 ->
  rect N T (change_matrix (first_loop divergence cumulative num_element boundaries i_timescale n cm)) /\
  (forall i t, get_out (change_matrix (first_loop divergence cumulative num_element boundaries i_timescale n cm)) i t =
               if (t =? i_timescale)%nat && (i <? n)%nat
               then raw_value divergence cumulative num_element (nth i boundaries [])
               else get_out cm i t) /\
  mean_div (first_loop divergence cumulative num_element boundaries i_timescale n cm) =
    fold_left fadd (normal_divergences divergence cumulative num_element (firstn n boundaries)) f0 /\
  count_valid (first_loop divergence cumulative num_element boundaries i_timescale n cm) =
    Z.of_nat (length (normal_divergences divergence cumulative num_element (firstn n boundaries))).
Proof.
  intros Hrect Ht. induction n as [| n IH]; intros HnN Hnb Hn31.
  - unfold first_loop. simpl. split; [exact Hrect |]. split; [| split; reflexivity].
    intros i t. now rewrite andb_false_r.
  - destruct IH as (IHr & IHg & IHm & IHc); try lia.
    unfold first_loop in *. rewrite seq_S, fold_left_app.
    rewrite (firstn_succ_nth boundaries n []) by lia.
    cbn [fold_left Nat.add].
    set (st := fold_left _ (seq 0 n) _) in *.
    rewrite normal_divergences_app, normal_divergences_one.
    pose proof (length_normal_divergences_le (firstn n boundaries)) as Hlen.
    rewrite length_firstn in Hlen.
    assert (Hin : (n < length (change_matrix st))%nat) by (destruct IHr; lia).
    assert (Hrow : (i_timescale < length (nth n (change_matrix st) []))%nat).
    { destruct IHr as [_ IHr]. rewrite IHr by lia. exact Ht. }
    assert (Hget : forall x i t,
      get_out (set_out (change_matrix st) n i_timescale x) i t =
      if (t =? i_timescale)%nat && (i <? S n)%nat
      then (if (i =? n)%nat then x else raw_value divergence cumulative num_element (nth i boundaries []))
      else get_out cm i t).
    { intros x i t.
      destruct (Nat.eqb_spec t i_timescale) as [-> | Hti];
        destruct (Nat.eqb_spec i n) as [-> | Hin'].
      - rewrite get_out_set_same by assumption.
        replace (n <? S n)%nat with true by (symmetry; apply Nat.ltb_lt; lia).
        reflexivity.
      - rewrite get_out_set_other by (left; exact Hin').
        rewrite IHg. rewrite Nat.eqb_refl. simpl.
        destruct (Nat.ltb_spec i n); destruct (Nat.ltb_spec i (S n));
          try reflexivity; lia.
      - rewrite get_out_set_other by (right; exact Hti).
        rewrite IHg. simpl.
        destruct (Nat.eqb_spec t i_timescale); [contradiction | reflexivity].
      - rewrite get_out_set_other by (right; exact Hti).
        rewrite IHg. simpl.
        destruct (Nat.eqb_spec t i_timescale); [contradiction | reflexivity]. }
    unfold frame_step, raw_value.
    destruct (entry (nth n boundaries []) 4 =? 0) eqn:E0; simpl.
    + rewrite get_out_set_same by assumption.
      split; [apply rect_set_out; exact IHr |]. split; [| split].
      * intros i t. rewrite Hget.
        destruct ((t =? i_timescale)%nat && (i <? S n)%nat); [| reflexivity].
        destruct (Nat.eqb_spec i n) as [-> | ]; [now rewrite E0 | reflexivity].
      * rewrite fold_left_app. simpl. now rewrite IHm.
      * rewrite IHc, length_app. simpl.
        rewrite to_int_small by lia. lia.
    + rewrite app_nil_r.
      destruct (entry (nth n boundaries []) 4 =? -1) eqn:E1;
        [| destruct (entry (nth n boundaries []) 4 =? -2) eqn:E2]; simpl;
        (split; [apply rect_set_out; exact IHr |]; split; [| split; assumption];
         intros i t; rewrite Hget;
         destruct ((t =? i_timescale)%nat && (i <? S n)%nat); [| reflexivity];
         destruct (Nat.eqb_spec i n) as [-> | ]; [| reflexivity];
         rewrite E0; try rewrite E1; try rewrite E2; reflexivity).
Qed.

End OnePass.

End EngineFacts.

Section PassFacts.

Context {A : Arith}.

Variable divergence : vec -> vec -> flt.
Variable cumulative : list vec.
Variable num_element : nat.

Lemma normalize_mean_of (l : list flt) :
  normalize_mean (fold_left fadd l f0) (Z.of_nat (length l)) = mean_of l.
Proof.
  unfold normalize_mean, mean_of. destruct l as [| x l]; [reflexivity |].
  replace (0 <? Z.of_nat (length (x :: l))) with true; [reflexivity |].
  symmetry. apply Z.ltb_lt. simpl length. lia.
Qed.

(** Shapes are kept by every step, whatever the table holds. *)
Lemma rect_frame_step (N T : nat) (boundaries : list (list Z)) (t : nat)
    (st : pass_state) (i : nat) :
  rect N T (change_matrix st) ->
  rect N T (change_matrix
              (frame_step divergence cumulative num_element boundaries t st i)).
Proof.
  intros H. unfold frame_step.
  repeat match goal with |- context [if ?c then _ else _] => destruct c end;
    simpl; now apply rect_set_out.
Qed.

Lemma rect_first_loop (N T : nat) (boundaries : list (list Z)) (t : nat)
    (l : list nat) (st : pass_state) :
  rect N T (change_matrix st) ->
  rect N T (change_matrix
              (fold_left (frame_step divergence cumulative num_element boundaries t) l st)).
Proof.
  revert st. induction l as [| i l IH]; intros st H; simpl; [exact H |].
  apply IH. now apply rect_frame_step.
Qed.

Lemma rect_substitute_step (N T t : nat) (m : flt) (cm : list vec) (i : nat) :
  rect N T cm -> rect N T (substitute_step t m cm i).
Proof.
  intros H. unfold substitute_step.
  repeat match goal with |- context [if ?c then _ else _] => destruct c end;
    try exact H; now apply rect_set_out.
Qed.

Lemma rect_second_loop (N T t : nat) (m : flt) (l : list nat) (cm : list vec) :
  rect N T cm -> rect N T (fold_left (substitute_step t m) l cm).
Proof.
  revert cm. induction l as [| i l IH]; intros cm H; simpl; [exact H |].
  apply IH. now apply rect_substitute_step.
Qed.

Lemma rect_timescale_pass (N T num_frame : nat) (wbs : list (list (list Z)))
    (cm : list vec) (t : nat) :
  rect N T cm ->
  rect N T (timescale_pass divergence cumulative num_element num_frame wbs cm t).
Proof.
  intros H. unfold timescale_pass.
  apply rect_second_loop. now apply rect_first_loop.
Qed.

Lemma rect_passes (N T num_frame : nat) (wbs : list (list (list Z)))
    (l : list nat) (cm : list vec) :
  rect N T cm ->
  rect N T (fold_left (timescale_pass divergence cumulative num_element num_frame wbs) l cm).
Proof.
  revert cm. induction l as [| t l IH]; intros cm H; simpl; [exact H |].
  apply IH. now apply rect_timescale_pass.
Qed.

(** Values written by the second loop. *)
Lemma second_loop_spec (N T t : nat) (m : flt) (cm : list vec) (n : nat) :
  rect N T cm -> (t < T)%nat -> (n <= N)%nat ->
  forall i t',
    get_out (fold_left (substitute_step t m) (seq 0 n) cm) i t' =
    if (t' =? t)%nat && (i <? n)%nat
    then substituted m (get_out cm i t)
    else get_out cm i t'.
Proof.
  intros Hrect Ht. induction n as [| n IH]; intros Hn i t'.
  - simpl. now rewrite andb_false_r.
  - rewrite seq_S, fold_left_app. cbn [fold_left Nat.add].
    set (r := fold_left _ (seq 0 n) cm) in *.
    assert (Hr : rect N T r) by (now apply rect_second_loop).
    assert (Hin : (n < length r)%nat) by (destruct Hr; lia).
    assert (Hrow : (t < length (nth n r []))%nat).
    { destruct Hr as [_ Hr]. rewrite Hr by lia. exact Ht. }
    assert (Hold : get_out r n t = get_out cm n t).
    { rewrite IH by lia. rewrite Nat.ltb_irrefl. now rewrite andb_false_r. }
    assert (Hstep : forall x,
      get_out (set_out r n t x) i t' =
      if (t' =? t)%nat && (i <? S n)%nat
      then (if (i =? n)%nat then x else substituted m (get_out cm i t))
      else get_out cm i t').
    { intros x.
      destruct (Nat.eqb_spec t' t) as [-> | Hti];
        destruct (Nat.eqb_spec i n) as [-> | Hin'].
      - rewrite get_out_set_same by assumption.
        replace (n <? S n)%nat with true by (symmetry; apply Nat.ltb_lt; lia).
        reflexivity.
      - rewrite get_out_set_other by (left; exact Hin').
        rewrite IH by lia. rewrite Nat.eqb_refl. simpl.
        destruct (Nat.ltb_spec i n); destruct (Nat.ltb_spec i (S n));
          try reflexivity; lia.
      - rewrite get_out_set_other by (right; exact Hti).
        rewrite IH by lia. simpl.
        destruct (Nat.eqb_spec t' t); [contradiction | reflexivity].
      - rewrite get_out_set_other by (right; exact Hti).
        rewrite IH by lia. simpl.
        destruct (Nat.eqb_spec t' t); [contradiction | reflexivity]. }
    unfold substitute_step. rewrite Hold.
    destruct (feqb (get_out cm n t) RIGHT) eqn:ER;
      [| destruct (feqb (get_out cm n t) LEFT) eqn:EL].
    + rewrite Hstep.
      destruct ((t' =? t)%nat && (i <? S n)%nat); [| reflexivity].
      destruct (Nat.eqb_spec i n) as [-> |]; [| reflexivity].
      unfold substituted. now rewrite ER.
    + rewrite Hstep.
      destruct ((t' =? t)%nat && (i <? S n)%nat); [| reflexivity].
      destruct (Nat.eqb_spec i n) as [-> |]; [| reflexivity].
      unfold substituted. now rewrite ER, EL.
    + rewrite IH by lia.
      destruct (Nat.eqb_spec t' t) as [-> | Hti]; simpl; [| reflexivity].
      destruct (Nat.eqb_spec i n) as [-> | Hin'].
      * rewrite Nat.ltb_irrefl.
        replace (n <? S n)%nat with true by (symmetry; apply Nat.ltb_lt; lia).
        unfold substituted. now rewrite ER, EL.
      * destruct (Nat.ltb_spec i n); destruct (Nat.ltb_spec i (S n));
          try reflexivity; lia.
Qed.

Lemma timescale_pass_spec (N T : nat) (wbs : list (list (list Z)))
    (cm : list vec) (t : nat) :
  rect N T cm -> (t < T)%nat -> length (nth t wbs []) = N -> Z.of_nat N < 2 ^ 31 ->
  forall i t',
    get_out (timescale_pass divergence cumulative num_element N wbs cm t) i t' =
    if (t' =? t)%nat && (i <? N)%nat
    then final_value divergence cumulative num_element (nth t wbs []) i
    else get_out cm i t'.
Proof.
  intros Hrect Ht Hlen HN i t'. unfold timescale_pass.
  set (row := nth t wbs []) in *.
  destruct (first_loop_spec divergence cumulative num_element row t N T cm N)
    as (Hr & Hg & Hm & Hc); try assumption; try lia.
  unfold first_loop in *. rewrite Hlen.
  set (st := fold_left _ (seq 0 N) _) in *.
  rewrite second_loop_spec with (N := N) (T := T) by (assumption || lia).
  rewrite !Hg, Hm, Hc.
  replace (firstn N row) with row by (symmetry; apply firstn_all2; lia).
  rewrite normalize_mean_of. rewrite Nat.eqb_refl.
  destruct (Nat.eqb_spec t' t) as [-> | Hne]; simpl.
  - destruct (i <? N)%nat; reflexivity.
  - reflexivity.
Qed.

Lemma passes_spec (N T : nat) (wbs : list (list (list Z))) (cm : list vec) (k : nat) :
  rect N T cm -> (k <= T)%nat -> Z.of_nat N < 2 ^ 31 ->
  (forall t, (t < T)%nat -> length (nth t wbs []) = N) ->
  forall i t,
    get_out (fold_left (timescale_pass divergence cumulative num_element N wbs)
                       (seq 0 k) cm) i t =
    if (t <? k)%nat && (i <? N)%nat
    then final_value divergence cumulative num_element (nth t wbs []) i
    else get_out cm i t.
Proof.
  intros Hrect Hk HN Hrows. induction k as [| k IH]; intros i t.
  - reflexivity.
  - rewrite seq_S, fold_left_app. cbn [fold_left Nat.add].
    rewrite timescale_pass_spec with (T := T);
      [| apply rect_passes; exact Hrect | lia | apply Hrows; lia | exact HN].
    rewrite IH by lia.
    destruct (Nat.eqb_spec t k) as [-> | Hne]; simpl.
    + rewrite Nat.ltb_irrefl.
      replace (k <? S k)%nat with true by (symmetry; apply Nat.ltb_lt; lia).
      simpl. destruct (i <? N)%nat; reflexivity.
    + destruct (Nat.ltb_spec t k); destruct (Nat.ltb_spec t (S k));
        try reflexivity; lia.
Qed.

End PassFacts.

(** Every slot of the result of [calculate]. *)
Lemma calculate_slot {A : Arith} (sc : StructuralChange)
    (divergence : vec -> vec -> flt) (input_vector : list vec) (i t : nat) :
  Z.of_nat (length input_vector) < 2 ^ 31 ->
  (i < length input_vector)%nat -> (t < Z.to_nat (m_num_dim sc))%nat ->
  get_out (calculate sc divergence input_vector) i t =
  final_value divergence (cumulative_matrix input_vector)
    (length (nth 0 input_vector []))
    (nth t (init_window_boundaries (Z.to_nat (m_num_dim sc)) (length input_vector)) [])
    i.
Proof.
  intros HN Hi Ht. unfold calculate.
  destruct (Nat.eqb_spec (length input_vector) 0) as [E | _]; [lia |].
  rewrite passes_spec with (T := Z.to_nat (m_num_dim sc)).
  - replace (t <? Z.to_nat (m_num_dim sc))%nat with true
      by (symmetry; apply Nat.ltb_lt; exact Ht).
    replace (i <? length input_vector)%nat with true
      by (symmetry; apply Nat.ltb_lt; exact Hi).
    reflexivity.
  - apply rect_repeat.
  - lia.
  - exact HN.
  - intros t' Ht'. now apply length_init_row.
Qed.

Lemma map_nth_seq {X : Type} (l : list X) (d : X) :
  map (fun i => nth i l d) (seq 0 (length l)) = l.
Proof.
  induction l as [| x l IH]; [reflexivity |].
  simpl. f_equal. rewrite <- seq_shift, map_map. exact IH.
Qed.

Lemma filter_map_comm {X Y : Type} (f : X -> Y) (p : Y -> bool) (l : list X) :
  filter p (map f l) = map f (filter (fun x => p (f x)) l).
Proof.
  induction l as [| x l IH]; [reflexivity |].
  simpl. destruct (p (f x)); simpl; now rewrite IH.
Qed.

Lemma normal_divergences_by_index {A : Arith} (divergence : vec -> vec -> flt)
    (cumulative : list vec) (num_element : nat) (row : list (list Z)) :
  normal_divergences divergence cumulative num_element row =
  map (fun i => frame_divergence divergence cumulative num_element (nth i row []))
      (filter (fun i => entry (nth i row []) 4 =? 0) (seq 0 (length row))).
Proof.
  unfold normal_divergences, is_normal.
  rewrite <- (map_nth_seq row []) at 1.
  now rewrite filter_map_comm, map_map.
Qed.

Lemma meanDiv_row {A : Arith} (sc : StructuralChange) (divergence : vec -> vec -> flt)
    (input_vector : list vec) (t : nat) :
  (t < num_dim_of sc)%nat ->
  mean_of (normal_divergences divergence (cumulative_matrix input_vector)
             (length (nth 0 input_vector []))
             (nth t (init_window_boundaries (num_dim_of sc) (length input_vector)) []))
  = meanDiv sc divergence input_vector t.
Proof.
  intros Ht. unfold meanDiv, normal_frames, divergence_at, status, boundary_at, NORMAL.
  rewrite normal_divergences_by_index.
  now rewrite length_init_row by exact Ht.
Qed.

(** Final value of every slot in terms of the vocabulary above. *)
Lemma output_slot {A : Arith} (sc : StructuralChange) (divergence : vec -> vec -> flt)
    (input_vector : list vec) (t i : nat) :
  Z.of_nat (length input_vector) < 2 ^ 31 ->
  (i < length input_vector)%nat -> (t < num_dim_of sc)%nat ->
  get_out (output sc divergence input_vector) i t =
  substituted (meanDiv sc divergence input_vector t)
    (if status sc input_vector t i =? 0 then divergence_at sc divergence input_vector t i
     else if status sc input_vector t i =? -1 then LEFT
     else if status sc input_vector t i =? -2 then RIGHT
     else of_dbl d_zero).
Proof.
  intros HN Hi Ht. unfold output.
  rewrite calculate_slot by assumption.
  unfold final_value. fold (num_dim_of sc).
  rewrite meanDiv_row by exact Ht.
  reflexivity.
Qed.

Lemma rect_Forall {A : Arith} (N T : nat) (cm : list vec) :
  rect N T cm -> Forall (fun frame => length frame = T) cm.
Proof.
  intros [HN HT]. apply Forall_forall. intros r Hr.
  destruct (In_nth cm r [] Hr) as (i & Hi & <-).
  apply HT. lia.
Qed.

Lemma rect_calculate {A : Arith} (sc : StructuralChange) (divergence : vec -> vec -> flt)
    (input_vector : list vec) :
  rect (length input_vector) (num_dim_of sc) (calculate sc divergence input_vector).
Proof.
  unfold calculate.
  destruct (Nat.eqb_spec (length input_vector) 0) as [E | _].
  - rewrite E. split; [reflexivity | intros i Hi; lia].
  - apply rect_passes. apply rect_repeat.
Qed.

(** *** Sentinels in IEEE arithmetic *)

Lemma ieee_LEFT_is_LEFT : @feqb IEEE.arith (@LEFT IEEE.arith) (@LEFT IEEE.arith) = true.
Proof. reflexivity. Qed.

Lemma ieee_RIGHT_is_RIGHT : @feqb IEEE.arith (@RIGHT IEEE.arith) (@RIGHT IEEE.arith) = true.
Proof. reflexivity. Qed.

Lemma ieee_LEFT_not_RIGHT : @feqb IEEE.arith (@LEFT IEEE.arith) (@RIGHT IEEE.arith) = false.
Proof. reflexivity. Qed.

(** ** Cumulative matrix: rows as sums of frames *)

Section CumulativeFacts.

Context {A : Arith}.

Lemma elem_map_seq (g : nat -> flt) (n e : nat) :
  (e < n)%nat -> elem (map g (seq 0 n)) e = g e.
Proof.
  intros H. unfold elem.
  rewrite nth_map_lt with (d' := 0%nat) by (now rewrite length_seq).
  now rewrite seq_nth.
Qed.

Lemma frames_sum_nil (num_element : nat) :
  frames_sum num_element [] = repeat f0 num_element.
Proof.
  unfold frames_sum. simpl.
  induction num_element as [| n IH]; [reflexivity |].
  rewrite seq_S, map_app, IH. simpl.
  now rewrite <- repeat_cons.
Qed.

Lemma accumulate_frames_sum (num_element : nat) (frames : list vec) (frame : vec) :
  accumulate num_element (frames_sum num_element frames) frame =
  frames_sum num_element (frames ++ [frame]).
Proof.
  unfold accumulate, frames_sum. apply map_ext_in. intros e He.
  apply in_seq in He. rewrite elem_map_seq by lia.
  unfold column. now rewrite map_app, fold_left_app.
Qed.

Lemma cumulative_rows_spec (num_element : nat) (rest : list vec) :
  forall (done : list vec) (k : nat),
    (k <= length rest)%nat ->
    nth k (frames_sum num_element done
             :: cumulative_rows num_element (frames_sum num_element done) rest) [] =
    frames_sum num_element (done ++ firstn k rest).
Proof.
  induction rest as [| frame rest IH]; intros done k Hk; simpl in Hk.
  - replace k with 0%nat by lia. simpl. now rewrite app_nil_r.
  - destruct k as [| k]; [simpl; now rewrite app_nil_r |].
    change (nth (S k) (frames_sum num_element done
               :: cumulative_rows num_element (frames_sum num_element done)
                    (frame :: rest)) [])
      with (nth k (accumulate num_element (frames_sum num_element done) frame
               :: cumulative_rows num_element
                    (accumulate num_element (frames_sum num_element done) frame)
                    rest) []).
    rewrite accumulate_frames_sum.
    rewrite IH by lia. cbn [firstn]. now rewrite <- app_assoc.
Qed.

Lemma length_cumulative_rows (num_element : nat) (cv : vec) (input_vector : list vec) :
  length (cumulative_rows num_element cv input_vector) = length input_vector.
Proof.
  revert cv. induction input_vector as [| f l IH]; intros cv; simpl; auto.
Qed.

Lemma cumulative_matrix_row (input_vector : list vec) (k : nat) :
  (k <= length input_vector)%nat ->
  nth k (cumulative_matrix input_vector) [] =
  frames_sum (length (nth 0 input_vector [])) (firstn k input_vector).
Proof.
  intros Hk. unfold cumulative_matrix.
  rewrite <- frames_sum_nil.
  now rewrite cumulative_rows_spec.
Qed.

(** In an arithmetic where addition is associative with unit [0] and
    subtraction undoes it, a sum can be cut at any point. *)
Section ExactAddition.

Hypothesis fadd_assoc : forall x y z : flt, fadd (fadd x y) z = fadd x (fadd y z).
Hypothesis fadd_0_l : forall x : flt, fadd f0 x = x.
Hypothesis fadd_0_r : forall x : flt, fadd x f0 = x.
Hypothesis fsub_fadd : forall x y : flt, fsub (fadd x y) x = y.

Lemma fold_fadd_from (l : list flt) (s : flt) :
  fold_left fadd l s = fadd s (fold_left fadd l f0).
Proof.
  revert s. induction l as [| x l IH]; intros s; simpl.
  - now rewrite fadd_0_r.
  - rewrite (IH (fadd s x)), (IH (fadd f0 x)).
    now rewrite fadd_0_l, fadd_assoc.
Qed.

Lemma frames_sum_difference (num_element : nat) (l1 l2 : list vec) :
  vsub num_element (frames_sum num_element (l1 ++ l2)) (frames_sum num_element l1) =
  frames_sum num_element l2.
Proof.
  unfold vsub, frames_sum at 3. apply map_ext_in. intros e He.
  apply in_seq in He. unfold frames_sum. rewrite !elem_map_seq by lia.
  unfold column. rewrite map_app, fold_left_app.
  now rewrite fold_fadd_from, fsub_fadd.
Qed.

End ExactAddition.

End CumulativeFacts.

Lemma firstn_split_between {X : Type} (l : list X) (j k : nat) :
  (j <= k)%nat -> firstn k l = firstn j l ++ firstn (k - j) (skipn j l).
Proof.
  intros H. replace k with (j + (k - j))%nat at 1 by lia.
  generalize (k - j)%nat as m. clear H. intros m.
  revert l. induction j as [| j IH]; intros l; [reflexivity |].
  destruct l as [| x l]; simpl.
  - now rewrite firstn_nil.
  - f_equal. apply IH.
Qed.

(** ** Binary32 facts used by the policies *)

Module IEEEFacts.

Import IEEE.

Lemma binary_round_aux_shape (prec emax : Z) (sx : bool) (mx ex : Z) (lx : location) :
  binary_round_aux prec emax sx mx ex lx = S754_zero sx \/
  (exists m e, binary_round_aux prec emax sx mx ex lx = S754_finite sx m e) \/
  binary_round_aux prec emax sx mx ex lx = S754_infinity sx \/
  binary_round_aux prec emax sx mx ex lx = S754_nan.
Proof.
  unfold binary_round_aux.
  destruct (shr_fexp prec emax mx ex lx) as [mrs' e'].
  destruct (shr_fexp prec emax _ e' loc_Exact) as [mrs'' e''].
  destruct (shr_m mrs'') as [| m | m]; auto.
  destruct (e'' <=? emax - prec); eauto.
Qed.

Lemma nonneg32_round_aux (prec emax mx ex : Z) (lx : location) :
  nonneg32 (binary_round_aux prec emax false mx ex lx) = true.
Proof.
  destruct (binary_round_aux_shape prec emax false mx ex lx)
    as [-> | [(m & e & ->) | [-> | ->]]]; reflexivity.
Qed.

Lemma nonneg32_add (x y : spec_float) :
  nonneg32 x = true -> nonneg32 y = true ->
  nonneg32 (SFadd prec32 emax32 x y) = true.
Proof.
  destruct x as [sx | sx | | sx mx ex], y as [sy | sy | | sy my ey];
    simpl; intros Hx Hy; try reflexivity; try assumption;
    try (destruct sx; [discriminate |]); try (destruct sy; [discriminate |]);
    try reflexivity.
  unfold SFadd. cbn [cond_Zopp Z.add binary_normalize].
  unfold binary_round.
  destruct (shl_align _ _ _) as [mz ez].
  apply nonneg32_round_aux.
Qed.

Lemma nonneg32_square (d : spec_float) : nonneg32 (SFmul prec32 emax32 d d) = true.
Proof.
  destruct d as [s | s | | s m e]; try (now destruct s); [reflexivity |].
  unfold SFmul. rewrite xorb_nilpotent. apply nonneg32_round_aux.
Qed.

Lemma digits2_pos_shift (m : positive) :
  Z.pos (digits2_pos (8388608 * m)) = Z.pos (digits2_pos m) + 23.
Proof.
  change (8388608 * m)%positive
    with (m~0~0~0~0~0~0~0~0~0~0~0~0~0~0~0~0~0~0~0~0~0~0~0)%positive.
  cbn [digits2_pos]. lia.
Qed.

(** Multiplying by [1.0f] returns the other factor. *)
Lemma SFmul_one_l (x : spec_float) :
  finite32 x = true -> SFmul prec32 emax32 (b32_of_Z 1) x = x.
Proof.
  destruct x as [s | s | | s m e]; intros H; try discriminate H;
    [reflexivity |].
  change (b32_of_Z 1) with (S754_finite false 8388608 (-23)).
  unfold SFmul. cbn [xorb].
  unfold finite32, bounded, canonical_mantissa in H.
  apply andb_prop in H. destruct H as [Hc He].
  apply Z.eqb_eq in Hc.
  unfold binary_round_aux.
  assert (Hshift : fexp prec32 emax32 (Zdigits2 (Z.pos (8388608 * m)) + (-23 + e))
                   - (-23 + e) = 23).
  { unfold Zdigits2. rewrite digits2_pos_shift.
    replace (Z.pos (digits2_pos m) + 23 + (-23 + e))
      with (Z.pos (digits2_pos m) + e) by lia.
    rewrite Hc. lia. }
  unfold shr_fexp at 1. rewrite Hshift.
  change (8388608 * m)%positive
    with (m~0~0~0~0~0~0~0~0~0~0~0~0~0~0~0~0~0~0~0~0~0~0~0)%positive.
  cbn [shr_record_of_loc shr iter_pos shr_1 orb shr_m loc_of_shr_record
       round_nearest_even].
  unfold shr_fexp. cbn [Zdigits2].
  replace (-23 + e + 23) with e by lia.
  rewrite Hc, Z.sub_diag.
  cbn [shr shr_record_of_loc shr_m].
  now rewrite He.
Qed.

(** *** Rounding a positive mantissa never gives zero

    as long as the exponent is not below [emin]. *)

Section RoundPositive.

Variables prec emax : Z.
Hypothesis prec_pos : 0 < prec.

Lemma shr_1_positive (m : positive) (r s : bool) :
  (1 < digits2_pos m)%positive ->
  exists m' r' s',
    shr_1 {| shr_m := Z.pos m; shr_r := r; shr_s := s |} =
      {| shr_m := Z.pos m'; shr_r := r'; shr_s := s' |} /\
    Z.pos (digits2_pos m') = Z.pos (digits2_pos m) - 1.
Proof.
  intros H. destruct m as [m | m |]; cbn [shr_1 digits2_pos] in *.
  - do 3 eexists. split; [reflexivity | lia].
  - do 3 eexists. split; [reflexivity | lia].
  - lia.
Qed.

Lemma iter_shr_1_positive (p : positive) :
  forall (m : positive) (r s : bool),
    Z.pos p < Z.pos (digits2_pos m) ->
    exists m' r' s',
      iter_pos shr_1 p {| shr_m := Z.pos m; shr_r := r; shr_s := s |} =
        {| shr_m := Z.pos m'; shr_r := r'; shr_s := s' |} /\
      Z.pos (digits2_pos m') = Z.pos (digits2_pos m) - Z.pos p.
Proof.
  induction p as [p IH | p IH |]; intros m r s H; cbn [iter_pos].
  - destruct (shr_1_positive m r s) as (m0 & r0 & s0 & E0 & D0); [lia |].
    rewrite E0.
    destruct (IH m0 r0 s0) as (m1 & r1 & s1 & E1 & D1); [lia |].
    rewrite E1.
    destruct (IH m1 r1 s1) as (m2 & r2 & s2 & E2 & D2); [lia |].
    rewrite E2. do 3 eexists. split; [reflexivity | lia].
  - destruct (IH m r s) as (m1 & r1 & s1 & E1 & D1); [lia |].
    rewrite E1.
    destruct (IH m1 r1 s1) as (m2 & r2 & s2 & E2 & D2); [lia |].
    rewrite E2. do 3 eexists. split; [reflexivity | lia].
  - destruct (shr_1_positive m r s) as (m0 & r0 & s0 & E0 & D0); [lia |].
    rewrite E0. do 3 eexists. split; [reflexivity | lia].
Qed.

Lemma shr_fexp_positive (m : positive) (e : Z) :
  emin prec emax <= e ->
  exists m' r' s' e',
    shr_fexp prec emax (Z.pos m) e loc_Exact =
      ({| shr_m := Z.pos m'; shr_r := r'; shr_s := s' |}, e') /\ e <= e'.
Proof.
  intros He. unfold shr_fexp. cbn [Zdigits2 shr_record_of_loc].
  destruct (fexp prec emax (Z.pos (digits2_pos m) + e) - e) as [| p | p] eqn:En;
    cbn [shr].
  - do 4 eexists. split; [reflexivity | lia].
  - assert (Hp : Z.pos p < Z.pos (digits2_pos m)).
    { unfold fexp in En. lia. }
    destruct (iter_shr_1_positive p m false false Hp) as (m' & r' & s' & E & _).
    rewrite E. do 4 eexists. split; [reflexivity | lia].
  - do 4 eexists. split; [reflexivity | lia].
Qed.

Lemma round_nearest_even_positive (m : positive) (l : location) :
  exists m', round_nearest_even (Z.pos m) l = Z.pos m'.
Proof.
  destruct l as [| [| |]]; cbn [round_nearest_even].
  - eauto.
  - destruct (Z.even (Z.pos m)); [eauto | exists (m + 1)%positive; reflexivity].
  - eauto.
  - exists (m + 1)%positive. reflexivity.
Qed.

Lemma binary_round_aux_positive (sx : bool) (m : positive) (e : Z) :
  emin prec emax <= e ->
  (exists m' e', binary_round_aux prec emax sx (Z.pos m) e loc_Exact =
                   S754_finite sx m' e' /\ emin prec emax <= e') \/
  binary_round_aux prec emax sx (Z.pos m) e loc_Exact = S754_infinity sx.
Proof.
  intros He. unfold binary_round_aux.
  destruct (shr_fexp_positive m e He) as (m1 & r1 & s1 & e1 & -> & He1).
  cbn [shr_m].
  destruct (round_nearest_even_positive m1
              (loc_of_shr_record {| shr_m := Z.pos m1; shr_r := r1; shr_s := s1 |}))
    as (m2 & ->).
  destruct (shr_fexp_positive m2 e1 ltac:(lia)) as (m3 & r3 & s3 & e3 & -> & He3).
  cbn [shr_m].
  destruct (e3 <=? emax - prec); [left | right; reflexivity].
  do 2 eexists. split; [reflexivity | lia].
Qed.

Lemma binary_round_positive (sx : bool) (m : positive) (e : Z) :
  emin prec emax <= e ->
  (exists m' e', binary_round prec emax sx m e = S754_finite sx m' e' /\
                 emin prec emax <= e') \/
  binary_round prec emax sx m e = S754_infinity sx.
Proof.
  intros He. unfold binary_round, shl_align.
  destruct (fexp prec emax (Z.pos (digits2_pos m) + e) - e) as [| p | p] eqn:En.
  - now apply binary_round_aux_positive.
  - now apply binary_round_aux_positive.
  - apply binary_round_aux_positive. unfold fexp. lia.
Qed.

End RoundPositive.

Lemma valid32_exponent (s : bool) (m : positive) (e : Z) :
  valid32 (S754_finite s m e) = true -> emin prec32 emax32 <= e.
Proof.
  unfold valid32, valid_binary, bounded, canonical_mantissa. intros H.
  apply andb_prop in H. destruct H as [H _]. apply Z.eqb_eq in H.
  unfold fexp in H. lia.
Qed.

(** Widening keeps the sign of a finite number and never returns zero. *)
Lemma widen_finite (s : bool) (m : positive) (e : Z) :
  emin prec32 emax32 <= e ->
  (exists m' e', widen (S754_finite s m e) = S754_finite s m' e') \/
  widen (S754_finite s m e) = S754_infinity s.
Proof.
  intros He. unfold widen, convert.
  assert (He64 : emin prec64 emax64 <= e).
  { unfold emin, prec32, emax32, prec64, emax64 in *. lia. }
  destruct s; cbn [cond_Zopp Z.opp binary_normalize].
  - destruct (binary_round_positive prec64 emax64 ltac:(reflexivity) true m e He64)
      as [(m' & e' & -> & _) | ->]; eauto.
  - destruct (binary_round_positive prec64 emax64 ltac:(reflexivity) false m e He64)
      as [(m' & e' & -> & _) | ->]; eauto.
Qed.

(** *** Sums of values that are not negative *)

(** What the scan of the Jensen-Shannon policy lets through. *)
Lemma not_negative_class (x : spec_float) :
  valid32 x = true -> @is_negative arith x = false ->
  is_zero32 x = true \/ off_zero32 x = true.
Proof.
  intros Hv Hn. destruct x as [s | [|] | | [|] m e]; auto;
    try (vm_compute in Hn; discriminate Hn).
  - exfalso. pose proof (valid32_exponent _ _ _ Hv) as He.
    unfold is_negative in Hn.
    change (@to_dbl arith) with widen in Hn. change (@dltb arith) with SFltb in Hn.
    destruct (widen_finite true m e He) as [(m' & e' & E) | E];
      rewrite E in Hn; discriminate Hn.
  - right. cbn [off_zero32]. apply Z.leb_le. exact (valid32_exponent _ _ _ Hv).
Qed.

Lemma positive_not_zero (x : spec_float) :
  @is_positive arith x = true -> is_zero32 x = false.
Proof. destruct x as [s | | |]; [discriminate | reflexivity ..]. Qed.

Lemma off_zero32_not_equal_zero (x : spec_float) :
  off_zero32 x = true -> SFeqb x (S754_zero false) = false.
Proof. destruct x as [s | [|] | | [|] m e]; try discriminate; reflexivity. Qed.

Lemma add32_off_zero (s x : spec_float) :
  off_zero32 s = true -> is_zero32 x = true \/ off_zero32 x = true ->
  off_zero32 (SFadd prec32 emax32 s x) = true.
Proof.
  intros Hs [Hx | Hx].
  - destruct x as [sx | | |]; try discriminate Hx.
    destruct s as [ss | [|] | | [|] m e]; try discriminate Hs; exact Hs.
  - destruct s as [ss | [|] | | [|] m e]; try discriminate Hs;
      destruct x as [sx | [|] | | [|] mx ex]; try discriminate Hx;
      try reflexivity; try assumption.
    cbn [off_zero32] in Hs, Hx. apply Z.leb_le in Hs, Hx.
    unfold SFadd. cbn [cond_Zopp Z.add binary_normalize].
    destruct (binary_round_positive prec32 emax32 ltac:(reflexivity) false
                (fst (shl_align m e (Z.min e ex)) + fst (shl_align mx ex (Z.min e ex)))
                (Z.min e ex) ltac:(lia))
      as [(m' & e' & -> & He') | ->]; [| reflexivity].
    cbn [off_zero32]. now apply Z.leb_le.
Qed.

Lemma add32_from_zero (s x : spec_float) :
  is_zero32 s = true -> off_zero32 x = true ->
  off_zero32 (SFadd prec32 emax32 s x) = true.
Proof.
  intros Hs Hx. destruct s as [ss | | |]; try discriminate Hs.
  destruct x as [sx | [|] | | [|] mx ex]; try discriminate Hx; exact Hx.
Qed.

Lemma add32_zero_zero (s x : spec_float) :
  is_zero32 s = true -> is_zero32 x = true ->
  is_zero32 (SFadd prec32 emax32 s x) = true.
Proof.
  intros Hs Hx. destruct s as [[|] | | |]; try discriminate Hs;
    destruct x as [[|] | | |]; try discriminate Hx; reflexivity.
Qed.

Lemma sum_stays_off_zero (l : list spec_float) :
  Forall (fun x => is_zero32 x = true \/ off_zero32 x = true) l ->
  forall s0, off_zero32 s0 = true ->
    off_zero32 (fold_left (SFadd prec32 emax32) l s0) = true.
Proof.
  induction 1 as [| x l Hx Hl IH]; intros s0 Hs; [exact Hs |].
  cbn [fold_left]. apply IH. now apply add32_off_zero.
Qed.

Lemma sum_leaves_zero (l : list spec_float) :
  Forall (fun x => is_zero32 x = true \/ off_zero32 x = true) l ->
  forall s0, is_zero32 s0 = true ->
    off_zero32 (fold_left (SFadd prec32 emax32) l s0) = false ->
    Forall (fun x => is_zero32 x = true) l.
Proof.
  induction 1 as [| x l Hx Hl IH]; intros s0 Hs Hsum; [constructor |].
  cbn [fold_left] in Hsum.
  destruct (is_zero32 x) eqn:Ez.
  - constructor; [exact Ez |].
    apply (IH (SFadd prec32 emax32 s0 x)); [now apply add32_zero_zero | exact Hsum].
  - exfalso. destruct Hx as [Hx | Hx]; [discriminate Hx |].
    rewrite (sum_stays_off_zero l Hl) in Hsum; [discriminate Hsum |].
    now apply add32_from_zero.
Qed.

(** A vector of valid, non-negative values whose sum compares equal
    to zero has no positive element. *)
Lemma zero_sum_no_positive (v : list spec_float) :
  Forall (fun x => valid32 x = true) v ->
  Forall (fun x => @is_negative arith x = false) v ->
  SFeqb (sum32 v) (S754_zero false) = true ->
  Forall (fun x => @is_positive arith x = false) v.
Proof.
  intros Hv Hn Hs.
  assert (Hc : Forall (fun x => is_zero32 x = true \/ off_zero32 x = true) v).
  { rewrite Forall_forall in *. intros x Hx. apply not_negative_class; auto. }
  assert (Hz : Forall (fun x => is_zero32 x = true) v).
  { apply (sum_leaves_zero v Hc (S754_zero false) eq_refl).
    destruct (off_zero32 (fold_left (SFadd prec32 emax32) v (S754_zero false))) eqn:E;
      [| reflexivity].
    apply off_zero32_not_equal_zero in E. unfold sum32 in Hs. congruence. }
  rewrite Forall_forall in *. intros x Hx.
  destruct (@is_positive arith x) eqn:E; [| reflexivity].
  apply positive_not_zero in E. rewrite (Hz x Hx) in E. discriminate E.
Qed.

End IEEEFacts.

(** ** Mahalanobis distance with the identity matrix *)

Module MahalanobisIdentity.

Import IEEE IEEEFacts.

Local Abbreviation add32 := (SFadd prec32 emax32).
Local Abbreviation mul32 := (SFmul prec32 emax32).
Local Abbreviation sub32 := (SFsub prec32 emax32).

Lemma identity_entry (n i j : nat) :
  (i < n)%nat -> (j < n)%nat ->
  @elem arith (nth i (@identity_matrix arith n) []) j =
  if (i =? j)%nat then b32_of_Z 1 else b32_of_Z 0.
Proof.
  intros Hi Hj. unfold identity_matrix.
  rewrite nth_map_lt with (d' := 0%nat) by (now rewrite length_seq).
  rewrite seq_nth by exact Hi.
  rewrite (elem_map_seq (A := arith)) by exact Hj. reflexivity.
Qed.

Lemma add32_zero_l (x : spec_float) :
  finite32 x = true -> add32 (S754_zero false) x = plus_zero x.
Proof. destruct x as [[|] | | |]; intros H; try discriminate H; reflexivity. Qed.

Lemma add32_zero_r (c : spec_float) (s : bool) :
  finite32 (plus_zero c) = true -> add32 (plus_zero c) (S754_zero s) = plus_zero c.
Proof.
  destruct c as [[|] | | |]; intros H; try discriminate H; destruct s; reflexivity.
Qed.

Lemma mul32_zero_l (x : spec_float) :
  finite32 x = true -> exists s, mul32 (b32_of_Z 0) x = S754_zero s.
Proof.
  destruct x as [s | | | s m e]; intros H; try discriminate H;
    eexists; reflexivity.
Qed.

Lemma finite32_plus_zero (x : spec_float) :
  finite32 x = true -> finite32 (plus_zero x) = true.
Proof. destruct x; auto. Qed.

Section Vectors.

Variables a b : @vec arith.
Variable n : nat.

Let d (j : nat) : spec_float := sub32 (@elem arith a j) (@elem arith b j).

Hypothesis differences_finite : forall j, (j < n)%nat -> finite32 (d j) = true.

Lemma currval_prefix (i k : nat) :
  (i < n)%nat -> (k <= n)%nat ->
  fold_left (fun currval j =>
               add32 currval (mul32 (@elem arith (nth i (@identity_matrix arith n) []) j)
                                    (d j)))
            (seq 0 k) (S754_zero false) =
  if (i <? k)%nat then plus_zero (d i) else S754_zero false.
Proof.
  intros Hi. induction k as [| k IH]; intros Hk; [reflexivity |].
  rewrite seq_S, fold_left_app. cbn [fold_left Nat.add].
  rewrite IH by lia. rewrite identity_entry by lia.
  destruct (Nat.eqb_spec i k) as [-> | Hne].
  - rewrite Nat.ltb_irrefl.
    replace (k <? S k)%nat with true by (symmetry; apply Nat.ltb_lt; lia).
    rewrite SFmul_one_l by (apply differences_finite; lia).
    apply add32_zero_l. apply differences_finite. lia.
  - destruct (mul32_zero_l (d k)) as [s ->]; [apply differences_finite; lia |].
    destruct (Nat.ltb_spec i k); destruct (Nat.ltb_spec i (S k)); try lia.
    + apply add32_zero_r. apply finite32_plus_zero. apply differences_finite. lia.
    + now destruct s.
Qed.

Lemma currval_identity (i : nat) :
  (i < n)%nat ->
  @mahalanobis_currval arith (@identity_matrix arith n) a b n i = plus_zero (d i).
Proof.
  intros Hi. unfold mahalanobis_currval.
  change (@f0 arith) with (S754_zero false).
  change (@fadd arith) with add32. change (@fmul arith) with mul32.
  change (@fsub arith) with sub32.
  fold d.
  change (fun (currval : @flt arith) (j : nat) =>
            add32 currval (mul32 (@elem arith (nth i (@identity_matrix arith n) []) j)
                                 (sub32 (@elem arith a j) (@elem arith b j))))
    with (fun (currval : spec_float) (j : nat) =>
            add32 currval (mul32 (@elem arith (nth i (@identity_matrix arith n) []) j)
                                 (d j))).
  rewrite currval_prefix by lia.
  now replace (i <? n)%nat with true by (symmetry; apply Nat.ltb_lt; lia).
Qed.

Lemma add32_zero_any (o : spec_float) (s s' : bool) :
  nonneg32 o = true -> add32 o (S754_zero s) = add32 o (S754_zero s').
Proof.
  destruct o as [[|] | | |]; intros H; try discriminate H;
    destruct s, s'; reflexivity.
Qed.

Lemma product_step (o x : spec_float) :
  nonneg32 o = true -> finite32 x = true ->
  add32 o (mul32 (plus_zero x) x) = add32 o (mul32 x x).
Proof.
  intros Ho Hx. destruct x as [s | | | s m e]; try discriminate Hx.
  - cbn [plus_zero SFmul]. now apply add32_zero_any.
  - reflexivity.
Qed.

Lemma outsum_prefix (k : nat) :
  (k <= n)%nat ->
  fold_left (fun outsum i =>
               add32 outsum
                 (mul32 (@mahalanobis_currval arith (@identity_matrix arith n) a b n i)
                        (d i)))
            (seq 0 k) (S754_zero false) =
  fold_left (fun outsum i => add32 outsum (mul32 (d i) (d i)))
            (seq 0 k) (S754_zero false) /\
  nonneg32 (fold_left (fun outsum i => add32 outsum (mul32 (d i) (d i)))
                      (seq 0 k) (S754_zero false)) = true.
Proof.
  induction k as [| k IH]; intros Hk; [split; reflexivity |].
  destruct IH as [IHe IHn]; [lia |].
  rewrite !seq_S, !fold_left_app. cbn [fold_left Nat.add].
  rewrite IHe. rewrite currval_identity by lia.
  split.
  - apply product_step; [exact IHn | apply differences_finite; lia].
  - apply nonneg32_add; [exact IHn | apply nonneg32_square].
Qed.

End Vectors.

End MahalanobisIdentity.

(** ** Correlation policy *)

Section CorrelationFacts.

Context {A : Arith}.

Variables a b : vec.

Lemma corr_scan_step_fields (l : list nat) (st : corr_scan) :
  cs_a_mean (fold_left (corr_scan_step a b) l st) =
    fold_left (fun s i => fadd s (elem a i)) l (cs_a_mean st) /\
  cs_b_mean (fold_left (corr_scan_step a b) l st) =
    fold_left (fun s i => fadd s (elem b i)) l (cs_b_mean st).
Proof.
  revert st. induction l as [| i l IH]; intros st; [split; reflexivity |].
  simpl. destruct (IH (corr_scan_step a b st i)) as [-> ->]. split; reflexivity.
Qed.

Lemma corr_sums_step_fields (a_mean b_mean : flt) (l : list nat) (st : corr_sums) :
  above (fold_left (corr_sums_step a b a_mean b_mean) l st) =
    fold_left (fun s i => fadd s (fmul (fsub (elem a i) a_mean) (fsub (elem b i) b_mean)))
              l (above st) /\
  below_a (fold_left (corr_sums_step a b a_mean b_mean) l st) =
    fold_left (fun s i => fadd s (fmul (fsub (elem a i) a_mean) (fsub (elem a i) a_mean)))
              l (below_a st) /\
  below_b (fold_left (corr_sums_step a b a_mean b_mean) l st) =
    fold_left (fun s i => fadd s (fmul (fsub (elem b i) b_mean) (fsub (elem b i) b_mean)))
              l (below_b st).
Proof.
  revert st. induction l as [| i l IH]; intros st; [repeat split |].
  simpl. destruct (IH (corr_sums_step a b a_mean b_mean st i)) as (-> & -> & ->).
  repeat split.
Qed.

Lemma corr_scan_valid (n : nat) :
  let st := fold_left (corr_scan_step a b) (seq 0 n) corr_scan_init in
  (cs_a_valid st = false <->
   forall i, (S i < n)%nat -> feqb (elem a (S i)) (elem a i) = true) /\
  (cs_b_valid st = false <->
   forall i, (S i < n)%nat -> feqb (elem b (S i)) (elem b i) = true).
Proof.
  induction n as [| n IH]; cbv zeta.
  - simpl. split; (split; [intros _ i Hi; lia | reflexivity]).
  - rewrite seq_S, fold_left_app. cbn [fold_left Nat.add].
    cbv zeta in IH. set (st := fold_left _ (seq 0 n) _) in *.
    destruct IH as [IHa IHb].
    unfold corr_scan_step. cbn [cs_a_valid cs_b_valid].
    destruct n as [| m].
    + simpl. split; (split; [intros _ i Hi; lia | reflexivity]).
    + replace (0 <? S m)%nat with true by reflexivity.
      replace (S m - 1)%nat with m by lia.
      split.
      * destruct (feqb (elem a (S m)) (elem a m)) eqn:E; simpl.
        -- rewrite IHa. split; intros H i Hi.
           ++ destruct (Nat.eq_dec i m) as [-> | Hne]; [exact E | apply H; lia].
           ++ apply H. lia.
        -- split; [discriminate |]. intros H.
           specialize (H m ltac:(lia)). congruence.
      * destruct (feqb (elem b (S m)) (elem b m)) eqn:E; simpl.
        -- rewrite IHb. split; intros H i Hi.
           ++ destruct (Nat.eq_dec i m) as [-> | Hne]; [exact E | apply H; lia].
           ++ apply H. lia.
        -- split; [discriminate |]. intros H.
           specialize (H m ltac:(lia)). congruence.
Qed.

(** A constant vector on either side gives the fallback value. *)
Lemma correlation_constant :
  length a = length b -> constant a \/ constant b ->
  CorrelationDivergencePolicy a b = of_dbl d_zero.
Proof.
  intros Hlen Hc. unfold CorrelationDivergencePolicy.
  destruct (corr_scan_valid (length a)) as [Ha Hb]. cbv zeta in Ha, Hb.
  destruct Hc as [Hc | Hc].
  - apply Ha in Hc. now rewrite Hc.
  - unfold constant in Hc. rewrite <- Hlen in Hc. apply Hb in Hc.
    rewrite Hc. now rewrite andb_false_r.
Qed.

Lemma correlation_not_constant :
  length a = length b -> ~ constant a -> ~ constant b ->
  let num_element := length a in
  let sc := fold_left (corr_scan_step a b) (seq 0 num_element) corr_scan_init in
  cs_a_valid sc && cs_b_valid sc = true.
Proof.
  intros Hlen Ha Hb. cbv zeta.
  destruct (corr_scan_valid (length a)) as [Ha' Hb'].
  cbv zeta in Ha', Hb'.
  destruct (cs_a_valid _) eqn:Ea.
  - destruct (cs_b_valid _) eqn:Eb; [reflexivity |].
    exfalso. apply Hb. unfold constant. rewrite <- Hlen. apply Hb'. reflexivity.
  - exfalso. apply Ha. unfold constant. apply Ha'. reflexivity.
Qed.

End CorrelationFacts.

(** ** The policies in exact arithmetic *)

Module ExactFacts.

Import Exact ExactSpec.

Local Open Scope R_scope.

Lemma Rsum_app (l1 l2 : list R) : Rsum (l1 ++ l2) = Rsum l1 + Rsum l2.
Proof.
  induction l1 as [| x l1 IH]; simpl; [lra | rewrite IH; lra].
Qed.

Lemma fold_Rplus_sum {X : Type} (g : X -> R) (l : list X) (s0 : R) :
  fold_left (fun s i => s + g i) l s0 = s0 + Rsum (map g l).
Proof.
  revert s0. induction l as [| i l IH]; intros s0; simpl; [lra |].
  rewrite IH. lra.
Qed.

Lemma pairs_by_index (a b : list R) :
  length a = length b ->
  map (fun i => (nth i a 0, nth i b 0)) (seq 0 (length a)) = combine a b.
Proof.
  revert b. induction a as [| x a IH]; intros [| y b] H; simpl in *;
    try discriminate; [reflexivity |].
  f_equal. rewrite <- seq_shift, map_map. apply IH. congruence.
Qed.

Lemma Rsum_nonneg {X : Type} (g : X -> R) (l : list X) :
  (forall i, In i l -> 0 <= g i) -> 0 <= Rsum (map g l).
Proof.
  induction l as [| i l IH]; intros H; simpl; [lra |].
  pose proof (H i (or_introl eq_refl)).
  assert (0 <= Rsum (map g l)) by (apply IH; intros; apply H; now right).
  lra.
Qed.

Lemma Rsum_zero_all {X : Type} (g : X -> R) (l : list X) :
  (forall i, In i l -> 0 <= g i) -> Rsum (map g l) = 0 ->
  forall i, In i l -> g i = 0.
Proof.
  induction l as [| j l IH]; intros H Hs i Hi; simpl in *; [contradiction |].
  pose proof (H j (or_introl eq_refl)).
  assert (0 <= Rsum (map g l)) by (apply Rsum_nonneg; intros; apply H; now right).
  destruct Hi as [<- | Hi]; [lra |].
  apply IH; auto. lra.
Qed.

Lemma Rsum_ext {X : Type} (g h : X -> R) (l : list X) :
  (forall i, In i l -> g i = h i) -> Rsum (map g l) = Rsum (map h l).
Proof.
  intros H. f_equal. now apply map_ext_in.
Qed.

Lemma square_order (x y : R) : 0 <= x -> y * y <= x * x -> y <= x.
Proof.
  intros Hx H. destruct (Rle_dec y x) as [| Hn]; [assumption |].
  exfalso. assert (x < y) by lra. nra.
Qed.

Lemma cauchy_schwarz {X : Type} (u v : X -> R) (l : list X) :
  Rsum (map (fun i => u i * v i) l) * Rsum (map (fun i => u i * v i) l) <=
  Rsum (map (fun i => u i * u i) l) * Rsum (map (fun i => v i * v i) l).
Proof.
  induction l as [| i l IH]; simpl; [lra |].
  set (S := Rsum (map (fun i => u i * v i) l)) in *.
  set (P := Rsum (map (fun i => u i * u i) l)) in *.
  set (Q := Rsum (map (fun i => v i * v i) l)) in *.
  assert (HP : 0 <= P) by (apply Rsum_nonneg; intros; exact (Rle_0_sqr _)).
  assert (HQ : 0 <= Q) by (apply Rsum_nonneg; intros; exact (Rle_0_sqr _)).
  generalize (u i) (v i). intros x y.
  assert (Hmix : 2 * S * x * y <= P * (y * y) + Q * (x * x)).
  { apply square_order.
    - assert (0 <= P * (y * y)) by (apply Rmult_le_pos; [lra | exact (Rle_0_sqr _)]).
      assert (0 <= Q * (x * x)) by (apply Rmult_le_pos; [lra | exact (Rle_0_sqr _)]).
      lra.
    - assert (H1 : 0 <= (P * (y * y) - Q * (x * x)) * (P * (y * y) - Q * (x * x)))
        by exact (Rle_0_sqr _).
      assert (H2 : 0 <= (x * y) * (x * y) * (P * Q - S * S))
        by (apply Rmult_le_pos; [exact (Rle_0_sqr _) | lra]).
      apply Rminus_le.
      replace (2 * S * x * y * (2 * S * x * y) -
               (P * (y * y) + Q * (x * x)) * (P * (y * y) + Q * (x * x)))
        with (- ((P * (y * y) - Q * (x * x)) * (P * (y * y) - Q * (x * x)) +
                 4 * ((x * y) * (x * y) * (P * Q - S * S)))) by ring.
      lra. }
  apply Rminus_le.
  replace ((x * y + S) * (x * y + S) - (x * x + P) * (y * y + Q))
    with ((S * S - P * Q) + (2 * S * x * y - (P * (y * y) + Q * (x * x)))) by ring.
  lra.
Qed.

Lemma ratio_bounds (S D : R) :
  0 < D -> S * S <= D * D -> -1 <= S / D <= 1.
Proof.
  intros HD H.
  assert (S <= D) by (apply square_order; lra).
  assert (- S <= D) by (apply square_order; [lra | nra]).
  split.
  - apply Rmult_le_reg_r with D; [lra |]. unfold Rdiv.
    rewrite Rmult_assoc, Rinv_l by lra. lra.
  - apply Rmult_le_reg_r with D; [lra |]. unfold Rdiv.
    rewrite Rmult_assoc, Rinv_l by lra. lra.
Qed.

Section Correlation.

Variables a b : @vec arith.
Hypothesis same_length : length a = length b.

Let n := length a.
Let ma := Rmean a.
Let mb := Rmean b.
Let ua (i : nat) := nth i a 0 - ma.
Let ub (i : nat) := nth i b 0 - mb.

Lemma mean_by_index (v : list R) (k : nat) :
  k = length v ->
  (0 + Rsum (map (fun i => nth i v 0) (seq 0 k))) / IZR (Z.of_nat k) = Rmean v.
Proof.
  intros ->. rewrite map_nth_seq. unfold Rmean.
  rewrite <- INR_IZR_INZ. f_equal. lra.
Qed.

Lemma co_moment_ab :
  co_moment a b = Rsum (map (fun i => ua i * ub i) (seq 0 n)).
Proof.
  unfold co_moment. rewrite <- pairs_by_index by exact same_length.
  now rewrite map_map.
Qed.

Lemma co_moment_aa :
  co_moment a a = Rsum (map (fun i => ua i * ua i) (seq 0 n)).
Proof.
  unfold co_moment. rewrite <- (pairs_by_index a a) by reflexivity.
  now rewrite map_map.
Qed.

Lemma co_moment_bb :
  co_moment b b = Rsum (map (fun i => ub i * ub i) (seq 0 n)).
Proof.
  unfold co_moment. rewrite <- (pairs_by_index b b) by reflexivity.
  rewrite map_map. unfold n. now rewrite same_length.
Qed.

Lemma policy_value :
  ~ @constant arith a -> ~ @constant arith b ->
  @CorrelationDivergencePolicy arith a b =
  1 / 2 + (- (1 / 2) * co_moment a b) / (sqrt (co_moment a a) * sqrt (co_moment b b)).
Proof.
  intros Ha Hb. unfold CorrelationDivergencePolicy. cbv zeta.
  rewrite (correlation_not_constant (A := arith) a b same_length Ha Hb).
  destruct (corr_scan_step_fields (A := arith) a b (seq 0 (length a)) corr_scan_init)
    as [Em1 Em2].
  assert (Ema : @fdiv arith (cs_a_mean (fold_left (@corr_scan_step arith a b)
                  (seq 0 (length a)) corr_scan_init))
                  (@f_of_int arith (Z.of_nat (length a))) = ma).
  { rewrite Em1. simpl.
    rewrite (fold_Rplus_sum (fun i => @elem arith a i)).
    unfold f0, elem. simpl. apply mean_by_index. reflexivity. }
  assert (Emb : @fdiv arith (cs_b_mean (fold_left (@corr_scan_step arith a b)
                  (seq 0 (length a)) corr_scan_init))
                  (@f_of_int arith (Z.of_nat (length a))) = mb).
  { rewrite Em2. simpl.
    rewrite (fold_Rplus_sum (fun i => @elem arith b i)).
    unfold f0, elem. simpl. apply mean_by_index. exact same_length. }
  rewrite Ema, Emb.
  destruct (corr_sums_step_fields (A := arith) a b ma mb (seq 0 (length a))
              {| above := f0; below_a := f0; below_b := f0 |}) as (E1 & E2 & E3).
  rewrite E1, E2, E3. simpl.
  rewrite (fold_Rplus_sum (fun i => (@elem arith a i - ma) * (@elem arith b i - mb))).
  rewrite (fold_Rplus_sum (fun i => (@elem arith a i - ma) * (@elem arith a i - ma))).
  rewrite (fold_Rplus_sum (fun i => (@elem arith b i - mb) * (@elem arith b i - mb))).
  rewrite co_moment_ab, co_moment_aa, co_moment_bb.
  unfold f0, elem, ua, ub, n. simpl.
  rewrite !Rplus_0_l. reflexivity.
Qed.

Lemma deviations_positive :
  ~ @constant arith a -> 0 < co_moment a a.
Proof.
  intros Ha. rewrite co_moment_aa.
  assert (Hnn : 0 <= Rsum (map (fun i => ua i * ua i) (seq 0 n)))
    by (apply Rsum_nonneg; intros; nra).
  destruct (Req_dec_T (Rsum (map (fun i => ua i * ua i) (seq 0 n))) 0) as [E | Hne];
    [| lra].
  exfalso. apply Ha. intros i Hi. apply Reqb_true.
  assert (Z : forall k, (k < n)%nat -> nth k a 0 = ma).
  { intros k Hk.
    pose proof (Rsum_zero_all (fun i => ua i * ua i) (seq 0 n)
                  (fun j _ => Rle_0_sqr (ua j)) E k) as H.
    assert (Hin : In k (seq 0 n)) by (apply in_seq; lia).
    specialize (H Hin). unfold ua in H. nra. }
  transitivity ma; [apply (Z (S i)) | symmetry; apply (Z i)]; unfold n; lia.
Qed.

End Correlation.

Lemma correlation_exact (a b : list R) :
  length a = length b -> ~ @constant arith a -> ~ @constant arith b ->
  @CorrelationDivergencePolicy arith a b = 1 / 2 - 1 / 2 * pearson a b /\
  0 <= @CorrelationDivergencePolicy arith a b <= 1.
Proof.
  intros Hlen Ha Hb.
  rewrite policy_value by assumption.
  pose proof (deviations_positive a b Hlen Ha) as HP.
  pose proof (deviations_positive b a (eq_sym Hlen) Hb) as HQ.
  set (P := co_moment a a) in *. set (Q := co_moment b b) in *.
  set (S := co_moment a b).
  assert (HsP : 0 < sqrt P) by (apply sqrt_lt_R0; assumption).
  assert (HsQ : 0 < sqrt Q) by (apply sqrt_lt_R0; assumption).
  assert (HD : 0 < sqrt P * sqrt Q) by (apply Rmult_lt_0_compat; assumption).
  assert (HCS : S * S <= (sqrt P * sqrt Q) * (sqrt P * sqrt Q)).
  { replace ((sqrt P * sqrt Q) * (sqrt P * sqrt Q))
      with ((sqrt P * sqrt P) * (sqrt Q * sqrt Q)) by ring.
    rewrite !sqrt_sqrt by lra.
    subst S P Q.
    rewrite (co_moment_ab a b Hlen), (co_moment_aa a), (co_moment_bb a b Hlen).
    apply cauchy_schwarz. }
  pose proof (ratio_bounds S (sqrt P * sqrt Q) HD HCS) as Hr.
  unfold pearson. fold P Q S.
  assert (E : 1 / 2 + - (1 / 2) * S / (sqrt P * sqrt Q) =
              1 / 2 - 1 / 2 * (S / (sqrt P * sqrt Q))).
  { field. split; lra. }
  rewrite E. split; [reflexivity | lra].
Qed.

End ExactFacts.

(** ** Jensen-Shannon policy: the validity scan *)

Section JensenShannonScan.

Context {A : Arith}.

Variables a b : vec.

Lemma js_scan_spec (n : nat) :
  if any_negative a b n
  then js_break (js_scan_upto a b n) = true /\
       js_a_valid (js_scan_upto a b n) && js_b_valid (js_scan_upto a b n) = false
  else js_break (js_scan_upto a b n) = false /\
       js_a_sum (js_scan_upto a b n) = fold_left (fun s i => fadd s (elem a i)) (seq 0 n) f0 /\
       js_b_sum (js_scan_upto a b n) = fold_left (fun s i => fadd s (elem b i)) (seq 0 n) f0 /\
       js_a_valid (js_scan_upto a b n) = existsb (fun i => is_positive (elem a i)) (seq 0 n) /\
       js_b_valid (js_scan_upto a b n) = existsb (fun i => is_positive (elem b i)) (seq 0 n).
Proof.
  induction n as [| n IH].
  - simpl. repeat split.
  - unfold any_negative, js_scan_upto in *.
    rewrite !seq_S, !existsb_app, !fold_left_app. cbn [fold_left Nat.add existsb].
    rewrite !orb_false_r.
    set (st := fold_left _ (seq 0 n) _) in *.
    destruct (existsb _ (seq 0 n)) eqn:Eprev.
    + destruct IH as [Hb Hv]. cbn [orb].
      unfold js_scan_step. rewrite Hb. split; assumption.
    + destruct IH as (Hb & Hsa & Hsb & Hva & Hvb). cbn [orb].
      unfold js_scan_step. rewrite Hb.
      fold (is_negative (elem a n)). fold (is_negative (elem b n)).
      fold (is_positive (elem a n)). fold (is_positive (elem b n)).
      destruct (is_negative (elem a n)) eqn:Ena; cbn [orb].
      * cbn [js_break js_a_valid js_b_valid andb]. split; reflexivity.
      * destruct (is_negative (elem b n)) eqn:Enb.
        -- cbn [js_break js_a_valid js_b_valid]. split; [reflexivity |].
           apply andb_false_r.
        -- cbn [js_break js_a_valid js_b_valid js_a_sum js_b_sum].
           rewrite Hsa, Hsb, Hva, Hvb.
           repeat split.
           ++ now destruct (is_positive (elem a n)); rewrite ?orb_true_r, ?orb_false_r.
           ++ now destruct (is_positive (elem b n)); rewrite ?orb_true_r, ?orb_false_r.
Qed.

Variable dlog : dbl -> dbl.

(** A negative element on either side gives the fallback value. *)
Lemma jensen_shannon_negative :
  (exists i, (i < length a)%nat /\
             (is_negative (elem a i) = true \/ is_negative (elem b i) = true)) ->
  JensonShannonDivergencePolicy dlog a b = of_dbl d_zero.
Proof.
  intros (i & Hi & Hneg). unfold JensonShannonDivergencePolicy.
  pose proof (js_scan_spec (length a)) as H.
  assert (E : any_negative a b (length a) = true).
  { unfold any_negative. apply existsb_exists. exists i. split.
    - apply in_seq. lia.
    - destruct Hneg as [-> | ->]; [reflexivity | apply orb_true_r]. }
  rewrite E in H. destruct H as [_ H].
  unfold js_scan_upto in H. now rewrite H.
Qed.

(** Without a negative element the result is decided by the presence of
    a positive element on each side. *)
Lemma jensen_shannon_no_negative :
  any_negative a b (length a) = false ->
  JensonShannonDivergencePolicy dlog a b =
  if existsb (fun i => is_positive (elem a i)) (seq 0 (length a)) &&
     existsb (fun i => is_positive (elem b i)) (seq 0 (length a))
  then of_dbl (dmul (to_dbl
         (fold_left (js_sum_step dlog a b
                       (fold_left (fun s i => fadd s (elem a i)) (seq 0 (length a)) f0)
                       (fold_left (fun s i => fadd s (elem b i)) (seq 0 (length a)) f0))
                    (seq 0 (length a)) f0)) d_half)
  else of_dbl d_zero.
Proof.
  intros E. unfold JensonShannonDivergencePolicy.
  pose proof (js_scan_spec (length a)) as H.
  rewrite E in H. destruct H as (_ & Hsa & Hsb & Hva & Hvb).
  unfold js_scan_upto in *. now rewrite Hsa, Hsb, Hva, Hvb.
Qed.

End JensenShannonScan.

(** ** Jensen-Shannon policy in binary32: vectors that sum to zero *)

Module IEEEJS.

Import IEEE IEEEFacts.

Lemma no_positive_index (v : @vec arith) (n : nat) :
  Forall (fun x => @is_positive arith x = false) v -> (n <= length v)%nat ->
  existsb (fun i => @is_positive arith (@elem arith v i)) (seq 0 n) = false.
Proof.
  intros Hv Hn.
  destruct (existsb _ (seq 0 n)) eqn:E; [exfalso | reflexivity].
  apply existsb_exists in E. destruct E as (i & Hi & E).
  apply in_seq in Hi. rewrite Forall_forall in Hv.
  assert (Hin : In (@elem arith v i) v) by (apply nth_In; lia).
  rewrite (Hv _ Hin) in E. discriminate E.
Qed.

Lemma no_negative_element (a b : @vec arith) :
  length a = length b ->
  @any_negative arith a b (length a) = false ->
  Forall (fun x => @is_negative arith x = false) a /\
  Forall (fun x => @is_negative arith x = false) b.
Proof.
  intros Hlen E. unfold any_negative in E.
  assert (H : forall i, (i < length a)%nat ->
            @is_negative arith (@elem arith a i) = false /\
            @is_negative arith (@elem arith b i) = false).
  { intros i Hi.
    destruct (@is_negative arith (@elem arith a i) ||
              @is_negative arith (@elem arith b i)) eqn:Ei.
    - assert (existsb (fun i => @is_negative arith (@elem arith a i) ||
                                @is_negative arith (@elem arith b i))
                (seq 0 (length a)) = true).
      { apply existsb_exists. exists i. split; [apply in_seq; lia | exact Ei]. }
      congruence.
    - now apply orb_false_elim in Ei. }
  split; apply Forall_forall; intros x Hx;
    destruct (In_nth _ x (@f0 arith) Hx) as (i & Hi & <-).
  - apply (H i Hi).
  - apply (H i). lia.
Qed.

(** Valid vectors one of which sums to zero give the fallback value. *)
Lemma js_zero_sum32 (dlog : spec_float -> spec_float) (a b : @vec arith) :
  length a = length b ->
  Forall (fun x => valid32 x = true) a -> Forall (fun x => valid32 x = true) b ->
  SFeqb (sum32 a) (S754_zero false) = true \/
  SFeqb (sum32 b) (S754_zero false) = true ->
  @JensonShannonDivergencePolicy arith dlog a b = S754_zero false.
Proof.
  intros Hlen Hva Hvb Hz.
  destruct (@any_negative arith a b (length a)) eqn:E.
  - unfold any_negative in E. apply existsb_exists in E.
    destruct E as (i & Hi & E). apply in_seq in Hi. apply orb_true_iff in E.
    apply (jensen_shannon_negative (A := arith) a b dlog).
    exists i. split; [lia | exact E].
  - rewrite (jensen_shannon_no_negative (A := arith) a b dlog E).
    destruct (no_negative_element a b Hlen E) as [Hna Hnb].
    destruct Hz as [Hz | Hz].
    + rewrite (no_positive_index a (length a)
                 (zero_sum_no_positive a Hva Hna Hz) (Nat.le_refl _)).
      reflexivity.
    + rewrite (no_positive_index b (length a)
                 (zero_sum_no_positive b Hvb Hnb Hz) ltac:(lia)).
      now rewrite andb_false_r.
Qed.

End IEEEJS.

(** ** Jensen-Shannon policy in exact arithmetic *)

Module ExactJS.

Import Exact ExactSpec ExactFacts.

Local Open Scope R_scope.

Lemma ln_lower (z : R) : 0 < z -> 1 - / z <= ln z.
Proof.
  intros Hz. pose proof (exp_ineq1_le (- ln z)) as H.
  rewrite exp_Ropp, exp_ln in H by exact Hz. lra.
Qed.

Lemma kl_term_lower (x m : R) :
  0 <= x -> 0 <= m -> (0 < x -> 0 < m) -> x - m <= kl_term (x, m).
Proof.
  intros Hx Hm Hpos. unfold kl_term. cbn [fst snd].
  destruct (Rltb 0 x) eqn:E.
  - apply Rltb_true in E. specialize (Hpos E).
    assert (Hz : 0 < x / m) by (apply Rdiv_lt_0_compat; assumption).
    pose proof (ln_lower (x / m) Hz) as Hl.
    replace (/ (x / m)) with (m / x) in Hl by (field; split; lra).
    assert (x * (1 - m / x) <= x * ln (x / m))
      by (apply Rmult_le_compat_l; lra).
    replace (x * (1 - m / x)) with (x - m) in H by (field; lra).
    exact H.
  - apply Rltb_false in E. lra.
Qed.

Lemma pair_terms_nonneg (p q : R) :
  0 <= p -> 0 <= q ->
  0 <= kl_term (p, 1 / 2 * (p + q)) + kl_term (q, 1 / 2 * (p + q)).
Proof.
  intros Hp Hq.
  pose proof (kl_term_lower p (1 / 2 * (p + q)) Hp ltac:(lra) ltac:(lra)).
  pose proof (kl_term_lower q (1 / 2 * (p + q)) Hq ltac:(lra) ltac:(lra)).
  lra.
Qed.

Lemma fold_step_sum {X : Type} (f : R -> X -> R) (g : X -> R) (l : list X) (s0 : R) :
  (forall s i, f s i = s + g i) -> fold_left f l s0 = s0 + Rsum (map g l).
Proof.
  intros H. revert s0. induction l as [| i l IH]; intros s0; simpl; [lra |].
  rewrite IH, H. lra.
Qed.

Lemma Rsum_plus {X : Type} (f g : X -> R) (l : list X) :
  Rsum (map f l) + Rsum (map g l) = Rsum (map (fun i => f i + g i) l).
Proof.
  induction l as [| i l IH]; simpl; [lra | rewrite <- IH; lra].
Qed.

Lemma combine_map {X Y Z : Type} (f : X -> Y) (g : X -> Z) (l : list X) :
  combine (map f l) (map g l) = map (fun i => (f i, g i)) l.
Proof. induction l as [| i l IH]; simpl; [reflexivity | now rewrite IH]. Qed.

Lemma normalize_by_index (v : list R) :
  normalize v = map (fun i => nth i v 0 / Rsum v) (seq 0 (length v)).
Proof.
  unfold normalize. symmetry.
  rewrite <- (map_map (fun i => nth i v 0) (fun x => x / Rsum v)).
  now rewrite map_nth_seq.
Qed.

Lemma Rsum_normalize (v : list R) : Rsum v <> 0 -> Rsum (normalize v) = 1.
Proof.
  intros H. unfold normalize.
  assert (E : forall l s, Rsum (map (fun x => x / s) l) = Rsum l / s).
  { intros l s. induction l as [| x l IH]; simpl; [lra | rewrite IH; lra]. }
  rewrite E. now field.
Qed.

Lemma js_formula_by_index (a b : list R) :
  length a = length b ->
  js_formula a b = 1 / 2 * Rsum (map (index_term a b) (seq 0 (length a))).
Proof.
  intros Hlen. unfold js_formula. cbv zeta.
  rewrite (normalize_by_index a), (normalize_by_index b), <- Hlen.
  fold (scaled a) (scaled b).
  change (fun i => nth i a 0 / Rsum a) with (scaled a).
  change (fun i => nth i b 0 / Rsum b) with (scaled b).
  rewrite combine_map, map_map. cbn [fst snd].
  rewrite !combine_map, !map_map.
  rewrite Rsum_plus. reflexivity.
Qed.

Lemma index_term_sym (a b : list R) (i : nat) : index_term a b i = index_term b a i.
Proof.
  unfold index_term.
  replace (scaled b i + scaled a i) with (scaled a i + scaled b i) by lra.
  lra.
Qed.

Lemma Rsum_ge_member {X : Type} (g : X -> R) (l : list X) (i : X) :
  (forall j, In j l -> 0 <= g j) -> In i l -> g i <= Rsum (map g l).
Proof.
  induction l as [| j l IH]; intros H Hi; simpl in *; [contradiction |].
  pose proof (H j (or_introl eq_refl)).
  assert (0 <= Rsum (map g l)) by (apply Rsum_nonneg; intros; apply H; now right).
  destruct Hi as [<- | Hi]; [lra |].
  assert (g i <= Rsum (map g l)) by (apply IH; auto). lra.
Qed.

End ExactJS.

Module ExactJSPolicy.

Import Exact ExactSpec ExactFacts ExactJS.

Local Open Scope R_scope.

(** Rewrites the operations of the exact instance as operations on [R]. *)
Ltac to_reals :=
  change (@flt arith) with R in *;
  change (@dbl arith) with R in *;
  change (@vec arith) with (list R) in *;
  change (@f0 arith) with 0 in *;
  change (@elem arith) with (fun (v : list R) (i : nat) => nth i v 0) in *;
  change (@fadd arith) with Rplus in *;
  change (@fsub arith) with Rminus in *;
  change (@fmul arith) with Rmult in *;
  change (@fdiv arith) with Rdiv in *;
  change (@fltb arith) with Rltb in *;
  change (@dltb arith) with Rltb in *;
  change (@dadd arith) with Rplus in *;
  change (@dmul arith) with Rmult in *;
  change (@to_dbl arith) with (fun x : R => x) in *;
  change (@of_dbl arith) with (fun x : R => x) in *;
  change (@d_zero arith) with 0 in *;
  change (@d_half arith) with (1 / 2) in *;
  cbv beta in *.

Lemma exact_sum (v : list R) (k : nat) :
  k = length v -> fold_left (fun s i => s + nth i v 0) (seq 0 k) 0 = Rsum v.
Proof.
  intros ->. rewrite (fold_Rplus_sum (fun i => nth i v 0)).
  rewrite map_nth_seq. lra.
Qed.

Lemma js_sum_step_exact (a b : list R) (js : R) (i : nat) :
  @js_sum_step arith ln a b (Rsum a) (Rsum b) js i = js + index_term a b i.
Proof.
  unfold js_sum_step, js_normalized, js_term, index_term, kl_term, scaled.
  to_reals. cbn [fst snd].
  destruct (Rltb 0 (nth i a 0 / Rsum a));
    destruct (Rltb 0 (nth i b 0 / Rsum b)); ring.
Qed.

Lemma no_negative_elements (a b : list R) :
  length a = length b ->
  @any_negative arith a b (length a) = false <->
  (forall x, In x a -> 0 <= x) /\ (forall x, In x b -> 0 <= x).
Proof.
  intros same_length. unfold any_negative, is_negative. to_reals. split.
  - intros H. split; intros x Hx;
      destruct (In_nth _ x 0 Hx) as (i & Hi & <-).
    + destruct (Rle_dec 0 (nth i a 0)) as [| Hn]; [assumption | exfalso].
      assert (E : existsb (fun i => Rltb (nth i a 0) 0 || Rltb (nth i b 0) 0)
                    (seq 0 (length a)) = true).
      { apply existsb_exists. exists i. split; [apply in_seq; lia |].
        apply orb_true_iff. left. apply Rltb_true. lra. }
      congruence.
    + destruct (Rle_dec 0 (nth i b 0)) as [| Hn]; [assumption | exfalso].
      assert (E : existsb (fun i => Rltb (nth i a 0) 0 || Rltb (nth i b 0) 0)
                    (seq 0 (length a)) = true).
      { apply existsb_exists. exists i. split; [apply in_seq; lia |].
        apply orb_true_iff. right. apply Rltb_true. lra. }
      congruence.
  - intros [Ha Hb].
    destruct (existsb _ (seq 0 (length a))) eqn:E; [exfalso | reflexivity].
    apply existsb_exists in E. destruct E as (i & Hi & E).
    apply in_seq in Hi. apply orb_true_iff in E.
    destruct E as [E | E]; apply Rltb_true in E.
    + assert (Hin : In (nth i a 0) a) by (apply nth_In; lia).
      apply Ha in Hin. lra.
    + assert (Hin : In (nth i b 0) b) by (apply nth_In; lia).
      apply Hb in Hin. lra.
Qed.

Lemma positive_element (v : list R) (k : nat) :
  k = length v -> (forall x, In x v -> 0 <= x) ->
  existsb (fun i => @is_positive arith (nth i v 0)) (seq 0 k) = true <-> Rsum v <> 0.
Proof.
  intros -> Hnn. unfold is_positive. to_reals.
  assert (Hidx : forall i, In i (seq 0 (length v)) -> 0 <= nth i v 0).
  { intros i Hi. apply in_seq in Hi. apply Hnn, nth_In. lia. }
  rewrite <- (map_nth_seq v 0) at 2. split.
  - intros E Hz. apply existsb_exists in E. destruct E as (i & Hi & E).
    apply Rltb_true in E.
    pose proof (Rsum_zero_all (fun i => nth i v 0) _ Hidx Hz i Hi). lra.
  - intros Hne.
    destruct (existsb _ (seq 0 (length v))) eqn:E; [reflexivity | exfalso].
    apply Hne.
    rewrite (Rsum_ext (fun i => nth i v 0) (fun _ => 0)).
    + clear. induction (seq 0 (length v)) as [| i l IH]; simpl; [reflexivity | lra].
    + intros i Hi.
      assert (Hf : Rltb 0 (nth i v 0) = false).
      { destruct (Rltb 0 (nth i v 0)) eqn:Ei; [| reflexivity].
        assert (existsb (fun i => Rltb 0 (nth i v 0)) (seq 0 (length v)) = true)
          by (apply existsb_exists; eauto).
        congruence. }
      apply Rltb_false in Hf. specialize (Hidx i Hi). lra.
Qed.

End ExactJSPolicy.

Module ExactJSResults.

Import Exact ExactSpec ExactFacts ExactJS ExactJSPolicy.

Local Open Scope R_scope.

Abbreviation JS := (@JensonShannonDivergencePolicy arith ln).

Lemma js_any_negative (a b : list R) :
  @any_negative arith a b (length a) = true -> JS a b = 0.
Proof.
  intros E. unfold any_negative in E. apply existsb_exists in E.
  destruct E as (i & Hi & E). apply in_seq in Hi. apply orb_true_iff in E.
  apply (jensen_shannon_negative (A := arith) a b ln).
  exists i. split; [exact (proj2 Hi) | exact E].
Qed.

Lemma any_negative_sym (a b : list R) :
  length a = length b ->
  @any_negative arith b a (length b) = @any_negative arith a b (length a).
Proof.
  intros Hlen. unfold any_negative. rewrite <- Hlen.
  generalize (seq 0 (length a)). intros l.
  induction l as [| i l IH]; cbn [existsb]; [reflexivity |].
  rewrite IH. f_equal. apply orb_comm.
Qed.

Lemma js_no_negative (a b : list R) :
  length a = length b ->
  (forall x, In x a -> 0 <= x) -> (forall x, In x b -> 0 <= x) ->
  (Rsum a = 0 \/ Rsum b = 0 -> JS a b = 0) /\
  (Rsum a <> 0 -> Rsum b <> 0 -> JS a b = js_formula a b).
Proof.
  intros Hlen Ha Hb.
  assert (E : @any_negative arith a b (length a) = false)
    by (apply (no_negative_elements a b Hlen); auto).
  rewrite (jensen_shannon_no_negative (A := arith) a b ln E).
  to_reals.
  pose proof (positive_element a (length a) eq_refl Ha) as Pa.
  pose proof (positive_element b (length a) Hlen Hb) as Pb.
  split.
  - intros Hz.
    destruct (existsb _ (seq 0 (length a))) eqn:Ea at 1; [| reflexivity].
    destruct (existsb (fun i => @is_positive arith (nth i b 0)) (seq 0 (length a))) eqn:Eb;
      [| reflexivity].
    exfalso. destruct Hz as [Hz | Hz].
    + now apply (proj1 Pa).
    + now apply (proj1 Pb).
  - intros Hna Hnb.
    rewrite (proj2 Pa Hna), (proj2 Pb Hnb). cbn [andb].
    rewrite (exact_sum a (length a) eq_refl), (exact_sum b (length a) Hlen).
    rewrite (fold_step_sum _ (index_term a b) _ _ (js_sum_step_exact a b)).
    rewrite js_formula_by_index by exact Hlen. lra.
Qed.

Lemma js_zero_sum (a b : list R) :
  length a = length b -> Rsum a = 0 \/ Rsum b = 0 -> JS a b = 0.
Proof.
  intros Hlen Hz.
  destruct (@any_negative arith a b (length a)) eqn:E.
  - now apply js_any_negative.
  - apply (no_negative_elements a b Hlen) in E. destruct E as [Ha Hb].
    now apply (proj1 (js_no_negative a b Hlen Ha Hb)).
Qed.

Lemma js_formula_sym (a b : list R) :
  length a = length b -> js_formula a b = js_formula b a.
Proof.
  intros Hlen.
  rewrite (js_formula_by_index a b Hlen), (js_formula_by_index b a (eq_sym Hlen)).
  rewrite <- Hlen. f_equal. apply Rsum_ext. intros i _. apply index_term_sym.
Qed.

Lemma js_symmetric (a b : list R) :
  length a = length b -> JS a b = JS b a.
Proof.
  intros Hlen.
  destruct (@any_negative arith a b (length a)) eqn:E.
  - rewrite (js_any_negative a b E).
    rewrite <- (any_negative_sym a b Hlen) in E.
    now rewrite (js_any_negative b a E).
  - apply (no_negative_elements a b Hlen) in E. destruct E as [Ha Hb].
    destruct (js_no_negative a b Hlen Ha Hb) as [Z1 F1].
    destruct (js_no_negative b a (eq_sym Hlen) Hb Ha) as [Z2 F2].
    destruct (Req_dec_T (Rsum a) 0) as [Ea | Ea];
      [rewrite Z1, Z2; auto |].
    destruct (Req_dec_T (Rsum b) 0) as [Eb | Eb];
      [rewrite Z1, Z2; auto |].
    rewrite F1, F2 by assumption. now apply js_formula_sym.
Qed.

Lemma js_formula_nonneg (a b : list R) :
  length a = length b ->
  (forall x, In x a -> 0 <= x) -> (forall x, In x b -> 0 <= x) ->
  Rsum a <> 0 -> Rsum b <> 0 -> 0 <= js_formula a b.
Proof.
  intros Hlen Ha Hb Hna Hnb.
  rewrite js_formula_by_index by exact Hlen.
  assert (Hsa : 0 <= Rsum a).
  { rewrite <- (map_id a). apply Rsum_nonneg. exact Ha. }
  assert (Hsb : 0 <= Rsum b).
  { rewrite <- (map_id b). apply Rsum_nonneg. exact Hb. }
  assert (0 <= Rsum (map (index_term a b) (seq 0 (length a)))); [| lra].
  apply Rsum_nonneg. intros i Hi. apply in_seq in Hi.
  unfold index_term. apply pair_terms_nonneg; unfold scaled.
  - apply Rmult_le_pos; [apply Ha, nth_In; lia |].
    apply Rlt_le, Rinv_0_lt_compat. lra.
  - apply Rmult_le_pos; [apply Hb, nth_In; lia |].
    apply Rlt_le, Rinv_0_lt_compat. lra.
Qed.

Lemma js_nonneg (a b : list R) : length a = length b -> 0 <= JS a b.
Proof.
  intros Hlen.
  destruct (@any_negative arith a b (length a)) eqn:E.
  - rewrite (js_any_negative a b E). lra.
  - apply (no_negative_elements a b Hlen) in E. destruct E as [Ha Hb].
    destruct (js_no_negative a b Hlen Ha Hb) as [Z1 F1].
    destruct (Req_dec_T (Rsum a) 0) as [Ea | Ea]; [rewrite Z1; auto; lra |].
    destruct (Req_dec_T (Rsum b) 0) as [Eb | Eb]; [rewrite Z1; auto; lra |].
    rewrite F1 by assumption. now apply js_formula_nonneg.
Qed.

End ExactJSResults.

(** ** The claims *)

(** C1 (as amended): on the four one-dimensional frames [1, 1, 5, 5]
    with one time scale and the Euclidean policy, frame 0 is
    left-truncated (its left window is empty, its right window is
    frame 0 itself) and frames 1, 2 and 3 are normal with divergences
    0, 4 and 0; [meanDiv] is 4/3 and the output is
    [-(4/3), 0, 4, 0]. *)
Theorem scenario_run :
  let sc := {| m_num_dim := 1 |} in
  let euclid := @EuclideanDivergencePolicy IEEE.arith in
  let four_thirds := @fdiv IEEE.arith (IEEE.b32_of_Z 4) (IEEE.b32_of_Z 3) in
  map (status sc scenario_input 0) [0; 1; 2; 3]%nat = [LEFT_SHORT; NORMAL; NORMAL; NORMAL] /\
  map (divergence_at sc euclid scenario_input 0) [1; 2; 3]%nat =
    [IEEE.b32_of_Z 0; IEEE.b32_of_Z 4; IEEE.b32_of_Z 0] /\
  meanDiv sc euclid scenario_input 0 = four_thirds /\
  calculate sc euclid scenario_input =
    [[@fmul IEEE.arith (IEEE.b32_of_Z (-1)) four_thirds];
     [IEEE.b32_of_Z 0]; [IEEE.b32_of_Z 4]; [IEEE.b32_of_Z 0]].
Proof. vm_compute. repeat split. Qed.

(** C1, the scenario as the specification traces it, is not what the
    program returns. *)
Lemma scenario_counterexample :
  calculate (A := IEEE.arith) {| m_num_dim := 1 |}
            (@EuclideanDivergencePolicy IEEE.arith) scenario_input <>
  [[IEEE.b32_of_Z 12]; [IEEE.b32_of_Z 4]; [IEEE.b32_of_Z 4]; [IEEE.b32_of_Z (-4)]].
Proof. vm_compute. discriminate. Qed.

(** C2 (as amended): for a time scale [t < 32], whose half-width is
    [w = 2^t], fewer than [2^31] frames and a frame [i < N], the table
    holds [leftStart = max 0 (i - w)], [leftEnd = i = rightStart] and
    [rightEnd = min N (i + w)], with
    [0 <= leftStart <= i <= rightEnd <= N]; the status is normal exactly
    when both windows have size [w], left-truncated exactly when only
    the right one has, right-truncated exactly when only the left one
    has, and both-truncated otherwise. *)
Theorem window_boundaries_in_range :
  forall (T N t i : nat),
    (t < T)%nat -> (t < 32)%nat -> Z.of_nat N < 2 ^ 31 -> (i < N)%nat ->
    let w := 2 ^ Z.of_nat t in
    let wb := boundary_at (init_window_boundaries T N) t i in
    let leftStart := entry wb 0 in
    let leftEnd := entry wb 1 in
    let rightStart := entry wb 2 in
    let rightEnd := entry wb 3 in
    let st := entry wb 4 in
    length wb = 5%nat /\
    leftStart = Z.max 0 (Z.of_nat i - w) /\
    leftEnd = Z.of_nat i /\ rightStart = Z.of_nat i /\
    rightEnd = Z.min (Z.of_nat N) (Z.of_nat i + w) /\
    0 <= leftStart <= leftEnd /\ rightStart <= rightEnd <= Z.of_nat N /\
    (st = NORMAL <-> leftEnd - leftStart = w /\ rightEnd - rightStart = w) /\
    (st = LEFT_SHORT <-> leftEnd - leftStart <> w /\ rightEnd - rightStart = w) /\
    (st = RIGHT_SHORT <-> leftEnd - leftStart = w /\ rightEnd - rightStart <> w) /\
    (st = BOTH_SHORT <-> leftEnd - leftStart <> w /\ rightEnd - rightStart <> w).
Proof.
  intros T N t i HtT Ht HN Hi w wb leftStart leftEnd rightStart rightEnd st.
  subst leftStart leftEnd rightStart rightEnd st wb.
  rewrite boundary_at_init by assumption.
  rewrite window_width_pow2 by lia. fold w.
  assert (Hw : 0 < w <= 2 ^ 31).
  { subst w. split; [apply Z.pow_pos_nonneg; lia |].
    apply Z.pow_le_mono_r; lia. }
  rewrite window_boundary_in_range by lia.
  unfold entry. cbn [nth length].
  unfold status_of_sizes, NORMAL, LEFT_SHORT, RIGHT_SHORT, BOTH_SHORT.
  destruct (Z.eqb_spec (Z.of_nat i - Z.max 0 (Z.of_nat i - w)) w);
    destruct (Z.eqb_spec (Z.min (Z.of_nat N) (Z.of_nat i + w) - Z.of_nat i) w);
    cbn [andb]; repeat split; intros; try lia; try tauto.
Qed.

Lemma window_boundaries_in_range_witness :
  boundary_at (init_window_boundaries 2 8) 1 3 = [1; 3; 3; 5; NORMAL] /\
  entry (boundary_at (init_window_boundaries 2 8) 1 3) 3 = Z.min (Z.of_nat 8) (Z.of_nat 3 + 2 ^ Z.of_nat 1).
Proof.
  split; [reflexivity |].
  refine (proj1 (proj2 (proj2 (proj2 (proj2
    (window_boundaries_in_range 2 8 1 3 _ _ _ _)))))); [lia | lia | reflexivity | lia].
Defined.

(** C2, as stated for every time scale and every frame count, fails:
    at time scale 32 the 32-bit shift does not produce [2^32], and a
    frame count of [2^31] does not fit the [int] entries of the table. *)
Lemma window_boundaries_counterexample :
  entry (boundary_at (init_window_boundaries 33 2) 32 0) 3 <>
    Z.min (Z.of_nat 2) (Z.of_nat 0 + 2 ^ Z.of_nat 32) /\
  entry (window_boundary (window_width 0) (2 ^ 31) (2 ^ 31 - 1)) 3 <>
    Z.min (2 ^ 31) (2 ^ 31 - 1 + 2 ^ 0).
Proof. split; vm_compute; discriminate. Qed.

(** C3: in IEEE arithmetic, for every input of fewer than [2^31] frames
    and every time scale [t], the output at dimension [t] of a
    left-truncated frame is [-1 * meanDiv] and that of a right-truncated
    frame is [3 * meanDiv], where [meanDiv] is the mean of the
    divergences computed at the normal frames of that time scale, and is
    [0] when there is no normal frame. *)
Theorem edge_substitution :
  forall (sc : StructuralChange) (divergence : @vec IEEE.arith -> @vec IEEE.arith -> @flt IEEE.arith)
         (input_vector : list (@vec IEEE.arith)) (t i : nat),
    Z.of_nat (length input_vector) < 2 ^ 31 ->
    (i < length input_vector)%nat -> (t < num_dim_of sc)%nat ->
    (status sc input_vector t i = LEFT_SHORT ->
       get_out (output sc divergence input_vector) i t =
       @fmul IEEE.arith (IEEE.b32_of_Z (-1)) (meanDiv sc divergence input_vector t)) /\
    (status sc input_vector t i = RIGHT_SHORT ->
       get_out (output sc divergence input_vector) i t =
       @fmul IEEE.arith (IEEE.b32_of_Z 3) (meanDiv sc divergence input_vector t)) /\
    (normal_frames sc input_vector t = [] ->
       meanDiv sc divergence input_vector t = IEEE.b32_of_Z 0).
Proof.
  intros sc divergence input_vector t i HN Hi Ht.
  split; [| split].
  - intros Hs. rewrite output_slot by assumption. rewrite Hs.
    unfold LEFT_SHORT. simpl Z.eqb. cbv iota.
    unfold substituted. now rewrite ieee_LEFT_not_RIGHT, ieee_LEFT_is_LEFT.
  - intros Hs. rewrite output_slot by assumption. rewrite Hs.
    unfold RIGHT_SHORT. simpl Z.eqb. cbv iota.
    unfold substituted. now rewrite ieee_RIGHT_is_RIGHT.
  - intros Hnone. unfold meanDiv. rewrite Hnone. reflexivity.
Qed.

Lemma edge_substitution_witness :
  Z.of_nat (length scenario_input) < 2 ^ 31 /\
  (0 < length scenario_input)%nat /\ (0 < num_dim_of {| m_num_dim := 1 |})%nat /\
  status {| m_num_dim := 1 |} scenario_input 0 0 = LEFT_SHORT /\
  get_out (output {| m_num_dim := 1 |} (@EuclideanDivergencePolicy IEEE.arith)
             scenario_input) 0 0 =
  @fmul IEEE.arith (IEEE.b32_of_Z (-1))
    (meanDiv {| m_num_dim := 1 |} (@EuclideanDivergencePolicy IEEE.arith) scenario_input 0).
Proof.
  assert (H1 : Z.of_nat (length scenario_input) < 2 ^ 31) by (vm_compute; reflexivity).
  assert (H2 : (0 < length scenario_input)%nat) by (vm_compute; lia).
  assert (H3 : (0 < num_dim_of {| m_num_dim := 1 |})%nat) by (vm_compute; lia).
  assert (H4 : status {| m_num_dim := 1 |} scenario_input 0 0 = LEFT_SHORT)
    by (vm_compute; reflexivity).
  repeat (split; [assumption |]).
  exact (proj1 (edge_substitution {| m_num_dim := 1 |}
                 (@EuclideanDivergencePolicy IEEE.arith) scenario_input 0 0 H1 H2 H3) H4).
Defined.

(** C4: for every input of [N] frames and every number of time scales
    [T], [calculate] returns [N] frames of [T] values each; for the
    empty input the result is empty, whatever [T] is. *)
Theorem calculate_output_shape :
  forall (A : Arith) (sc : StructuralChange) (divergence : vec -> vec -> flt)
         (input_vector : list vec),
    length (calculate sc divergence input_vector) = length input_vector /\
    Forall (fun frame => length frame = Z.to_nat (m_num_dim sc))
           (calculate sc divergence input_vector) /\
    calculate sc divergence [] = [].
Proof.
  intros A sc divergence input_vector.
  pose proof (rect_calculate sc divergence input_vector) as H.
  split; [apply H |]. split; [| reflexivity].
  exact (rect_Forall _ _ _ H).
Qed.

(** C5 (as amended): in every arithmetic the cumulative matrix has
    [N+1] rows, row 0 is all zeros and row [k] is the elementwise sum,
    taken from left to right, of the frames [[0, k)]; where addition is
    exact (associative, with unit 0, undone by subtraction), row [k]
    minus row [j] is the elementwise sum of the frames [[j, k)]. *)
Theorem cumulative_matrix_rows :
  forall (A : Arith) (input_vector : list vec),
    let num_element := length (nth 0 input_vector []) in
    let cm := cumulative_matrix input_vector in
    length cm = S (length input_vector) /\
    nth 0 cm [] = repeat f0 num_element /\
    (forall k, (k <= length input_vector)%nat ->
               nth k cm [] = frames_sum num_element (firstn k input_vector)) /\
    ((forall x y z : flt, fadd (fadd x y) z = fadd x (fadd y z)) ->
     (forall x : flt, fadd f0 x = x) ->
     (forall x : flt, fadd x f0 = x) ->
     (forall x y : flt, fsub (fadd x y) x = y) ->
     forall j k, (j <= k <= length input_vector)%nat ->
       vsub num_element (nth k cm []) (nth j cm []) =
       frames_sum num_element (frames_between input_vector j k)).
Proof.
  intros A input_vector num_element cm. subst num_element cm.
  split; [| split; [| split]].
  - unfold cumulative_matrix. simpl. now rewrite length_cumulative_rows.
  - reflexivity.
  - intros k Hk. now apply cumulative_matrix_row.
  - intros Hassoc H0l H0r Hsub j k Hjk.
    rewrite !cumulative_matrix_row by lia.
    rewrite (firstn_split_between input_vector j k) by lia.
    unfold frames_between.
    now apply frames_sum_difference.
Qed.

Lemma cumulative_matrix_rows_witness :
  let input_vector : list (@vec Exact.arith) := [[1%R]; [2%R]; [3%R]] in
  @vsub Exact.arith 1 (nth 3 (cumulative_matrix input_vector) [])
                      (nth 1 (cumulative_matrix input_vector) []) =
  @frames_sum Exact.arith 1 (frames_between input_vector 1 3).
Proof.
  intros input_vector.
  refine (proj2 (proj2 (proj2 (cumulative_matrix_rows Exact.arith input_vector)))
                _ _ _ _ 1%nat 3%nat _).
  - intros x y z. simpl. ring.
  - intros x. unfold f0. simpl. ring.
  - intros x. unfold f0. simpl. ring.
  - intros x y. simpl. ring.
  - simpl. lia.
Defined.

(** C5, the claim as stated, fails in binary32: after the frames
    [2^24] and [1] the running sum is still [2^24], so row 2 minus
    row 1 is [0] and not the sum [1] of the frames [[1, 2)]. *)
Lemma cumulative_difference_counterexample :
  let input_vector : list (@vec IEEE.arith) :=
    [[IEEE.b32_of_Z (2 ^ 24)]; [IEEE.b32_of_Z 1]] in
  @vsub IEEE.arith 1 (nth 2 (cumulative_matrix input_vector) [])
                     (nth 1 (cumulative_matrix input_vector) []) <>
  @frames_sum IEEE.arith 1 (frames_between input_vector 1 2).
Proof. vm_compute. discriminate. Qed.

(** What the correlation policy keeps of its description: in every
    arithmetic it
    returns the fallback [0.0] when either vector is constant, that is,
    when no adjacent pair of its elements differs; in binary32 that
    value is [+0].  When neither vector is constant the policy
    evaluates [0.5 + (-0.5 * above / (sqrt below_a * sqrt below_b))];
    in exact real arithmetic this is [0.5 - 0.5 r], with [r] the
    Pearson correlation of the two vectors, and lies in [[0, 1]]. *)
Theorem correlation_policy :
  (forall (A : Arith) (a b : vec),
      length a = length b -> constant a \/ constant b ->
      CorrelationDivergencePolicy a b = of_dbl d_zero) /\
  @of_dbl IEEE.arith (@d_zero IEEE.arith) = S754_zero false /\
  (forall a b : list R,
      length a = length b ->
      ~ @constant Exact.arith a -> ~ @constant Exact.arith b ->
      @CorrelationDivergencePolicy Exact.arith a b =
        (1 / 2 - 1 / 2 * ExactSpec.pearson a b)%R /\
      (0 <= @CorrelationDivergencePolicy Exact.arith a b <= 1)%R).
Proof.
  split; [| split].
  - intros A a b Hlen Hc. now apply correlation_constant.
  - reflexivity.
  - intros a b Hlen Ha Hb. now apply ExactFacts.correlation_exact.
Qed.

Lemma correlation_policy_witness :
  @CorrelationDivergencePolicy IEEE.arith
    [IEEE.b32_of_Z 1; IEEE.b32_of_Z 1] [IEEE.b32_of_Z 1; IEEE.b32_of_Z 2] =
    S754_zero false /\
  (0 <= @CorrelationDivergencePolicy Exact.arith [0; 2]%R [0; 1]%R <= 1)%R.
Proof.
  split.
  - refine (proj1 correlation_policy IEEE.arith _ _ _ _); [reflexivity |].
    left. intros [| i] Hi; [reflexivity | simpl in Hi; lia].
  - refine (proj2 (proj2 (proj2 correlation_policy) [0; 2]%R [0; 1]%R _ _ _));
      [reflexivity | |];
      intros H; specialize (H 0%nat ltac:(simpl; lia));
      apply Reqb_true in H; unfold elem in H; simpl in H; lra.
Defined.

(** C6: the policy misses the range [[0, 1]] that the comment beside
    its return statement promises.  In binary32, for [a = b = [0, 2]],
    neither of them constant and of correlation [1],
    [sqrt 2 * sqrt 2] rounds to a number below [2], the quotient
    exceeds [0.5] and the policy returns [-2^-25], a negative value,
    where [0.5 - 0.5 r] is [0]. *)
Theorem correlation_outside_unit_interval :
  let a : @vec IEEE.arith := [IEEE.b32_of_Z 0; IEEE.b32_of_Z 2] in
  ~ @constant IEEE.arith a /\
  @CorrelationDivergencePolicy IEEE.arith a a = S754_finite true 8388608 (-48) /\
  SFleb (IEEE.b32_of_Z 0) (@CorrelationDivergencePolicy IEEE.arith a a) = false.
Proof.
  intros a. split; [| split; reflexivity].
  intros H. specialize (H 0%nat ltac:(simpl; lia)).
  vm_compute in H. discriminate H.
Qed.

(** C7 (as amended): in every arithmetic, and whatever [log] is, the
    Jensen-Shannon policy returns the fallback [0.0] when an element of
    either vector is negative; it is a total function, nothing is
    thrown.  In binary32 it returns [+0] as well when either vector,
    made of valid numbers, sums to zero.  In exact real arithmetic with
    the natural logarithm it returns [0] when either vector sums to
    zero; otherwise the vectors it works on are the inputs divided by
    their sums, which sum to 1, and the result is the divergence
    formula on them; there the result is symmetric in its two arguments
    and never negative. *)
Theorem jensen_shannon_policy :
  (forall (A : Arith) (dlog : dbl -> dbl) (a b : vec),
      length a = length b ->
      (exists i, (i < length a)%nat /\
                 (is_negative (elem a i) = true \/ is_negative (elem b i) = true)) ->
      JensonShannonDivergencePolicy dlog a b = of_dbl d_zero) /\
  (forall (dlog : spec_float -> spec_float) (a b : @vec IEEE.arith),
      length a = length b ->
      Forall (fun x => IEEE.valid32 x = true) a ->
      Forall (fun x => IEEE.valid32 x = true) b ->
      SFeqb (IEEE.sum32 a) (IEEE.b32_of_Z 0) = true \/
      SFeqb (IEEE.sum32 b) (IEEE.b32_of_Z 0) = true ->
      @JensonShannonDivergencePolicy IEEE.arith dlog a b = S754_zero false) /\
  (forall a b : list R,
      length a = length b ->
      (ExactSpec.Rsum a = 0%R \/ ExactSpec.Rsum b = 0%R ->
         @JensonShannonDivergencePolicy Exact.arith ln a b = 0%R) /\
      ((forall x, In x a -> (0 <= x)%R) -> (forall x, In x b -> (0 <= x)%R) ->
       ExactSpec.Rsum a <> 0%R -> ExactSpec.Rsum b <> 0%R ->
         ExactSpec.Rsum (ExactSpec.normalize a) = 1%R /\
         ExactSpec.Rsum (ExactSpec.normalize b) = 1%R /\
         @JensonShannonDivergencePolicy Exact.arith ln a b = ExactSpec.js_formula a b) /\
      @JensonShannonDivergencePolicy Exact.arith ln a b =
        @JensonShannonDivergencePolicy Exact.arith ln b a /\
      (0 <= @JensonShannonDivergencePolicy Exact.arith ln a b)%R).
Proof.
  split; [| split].
  - intros A dlog a b _ H. now apply jensen_shannon_negative.
  - intros dlog a b Hlen Hva Hvb Hz. now apply IEEEJS.js_zero_sum32.
  - intros a b Hlen. split; [| split; [| split]].
    + now apply ExactJSResults.js_zero_sum.
    + intros Ha Hb Hna Hnb. split; [| split].
      * now apply ExactJS.Rsum_normalize.
      * now apply ExactJS.Rsum_normalize.
      * now apply (proj2 (ExactJSResults.js_no_negative a b Hlen Ha Hb)).
    + now apply ExactJSResults.js_symmetric.
    + now apply ExactJSResults.js_nonneg.
Qed.

Lemma jensen_shannon_policy_witness :
  @JensonShannonDivergencePolicy IEEE.arith (fun x => x)
    [IEEE.b32_of_Z 1; IEEE.b32_of_Z (-1)] [IEEE.b32_of_Z 1; IEEE.b32_of_Z 1] =
    S754_zero false /\
  @JensonShannonDivergencePolicy IEEE.arith (fun x => x)
    [IEEE.b32_of_Z 0; IEEE.b32_of_Z 0] [IEEE.b32_of_Z 1; IEEE.b32_of_Z 3] =
    S754_zero false /\
  (0 <= @JensonShannonDivergencePolicy Exact.arith ln [1; 1]%R [1; 3]%R)%R.
Proof.
  split; [| split].
  - refine (proj1 jensen_shannon_policy IEEE.arith (fun x => x) _ _ _ _);
      [reflexivity |].
    exists 1%nat. split; [simpl; lia | left; reflexivity].
  - refine (proj1 (proj2 jensen_shannon_policy) (fun x => x) _ _ _ _ _ _);
      [reflexivity | | | left; reflexivity];
      repeat constructor.
  - refine (proj2 (proj2 (proj2 (proj2 (proj2 jensen_shannon_policy)
                                   [1; 1]%R [1; 3]%R _)))).
    reflexivity.
Defined.

(** C7, symmetry and sign as stated, fail in binary32: the two terms
    of an index are added to the running sum in the order of the
    arguments, so exchanging the arguments changes the rounding, and
    for two close distributions the rounded sum ends below zero.  Both
    remain so when every value of the logarithm is moved by up to one
    unit in the last place. *)
Lemma jensen_shannon_counterexample :
  let js := @JensonShannonDivergencePolicy IEEE.arith log_sample in
  let v := map IEEE.b32_of_Z in
  js (v [1; 2]) (v [2; 1]) = S754_finite false 15202317 (-28) /\
  js (v [2; 1]) (v [1; 2]) = S754_finite false 15202318 (-28) /\
  js (v [1; 2]) (v [2; 1]) <> js (v [2; 1]) (v [1; 2]) /\
  js (v [1; 144]) (v [1; 145]) = S754_finite true 10320258 (-49) /\
  SFltb (js (v [1; 144]) (v [1; 145])) (IEEE.b32_of_Z 0) = true /\
  forallb (fun offsets =>
             let js' := @JensonShannonDivergencePolicy IEEE.arith (log_near offsets) in
             negb (SFeqb (js' (v [1; 2]) (v [2; 1])) (js' (v [2; 1]) (v [1; 2]))) &&
             SFltb (js' (v [1; 144]) (v [1; 145])) (IEEE.b32_of_Z 0))
          (all_offsets 6) = true.
Proof. vm_compute. repeat split. discriminate. Qed.

(** C8 (as amended): in binary32, for vectors [a] and [b] of the same
    length whose componentwise differences [a[j] - b[j]] are all finite
    numbers, the Mahalanobis policy built on the identity matrix of that
    dimension returns the value of the Euclidean policy. *)
Theorem mahalanobis_identity_is_euclidean :
  forall a b : @vec IEEE.arith,
    length a = length b ->
    (forall j, (j < length a)%nat ->
       IEEE.finite32
         (@fsub IEEE.arith (@elem IEEE.arith a j) (@elem IEEE.arith b j)) = true) ->
    @MahalanobisDivergencePolicy IEEE.arith (@identity_matrix IEEE.arith (length a)) a b =
    @EuclideanDivergencePolicy IEEE.arith a b.
Proof.
  intros a b Hlen Hfin.
  unfold MahalanobisDivergencePolicy, EuclideanDivergencePolicy.
  replace (length (@identity_matrix IEEE.arith (length a))) with (length a)
    by (unfold identity_matrix; now rewrite length_map, length_seq).
  rewrite Nat.ltb_irrefl. f_equal.
  exact (proj1 (MahalanobisIdentity.outsum_prefix a b (length a) Hfin (length a)
                  (Nat.le_refl _))).
Qed.

Lemma mahalanobis_identity_is_euclidean_witness :
  let a : @vec IEEE.arith := [IEEE.b32_of_Z 4; IEEE.b32_of_Z 1; IEEE.b32_of_Z 7] in
  let b : @vec IEEE.arith := [IEEE.b32_of_Z 1; IEEE.b32_of_Z 1; IEEE.b32_of_Z 3] in
  @MahalanobisDivergencePolicy IEEE.arith (@identity_matrix IEEE.arith 3) a b =
  @EuclideanDivergencePolicy IEEE.arith a b /\
  @EuclideanDivergencePolicy IEEE.arith a b = IEEE.b32_of_Z 5.
Proof.
  intros a b. split; [| reflexivity].
  refine (mahalanobis_identity_is_euclidean a b _ _); [reflexivity |].
  intros [| [| [| j]]] Hj; try reflexivity.
  simpl in Hj. lia.
Defined.

(** C8, as stated for every pair of vectors, fails in binary32: with
    [a = [max, 0]] and [b = [-max, 0]], [max] the largest finite
    number, the first difference overflows to infinity; the Euclidean
    policy returns infinity and the Mahalanobis policy, which multiplies
    the infinite difference by the zero entries of the identity matrix,
    returns a NaN. *)
Lemma mahalanobis_identity_counterexample :
  let max32 := S754_finite false 16777215 104 in
  let a : @vec IEEE.arith := [max32; S754_zero false] in
  let b : @vec IEEE.arith := [SFopp max32; S754_zero false] in
  @MahalanobisDivergencePolicy IEEE.arith (@identity_matrix IEEE.arith 2) a b = S754_nan /\
  @EuclideanDivergencePolicy IEEE.arith a b = S754_infinity false /\
  @MahalanobisDivergencePolicy IEEE.arith (@identity_matrix IEEE.arith 2) a b <>
  @EuclideanDivergencePolicy IEEE.arith a b.
Proof. vm_compute. repeat split. discriminate. Qed.

(** C9 (as amended): the constructor rejects nothing.  Whatever integer
    it is called with, it returns an engine whose number of time scales
    is that integer reduced modulo [2^64], as the conversion to [size_t]
    leaves it; a negative count becomes a large positive one. *)
Theorem constructor_accepts_everything :
  forall num_dim : Z,
    StructuralChange_new num_dim =
      Constructed {| m_num_dim := num_dim mod 2 ^ 64 |} /\
    0 <= num_dim mod 2 ^ 64 < 2 ^ 64.
Proof.
  intros num_dim. split; [reflexivity |].
  apply Z.mod_pos_bound. reflexivity.
Qed.

(** C9, as stated, fails: a negative count is not rejected. *)
Lemma constructor_counterexample :
  StructuralChange_new (-1) <> Rejected /\
  StructuralChange_new (-1) = Constructed {| m_num_dim := 2 ^ 64 - 1 |}.
Proof. split; [discriminate | reflexivity]. Qed.

(** C10 (as amended): at a normal frame the output is the value the
    policy returned if that value does not compare equal to one of the
    sentinels [-2.0] and [-1.0], which share the slot with genuine
    values: a value equal to [-2.0] is replaced by [3 * meanDiv] and a
    value equal to [-1.0] by [-1 * meanDiv].  A policy returning
    [-1.0], and one returning [-2.0], show the overwrite. *)
Theorem sentinel_collision :
  (forall (sc : StructuralChange)
          (divergence : @vec IEEE.arith -> @vec IEEE.arith -> @flt IEEE.arith)
          (input_vector : list (@vec IEEE.arith)) (t i : nat),
      Z.of_nat (length input_vector) < 2 ^ 31 ->
      (i < length input_vector)%nat -> (t < num_dim_of sc)%nat ->
      status sc input_vector t i = NORMAL ->
      let d := divergence_at sc divergence input_vector t i in
      let out := get_out (output sc divergence input_vector) i t in
      (SFeqb d (IEEE.b32_of_Z (-2)) = false -> SFeqb d (IEEE.b32_of_Z (-1)) = false ->
         out = d) /\
      (SFeqb d (IEEE.b32_of_Z (-2)) = true ->
         out = @fmul IEEE.arith (IEEE.b32_of_Z 3) (meanDiv sc divergence input_vector t)) /\
      (SFeqb d (IEEE.b32_of_Z (-2)) = false -> SFeqb d (IEEE.b32_of_Z (-1)) = true ->
         out = @fmul IEEE.arith (IEEE.b32_of_Z (-1)) (meanDiv sc divergence input_vector t))) /\
  (let sc := {| m_num_dim := 1 |} in
   let divergence := fun _ _ : @vec IEEE.arith => IEEE.b32_of_Z (-1) in
   status sc scenario_input 0 1 = NORMAL /\
   divergence_at sc divergence scenario_input 0 1 = IEEE.b32_of_Z (-1) /\
   get_out (output sc divergence scenario_input) 1 0 = IEEE.b32_of_Z 1 /\
   get_out (output sc divergence scenario_input) 1 0 =
     @fmul IEEE.arith (IEEE.b32_of_Z (-1)) (meanDiv sc divergence scenario_input 0)) /\
  (let sc := {| m_num_dim := 1 |} in
   let divergence := fun _ _ : @vec IEEE.arith => IEEE.b32_of_Z (-2) in
   status sc scenario_input 0 1 = NORMAL /\
   divergence_at sc divergence scenario_input 0 1 = IEEE.b32_of_Z (-2) /\
   get_out (output sc divergence scenario_input) 1 0 = IEEE.b32_of_Z (-6) /\
   get_out (output sc divergence scenario_input) 1 0 =
     @fmul IEEE.arith (IEEE.b32_of_Z 3) (meanDiv sc divergence scenario_input 0)).
Proof.
  split.
  - intros sc divergence input_vector t i HN Hi Ht Hs d out. subst d out.
    rewrite output_slot by assumption. rewrite Hs.
    unfold NORMAL. simpl Z.eqb. cbv iota.
    unfold substituted.
    change (@feqb IEEE.arith) with SFeqb.
    change (@RIGHT IEEE.arith) with (IEEE.b32_of_Z (-2)).
    change (@LEFT IEEE.arith) with (IEEE.b32_of_Z (-1)).
    change (@f_of_int IEEE.arith) with IEEE.b32_of_Z.
    split; [| split].
    + intros E2 E1. now rewrite E2, E1.
    + intros E2. now rewrite E2.
    + intros E2 E1. now rewrite E2, E1.
  - split; vm_compute; repeat split.
Qed.

Lemma sentinel_collision_witness :
  let sc := {| m_num_dim := 1 |} in
  let euclid := @EuclideanDivergencePolicy IEEE.arith in
  get_out (output sc euclid scenario_input) 2 0 = divergence_at sc euclid scenario_input 0 2.
Proof.
  intros sc euclid.
  refine (proj1 (proj1 sentinel_collision sc euclid scenario_input 0%nat 2%nat _ _ _ _) _ _);
    vm_compute; (reflexivity || lia).
Defined.

(** C10, the "only if" as stated, fails: the replacement can be the
    very value the policy returned.  On the frames [1, 1, 5, 5] with
    one time scale, a policy that returns [-1.0] for two equal window
    means and [5.0] otherwise gives [-1, 5, -1] at the normal frames
    1, 2 and 3; [meanDiv] is [1], and the [-1.0] of frame 1 is
    replaced by [-1 * 1]: the output equals the policy's value although
    that value is a sentinel. *)
Lemma sentinel_only_if_counterexample :
  let sc := {| m_num_dim := 1 |} in
  let divergence := fun a b : @vec IEEE.arith =>
    if SFeqb (elem a 0) (elem b 0) then IEEE.b32_of_Z (-1) else IEEE.b32_of_Z 5 in
  status sc scenario_input 0 1 = NORMAL /\
  divergence_at sc divergence scenario_input 0 1 = IEEE.b32_of_Z (-1) /\
  meanDiv sc divergence scenario_input 0 = IEEE.b32_of_Z 1 /\
  get_out (output sc divergence scenario_input) 1 0 =
    divergence_at sc divergence scenario_input 0 1 /\
  ~ (get_out (output sc divergence scenario_input) 1 0 =
       divergence_at sc divergence scenario_input 0 1 ->
     SFeqb (divergence_at sc divergence scenario_input 0 1) (IEEE.b32_of_Z (-1)) = false /\
     SFeqb (divergence_at sc divergence scenario_input 0 1) (IEEE.b32_of_Z (-2)) = false).
Proof.
  intros sc divergence.
  assert (Hout : get_out (output sc divergence scenario_input) 1 0 =
                 divergence_at sc divergence scenario_input 0 1)
    by (vm_compute; reflexivity).
  repeat split; try (vm_compute; reflexivity).
  intros H. destruct (H Hout) as [H1 _]. vm_compute in H1. discriminate H1.
Qed.

(** ** Further properties of the code *)

(** ** Further properties of the window table *)

Lemma filter_none {X : Type} (p : X -> bool) (l : list X) :
  (forall x, In x l -> p x = false) -> filter p l = [].
Proof.
  induction l as [| x l IH]; intros H; [reflexivity |].
  simpl. rewrite (H x (or_introl eq_refl)). apply IH. intros y Hy. apply H. now right.
Qed.

Lemma filter_all {X : Type} (p : X -> bool) (l : list X) :
  (forall x, In x l -> p x = true) -> filter p l = l.
Proof.
  induction l as [| x l IH]; intros H; [reflexivity |].
  simpl. rewrite (H x (or_introl eq_refl)). f_equal. apply IH.
  intros y Hy. apply H. now right.
Qed.

(** A predicate that holds exactly on an interval of indices selects
    that interval. *)
Lemma filter_seq_interval (p : nat -> bool) (lo len n : nat) :
  (len <> 0 -> lo + len <= n)%nat ->
  (forall i, (i < n)%nat -> p i = true <-> (lo <= i < lo + len)%nat) ->
  filter p (seq 0 n) = seq lo len.
Proof.
  intros Hfit Hp. destruct (Nat.eq_dec len 0) as [-> | Hlen].
  - apply filter_none. intros i Hi. apply in_seq in Hi.
    destruct (p i) eqn:E; [| reflexivity]. apply Hp in E; lia.
  - specialize (Hfit Hlen).
    replace n with (lo + (len + (n - lo - len)))%nat by lia.
    rewrite !seq_app, !filter_app. cbn [Nat.add].
    rewrite (filter_none p (seq 0 lo)), (filter_all p (seq lo len)),
      (filter_none p (seq (lo + len) _)).
    + now rewrite app_nil_r.
    + intros i Hi. apply in_seq in Hi.
      destruct (p i) eqn:E; [| reflexivity]. apply Hp in E; lia.
    + intros i Hi. apply in_seq in Hi. apply Hp; lia.
    + intros i Hi. apply in_seq in Hi.
      destruct (p i) eqn:E; [| reflexivity]. apply Hp in E; lia.
Qed.

Lemma half_width_pow2 (t : nat) : Z.of_nat (half_width t) = 2 ^ Z.of_nat t.
Proof. unfold half_width. now rewrite Nat2Z.inj_pow. Qed.

Lemma half_width_pos (t : nat) : (0 < half_width t)%nat.
Proof.
  unfold half_width. pose proof (Nat.pow_nonzero 2 t ltac:(lia)). lia.
Qed.

(** The status of a frame from its index alone. *)
Lemma status_by_index (T N t i : nat) :
  (t < T)%nat -> (t < 32)%nat -> Z.of_nat N < 2 ^ 31 -> (i < N)%nat ->
  entry (boundary_at (init_window_boundaries T N) t i) 4 =
  if (half_width t <=? i)%nat
  then (if (i + half_width t <=? N)%nat then NORMAL else RIGHT_SHORT)
  else (if (i + half_width t <=? N)%nat then LEFT_SHORT else BOTH_SHORT).
Proof.
  intros HtT Ht HN Hi.
  rewrite boundary_at_init by assumption.
  rewrite window_width_pow2 by lia.
  pose proof (half_width_pow2 t) as Hw. pose proof (half_width_pos t) as Hpos.
  assert (Hle : 2 ^ Z.of_nat t <= 2 ^ 31) by (apply Z.pow_le_mono_r; lia).
  rewrite window_boundary_in_range by lia.
  unfold entry. cbn [nth].
  unfold status_of_sizes, NORMAL, LEFT_SHORT, RIGHT_SHORT, BOTH_SHORT.
  rewrite <- Hw.
  destruct (Nat.leb_spec (half_width t) i);
    destruct (Nat.leb_spec (i + half_width t) N);
    destruct (Z.eqb_spec (Z.of_nat i - Z.max 0 (Z.of_nat i - Z.of_nat (half_width t)))
                (Z.of_nat (half_width t)));
    destruct (Z.eqb_spec (Z.min (Z.of_nat N) (Z.of_nat i + Z.of_nat (half_width t))
                          - Z.of_nat i) (Z.of_nat (half_width t)));
    cbn [andb]; try reflexivity; lia.
Qed.

(** Row [t] of the table does not depend on the number of time scales. *)
Lemma init_row (T N t : nat) :
  (t < T)%nat ->
  nth t (init_window_boundaries T N) [] =
  map (window_boundary (window_width (Z.of_nat t)) (Z.of_nat N)) (counter N).
Proof.
  intros Ht. unfold init_window_boundaries.
  rewrite nth_map_lt with (d' := 0) by (now rewrite length_counter).
  now rewrite nth_counter.
Qed.

(** Two matrices of the same shape with the same entries are equal. *)
Lemma rect_ext {A : Arith} (N T : nat) (c1 c2 : list vec) :
  rect N T c1 -> rect N T c2 ->
  (forall i t, (i < N)%nat -> (t < T)%nat -> get_out c1 i t = get_out c2 i t) ->
  c1 = c2.
Proof.
  intros [L1 R1] [L2 R2] H.
  apply nth_ext with (d := []) (d' := []); [congruence |].
  intros i Hi. rewrite L1 in Hi.
  apply nth_ext with (d := f0) (d' := f0); [rewrite R1, R2; auto |].
  intros t Ht. rewrite R1 in Ht by exact Hi. now apply H.
Qed.

(** The frames of one status, when that status is held on a run of
    indices. *)
Lemma frames_with_status_run (T N t : nat) (code : Z) (lo len : nat) :
  (t < T)%nat -> (t < 32)%nat -> Z.of_nat N < 2 ^ 31 ->
  (len <> 0 -> lo + len <= N)%nat ->
  (forall i, (i < N)%nat ->
     (if (half_width t <=? i)%nat
      then (if (i + half_width t <=? N)%nat then NORMAL else RIGHT_SHORT)
      else (if (i + half_width t <=? N)%nat then LEFT_SHORT else BOTH_SHORT)) = code <->
     (lo <= i < lo + len)%nat) ->
  frames_with_status code T N t = seq lo len.
Proof.
  intros HtT Ht HN Hfit Hiff. unfold frames_with_status.
  apply filter_seq_interval; [exact Hfit |].
  intros i Hi. rewrite status_by_index by assumption.
  rewrite Z.eqb_eq. now apply Hiff.
Qed.

Lemma normal_frames_run (T N t : nat) :
  (t < T)%nat -> (t < 32)%nat -> Z.of_nat N < 2 ^ 31 ->
  frames_with_status NORMAL T N t = seq (half_width t) (N + 1 - 2 * half_width t).
Proof.
  intros HtT Ht HN. pose proof (half_width_pos t) as Hpos.
  apply frames_with_status_run; try assumption; [lia |]. intros i Hi.
  unfold NORMAL, LEFT_SHORT, RIGHT_SHORT, BOTH_SHORT.
  destruct (Nat.leb_spec (half_width t) i);
    destruct (Nat.leb_spec (i + half_width t) N);
    split; intros; try discriminate; try lia; reflexivity.
Qed.

(** X1: for a time scale [t < 32] of half-width [w = 2^t] and fewer
    than [2^31] frames, the frames of each status form one run of
    indices: the left-truncated frames are the first [min w (N+1-w)],
    the normal frames are the [N+1-2w] frames from [w] on, the
    right-truncated frames are those from [max w (N+1-w)] to the end,
    and the both-truncated frames are those from [N+1-w] up to
    [min N w].  With at least [2w] frames there are thus [w]
    left-truncated frames at the start, [w-1] right-truncated frames
    at the end and no both-truncated frame; with fewer than [2w]
    frames no frame is normal. *)
Theorem status_layout :
  forall T N t : nat,
    (t < T)%nat -> (t < 32)%nat -> Z.of_nat N < 2 ^ 31 ->
    let w := half_width t in
    frames_with_status LEFT_SHORT T N t = seq 0 (Nat.min w (N + 1 - w)) /\
    frames_with_status NORMAL T N t = seq w (N + 1 - 2 * w) /\
    frames_with_status RIGHT_SHORT T N t =
      seq (Nat.max w (N + 1 - w)) (N - Nat.max w (N + 1 - w)) /\
    frames_with_status BOTH_SHORT T N t = seq (N + 1 - w) (Nat.min N w - (N + 1 - w)) /\
    ((2 * w <= N)%nat ->
       frames_with_status LEFT_SHORT T N t = seq 0 w /\
       frames_with_status RIGHT_SHORT T N t = seq (N + 1 - w) (w - 1) /\
       frames_with_status BOTH_SHORT T N t = []) /\
    ((N < 2 * w)%nat -> frames_with_status NORMAL T N t = []).
Proof.
  intros T N t HtT Ht HN w.
  pose proof (half_width_pos t) as Hpos. fold w in Hpos.
  assert (HL : frames_with_status LEFT_SHORT T N t = seq 0 (Nat.min w (N + 1 - w))).
  { apply frames_with_status_run; try assumption; [lia |]. intros i Hi. fold w.
    unfold NORMAL, LEFT_SHORT, RIGHT_SHORT, BOTH_SHORT.
    destruct (Nat.leb_spec w i); destruct (Nat.leb_spec (i + w) N);
      split; intros; try discriminate; try lia; reflexivity. }
  assert (HNo : frames_with_status NORMAL T N t = seq w (N + 1 - 2 * w))
    by (now apply normal_frames_run).
  assert (HR : frames_with_status RIGHT_SHORT T N t =
               seq (Nat.max w (N + 1 - w)) (N - Nat.max w (N + 1 - w))).
  { apply frames_with_status_run; try assumption; [lia |]. intros i Hi. fold w.
    unfold NORMAL, LEFT_SHORT, RIGHT_SHORT, BOTH_SHORT.
    destruct (Nat.leb_spec w i); destruct (Nat.leb_spec (i + w) N);
      split; intros; try discriminate; try lia; reflexivity. }
  assert (HB : frames_with_status BOTH_SHORT T N t =
               seq (N + 1 - w) (Nat.min N w - (N + 1 - w))).
  { apply frames_with_status_run; try assumption; [lia |]. intros i Hi. fold w.
    unfold NORMAL, LEFT_SHORT, RIGHT_SHORT, BOTH_SHORT.
    destruct (Nat.leb_spec w i); destruct (Nat.leb_spec (i + w) N);
      split; intros; try discriminate; try lia; reflexivity. }
  repeat (split; [assumption |]). split.
  - intros H2w. rewrite HL, HR, HB.
    replace (Nat.min w (N + 1 - w)) with w by lia.
    replace (Nat.max w (N + 1 - w)) with (N + 1 - w)%nat by lia.
    replace (N - (N + 1 - w))%nat with (w - 1)%nat by lia.
    replace (Nat.min N w - (N + 1 - w))%nat with 0%nat by lia.
    repeat split.
  - intros H2w. rewrite HNo.
    now replace (N + 1 - 2 * w)%nat with 0%nat by lia.
Qed.

Lemma status_layout_witness :
  frames_with_status LEFT_SHORT 2 8 1 = [0; 1]%nat /\
  frames_with_status NORMAL 2 8 1 = [2; 3; 4; 5; 6]%nat /\
  frames_with_status RIGHT_SHORT 2 8 1 = [7]%nat.
Proof.
  assert (H1 : (1 < 2)%nat) by lia.
  assert (H2 : (1 < 32)%nat) by lia.
  assert (H3 : Z.of_nat 8 < 2 ^ 31) by reflexivity.
  pose proof (status_layout 2 8 1 H1 H2 H3) as H. cbv zeta in H.
  destruct H as (HL & HN & HR & _).
  split; [exact HL | split; [exact HN | exact HR]].
Defined.

(** ** Further properties of the engine *)

Lemma normal_frames_status {A : Arith} (sc : StructuralChange)
    (input_vector : list vec) (t : nat) :
  normal_frames sc input_vector t =
  frames_with_status NORMAL (num_dim_of sc) (length input_vector) t.
Proof. reflexivity. Qed.

(** X2: in binary32, at a time scale [t < 32] whose windows do not both
    fit into the input, that is when there are fewer than [2 * 2^t]
    frames (and fewer than [2^31]), no frame is normal, the policy
    plays no part and every output value of that time scale is a zero:
    [-0] at the left-truncated frames, which receive [-1 * 0], and [+0]
    at all the others. *)
Theorem wide_time_scale_gives_zeros :
  forall (sc : StructuralChange)
         (divergence : @vec IEEE.arith -> @vec IEEE.arith -> @flt IEEE.arith)
         (input_vector : list (@vec IEEE.arith)) (t i : nat),
    Z.of_nat (length input_vector) < 2 ^ 31 ->
    (i < length input_vector)%nat -> (t < num_dim_of sc)%nat -> (t < 32)%nat ->
    (length input_vector < 2 * half_width t)%nat ->
    get_out (output sc divergence input_vector) i t =
      S754_zero (status sc input_vector t i =? LEFT_SHORT) /\
    @feqb IEEE.arith (get_out (output sc divergence input_vector) i t)
                     (IEEE.b32_of_Z 0) = true.
Proof.
  intros sc divergence input_vector t i HN Hi Ht Ht32 Hwide.
  assert (Hnone : normal_frames sc input_vector t = []).
  { rewrite normal_frames_status, normal_frames_run by assumption.
    now replace (length input_vector + 1 - 2 * half_width t)%nat with 0%nat by lia. }
  assert (E : get_out (output sc divergence input_vector) i t =
              S754_zero (status sc input_vector t i =? LEFT_SHORT)).
  { rewrite output_slot by assumption.
    unfold meanDiv. rewrite Hnone. cbn [map mean_of].
    unfold status. rewrite status_by_index by assumption.
    destruct (Nat.leb_spec (half_width t) i);
      destruct (Nat.leb_spec (i + half_width t) (length input_vector));
      try lia; reflexivity. }
  split; [exact E |]. rewrite E.
  now destruct (status sc input_vector t i =? LEFT_SHORT).
Qed.

Lemma wide_time_scale_gives_zeros_witness :
  let sc := {| m_num_dim := 3 |} in
  let euclid := @EuclideanDivergencePolicy IEEE.arith in
  get_out (output sc euclid scenario_input) 0 2 = S754_zero true /\
  get_out (output sc euclid scenario_input) 3 2 = S754_zero false.
Proof.
  intros sc euclid.
  split.
  - refine (proj1 (wide_time_scale_gives_zeros sc euclid scenario_input 2 0 _ _ _ _ _));
      vm_compute; (reflexivity || lia).
  - refine (proj1 (wide_time_scale_gives_zeros sc euclid scenario_input 2 3 _ _ _ _ _));
      vm_compute; (reflexivity || lia).
Defined.

Lemma get_out_firstn {A : Arith} (T : nat) (cm : list vec) (i t : nat) :
  (t < T)%nat -> get_out (map (firstn T) cm) i t = get_out cm i t.
Proof.
  intros Ht. unfold get_out, elem.
  destruct (Nat.lt_ge_cases i (length cm)) as [Hi | Hi].
  - rewrite nth_map_lt with (d' := []) by exact Hi.
    now rewrite nth_firstn, (proj2 (Nat.ltb_lt t T) Ht).
  - rewrite (nth_overflow (map (firstn T) cm) []) by (now rewrite length_map).
    now rewrite (nth_overflow cm []) by exact Hi.
Qed.

Lemma rect_firstn {A : Arith} (N T T' : nat) (cm : list vec) :
  (T <= T')%nat -> rect N T' cm -> rect N T (map (firstn T) cm).
Proof.
  intros HT [HN HR]. split; [now rewrite length_map |].
  intros i Hi.
  assert (Hi' : (i < length cm)%nat) by (rewrite HN; exact Hi).
  rewrite nth_map_lt with (d' := []) by exact Hi'.
  rewrite length_firstn.
  transitivity (Nat.min T T'); [f_equal; exact (HR i Hi) | apply Nat.min_l; exact HT].
Qed.

(** X3: the values of a time scale do not depend on how many time
    scales are computed: for fewer than [2^31] frames, the result for
    [T'] time scales cut down to its first [T] columns is the result
    for [T] time scales. *)
Theorem more_time_scales_extend :
  forall (A : Arith) (sc sc' : StructuralChange) (divergence : vec -> vec -> flt)
         (input_vector : list vec),
    Z.of_nat (length input_vector) < 2 ^ 31 ->
    (num_dim_of sc <= num_dim_of sc')%nat ->
    map (firstn (num_dim_of sc)) (calculate sc' divergence input_vector) =
    calculate sc divergence input_vector.
Proof.
  intros A sc sc' divergence input_vector HN HT.
  apply rect_ext with (N := length input_vector) (T := num_dim_of sc).
  - apply rect_firstn with (T' := num_dim_of sc'); [exact HT | apply rect_calculate].
  - apply rect_calculate.
  - intros i t Hi Ht. rewrite get_out_firstn by exact Ht.
    unfold num_dim_of in *.
    rewrite !calculate_slot by (assumption || lia).
    now rewrite !init_row by lia.
Qed.

Lemma more_time_scales_extend_witness :
  let euclid := @EuclideanDivergencePolicy IEEE.arith in
  map (firstn 1) (calculate {| m_num_dim := 3 |} euclid scenario_input) =
  calculate {| m_num_dim := 1 |} euclid scenario_input.
Proof.
  intros euclid.
  refine (more_time_scales_extend IEEE.arith {| m_num_dim := 1 |} {| m_num_dim := 3 |}
            euclid scenario_input _ _); vm_compute; (reflexivity || lia).
Defined.

(** ** The template [calculate] and the frame types *)

Lemma map_upd {X Y : Type} (g : X -> Y) (i : nat) (x : X) (l : list X) :
  map g (upd i x l) = upd i (g x) (map g l).
Proof.
  revert i. induction l as [| y l IH]; intros [| i]; simpl; try reflexivity.
  now rewrite IH.
Qed.

Lemma upd_unchanged {X : Type} (i : nat) (x : X) (l : list X) :
  nth_error l i = Some x -> upd i x l = l.
Proof.
  revert i. induction l as [| y l IH]; intros [| i] H; simpl in *;
    try discriminate; [congruence |].
  f_equal. now apply IH.
Qed.

Section TemplateFacts.

Context {A : Arith} {OutputFeatures : Type}.
Context (out_access : FeaturesAccessPolicy OutputFeatures).

(** The values of the output frames, as a matrix. *)
Let values_of (cm : list OutputFeatures) : list vec := map get cm.

Lemma template_get_out (cm : list OutputFeatures) (i t : nat) :
  Generic.get_out out_access cm i t = get_out (values_of cm) i t.
Proof.
  unfold Generic.get_out, get_out, values_of.
  destruct (nth_error cm i) as [features |] eqn:E.
  - now rewrite (nth_error_nth (map get cm) i [] (map_nth_error get i cm E)).
  - rewrite (nth_error_nth_None (map get cm) i []) by (now rewrite nth_error_map, E).
    unfold elem. now destruct t.
Qed.

Section Written.

Hypothesis get_put : forall (v : OutputFeatures) (x : vec), get (put v x) = x.

Lemma template_set_out (cm : list OutputFeatures) (i t : nat) (x : flt) :
  values_of (Generic.set_out out_access cm i t x) = set_out (values_of cm) i t x.
Proof.
  unfold Generic.set_out, set_out, values_of.
  destruct (nth_error cm i) as [features |] eqn:E.
  - rewrite map_upd, get_put.
    now rewrite (nth_error_nth (map get cm) i [] (map_nth_error get i cm E)).
  - symmetry. apply upd_beyond. rewrite length_map. now apply nth_error_None.
Qed.

Variable divergence : vec -> vec -> flt.
Variable cumulative : list vec.
Variable num_element : nat.

(** The state of the template's loops seen as a state of the loops on
    vectors of values. *)
Let lower (st : @Generic.pass_state A OutputFeatures) : pass_state :=
  {| change_matrix := values_of (Generic.change_matrix st);
     mean_div := Generic.mean_div st;
     count_valid := Generic.count_valid st |}.

Lemma template_frame_step (boundaries : list (list Z)) (t : nat)
    (st : @Generic.pass_state A OutputFeatures) (i : nat) :
  lower (Generic.frame_step out_access divergence cumulative num_element boundaries t st i) =
  frame_step divergence cumulative num_element boundaries t (lower st) i.
Proof.
  unfold Generic.frame_step, frame_step, lower.
  cbn [change_matrix mean_div count_valid].
  repeat match goal with |- context [if ?c then _ else _] => destruct c end;
    cbn [Generic.change_matrix Generic.mean_div Generic.count_valid];
    rewrite ?template_get_out, ?template_set_out; reflexivity.
Qed.

Lemma template_first_loop (boundaries : list (list Z)) (t : nat) (l : list nat)
    (st : @Generic.pass_state A OutputFeatures) :
  lower (fold_left (Generic.frame_step out_access divergence cumulative num_element
                      boundaries t) l st) =
  fold_left (frame_step divergence cumulative num_element boundaries t) l (lower st).
Proof.
  revert st. induction l as [| i l IH]; intros st; [reflexivity |].
  cbn [fold_left]. now rewrite IH, template_frame_step.
Qed.

Lemma template_substitute_step (t : nat) (m : flt) (cm : list OutputFeatures) (i : nat) :
  values_of (Generic.substitute_step out_access t m cm i) =
  substitute_step t m (values_of cm) i.
Proof.
  unfold Generic.substitute_step, substitute_step.
  rewrite template_get_out.
  repeat match goal with |- context [if ?c then _ else _] => destruct c end;
    rewrite ?template_set_out; reflexivity.
Qed.

Lemma template_second_loop (t : nat) (m : flt) (l : list nat) (cm : list OutputFeatures) :
  values_of (fold_left (Generic.substitute_step out_access t m) l cm) =
  fold_left (substitute_step t m) l (values_of cm).
Proof.
  revert cm. induction l as [| i l IH]; intros cm; [reflexivity |].
  cbn [fold_left]. now rewrite IH, template_substitute_step.
Qed.

Lemma template_timescale_pass (num_frame : nat) (wbs : list (list (list Z)))
    (cm : list OutputFeatures) (t : nat) :
  values_of (Generic.timescale_pass out_access divergence cumulative num_element
               num_frame wbs cm t) =
  timescale_pass divergence cumulative num_element num_frame wbs (values_of cm) t.
Proof.
  unfold Generic.timescale_pass, timescale_pass.
  rewrite template_second_loop.
  pose proof (template_first_loop (nth t wbs []) t (seq 0 (length (nth t wbs [])))
                {| Generic.change_matrix := cm; Generic.mean_div := f0;
                   Generic.count_valid := 0 |}) as H.
  unfold lower in H. cbn [Generic.change_matrix Generic.mean_div Generic.count_valid] in H.
  rewrite <- H. reflexivity.
Qed.

Lemma template_passes (num_frame : nat) (wbs : list (list (list Z)))
    (l : list nat) (cm : list OutputFeatures) :
  values_of (fold_left (Generic.timescale_pass out_access divergence cumulative
                          num_element num_frame wbs) l cm) =
  fold_left (timescale_pass divergence cumulative num_element num_frame wbs) l
            (values_of cm).
Proof.
  revert cm. induction l as [| t l IH]; intros cm; [reflexivity |].
  cbn [fold_left]. now rewrite IH, template_timescale_pass.
Qed.

End Written.

(** What a write through [get] leaves alone is left alone by all the
    loops. *)
Section Untouched.

Context {M : Type}.
Variable member : OutputFeatures -> M.
Hypothesis member_put : forall (v : OutputFeatures) (x : vec), member (put v x) = member v.

Lemma untouched_set_out (cm : list OutputFeatures) (i t : nat) (x : flt) :
  map member (Generic.set_out out_access cm i t x) = map member cm.
Proof.
  unfold Generic.set_out.
  destruct (nth_error cm i) as [features |] eqn:E; [| reflexivity].
  rewrite map_upd, member_put. apply upd_unchanged.
  now apply map_nth_error.
Qed.

Lemma untouched_first_loop (divergence : vec -> vec -> flt) (cumulative : list vec)
    (num_element : nat) (boundaries : list (list Z)) (t : nat) (l : list nat)
    (st : @Generic.pass_state A OutputFeatures) :
  map member (Generic.change_matrix
                (fold_left (Generic.frame_step out_access divergence cumulative num_element
                              boundaries t) l st)) =
  map member (Generic.change_matrix st).
Proof.
  revert st. induction l as [| i l IH]; intros st; [reflexivity |].
  cbn [fold_left]. rewrite IH. unfold Generic.frame_step.
  repeat match goal with |- context [if ?c then _ else _] => destruct c end;
    cbn [Generic.change_matrix]; apply untouched_set_out.
Qed.

Lemma untouched_second_loop (t : nat) (m : flt) (l : list nat) (cm : list OutputFeatures) :
  map member (fold_left (Generic.substitute_step out_access t m) l cm) = map member cm.
Proof.
  revert cm. induction l as [| i l IH]; intros cm; [reflexivity |].
  cbn [fold_left]. rewrite IH. unfold Generic.substitute_step.
  repeat match goal with |- context [if ?c then _ else _] => destruct c end;
    try reflexivity; apply untouched_set_out.
Qed.

Lemma untouched_passes (divergence : vec -> vec -> flt) (cumulative : list vec)
    (num_element num_frame : nat) (wbs : list (list (list Z)))
    (l : list nat) (cm : list OutputFeatures) :
  map member (fold_left (Generic.timescale_pass out_access divergence cumulative
                           num_element num_frame wbs) l cm) =
  map member cm.
Proof.
  revert cm. induction l as [| t l IH]; intros cm; [reflexivity |].
  cbn [fold_left]. rewrite IH. unfold Generic.timescale_pass.
  rewrite untouched_second_loop. now rewrite untouched_first_loop.
Qed.

End Untouched.

End TemplateFacts.

Lemma untouched_calculate {A : Arith} {OutputFeatures InputFeatures M : Type}
    (out_access : FeaturesAccessPolicy OutputFeatures)
    (in_access : FeaturesAccessPolicy InputFeatures)
    (meta : FeaturesCopyMetaPolicy OutputFeatures InputFeatures)
    (member : OutputFeatures -> M)
    (fresh : OutputFeatures) (sc : StructuralChange) (divergence : vec -> vec -> flt)
    (input_vector : list InputFeatures) :
  (forall (v : OutputFeatures) (x : vec), member (put v x) = member v) ->
  map member (Generic.calculate out_access in_access meta fresh sc divergence input_vector) =
  map (fun input =>
         member (Generic.prepare out_access meta fresh (Z.to_nat (m_num_dim sc)) input))
      input_vector.
Proof.
  intros Hput. destruct input_vector as [| first rest]; [reflexivity |].
  unfold Generic.calculate.
  rewrite (untouched_passes out_access member Hput). now rewrite map_map.
Qed.

Lemma length_resize {A : Arith} (n : nat) (v : vec) : length (Generic.resize n v) = n.
Proof.
  unfold Generic.resize. rewrite length_app, length_firstn, repeat_length. lia.
Qed.

Lemma rect_repeat_row {A : Arith} (N T : nat) (row : vec) :
  length row = T -> rect N T (repeat row N).
Proof.
  intros HT. split; [apply repeat_length |].
  intros i Hi. now rewrite nth_repeat_lt by exact Hi.
Qed.

(** X4: for frame types whose [get] designates one member (what is
    written through it is what is read, and [copy_meta] does not touch
    it) and fewer than [2^31] frames, the values of the output frames
    of the template are the result of the computation on the vectors
    of values of the input frames, whatever the value-initialised
    output frame holds. *)
Theorem template_values :
  forall (A : Arith) (OutputFeatures InputFeatures : Type)
         (out_access : FeaturesAccessPolicy OutputFeatures)
         (in_access : FeaturesAccessPolicy InputFeatures)
         (meta : FeaturesCopyMetaPolicy OutputFeatures InputFeatures),
    lawful_access out_access meta ->
    forall (fresh : OutputFeatures) (sc : StructuralChange)
           (divergence : vec -> vec -> flt) (input_vector : list InputFeatures),
      Z.of_nat (length input_vector) < 2 ^ 31 ->
      map (get (FeaturesAccessPolicy := out_access))
          (Generic.calculate out_access in_access meta fresh sc divergence input_vector) =
      calculate sc divergence (map (get (FeaturesAccessPolicy := in_access)) input_vector).
Proof.
  intros A OutputFeatures InputFeatures out_access in_access meta [Hput Hmeta]
         fresh sc divergence input_vector HN.
  destruct input_vector as [| first rest]; [reflexivity |].
  unfold Generic.calculate, calculate.
  rewrite (template_passes out_access Hput).
  rewrite length_map.
  change (length (first :: rest) =? 0)%nat with false. cbv iota.
  change (length (nth 0 (map get (first :: rest)) [])) with (length (get first)).
  set (input_vector := first :: rest) in *.
  set (N := length input_vector) in *. set (T := Z.to_nat (m_num_dim sc)).
  assert (Hinit : map (get (FeaturesAccessPolicy := out_access))
                      (map (Generic.prepare out_access meta fresh T) input_vector) =
                  repeat (Generic.resize T (get fresh)) N).
  { rewrite map_map. unfold Generic.prepare.
    rewrite (map_ext _ (fun _ => Generic.resize T (get fresh)))
      by (intros input; now rewrite Hmeta, Hput).
    apply map_const. }
  rewrite Hinit.
  assert (Hrows : forall t, (t < T)%nat ->
            length (nth t (init_window_boundaries T N) []) = N)
    by (intros t Ht; now apply length_init_row).
  apply rect_ext with (N := N) (T := T).
  - apply rect_passes. apply rect_repeat_row, length_resize.
  - apply rect_passes. apply rect_repeat.
  - intros i t Hi Ht.
    rewrite !passes_spec with (T := T);
      try assumption; try lia;
      [| apply rect_repeat | apply rect_repeat_row, length_resize].
    now rewrite (proj2 (Nat.ltb_lt t T) Ht), (proj2 (Nat.ltb_lt i N) Hi).
Qed.

Lemma template_values_witness :
  let fresh : @Vamp.Feature IEEE.arith Z :=
    {| Vamp.hasTimestamp := false; Vamp.timestamp := 0;
       Vamp.hasDuration := false; Vamp.duration := 0;
       Vamp.values := ([IEEE.b32_of_Z 7; IEEE.b32_of_Z 8; IEEE.b32_of_Z 9] : @vec IEEE.arith);
       Vamp.label := String.EmptyString |} in
  let at_time (ts : Z) (v : @vec IEEE.arith) : @Vamp.Feature IEEE.arith Z :=
    {| Vamp.hasTimestamp := true; Vamp.timestamp := ts;
       Vamp.hasDuration := false; Vamp.duration := 0;
       Vamp.values := v; Vamp.label := String.EmptyString |} in
  let input_vector := map (fun p => at_time (fst p) (snd p))
                          (combine [10; 20; 30; 40] scenario_input) in
  let euclid := @EuclideanDivergencePolicy IEEE.arith in
  map Vamp.values
      (Generic.calculate Vamp.access Vamp.access Vamp.copy_meta_feature
         fresh {| m_num_dim := 1 |} euclid input_vector) =
  calculate {| m_num_dim := 1 |} euclid scenario_input.
Proof.
  intros fresh at_time input_vector euclid.
  refine (template_values IEEE.arith _ _ Vamp.access Vamp.access Vamp.copy_meta_feature
            _ fresh {| m_num_dim := 1 |} euclid input_vector _).
  - split; intros; reflexivity.
  - vm_compute. reflexivity.
Defined.

(** X6: with Vamp features on both sides, every output frame carries
    the [hasTimestamp] flag of the input frame of the same index, and
    its time stamp when the flag is set; when it is not set the time
    stamp is that of a value-initialised feature.  Duration and label
    of the input are not carried over: those of the output are the
    ones of a value-initialised feature. *)
Theorem vamp_features_metadata :
  forall (A : Arith) (RealTime : Type) (fresh : Vamp.Feature RealTime)
         (sc : StructuralChange) (divergence : vec -> vec -> flt)
         (input_vector : list (Vamp.Feature RealTime)),
    let out := Generic.calculate Vamp.access Vamp.access Vamp.copy_meta_feature
                 fresh sc divergence input_vector in
    map Vamp.hasTimestamp out = map Vamp.hasTimestamp input_vector /\
    map Vamp.timestamp out =
      map (fun input => if Vamp.hasTimestamp input then Vamp.timestamp input
                        else Vamp.timestamp fresh) input_vector /\
    map Vamp.hasDuration out = map (fun _ => Vamp.hasDuration fresh) input_vector /\
    map Vamp.duration out = map (fun _ => Vamp.duration fresh) input_vector /\
    map Vamp.label out = map (fun _ => Vamp.label fresh) input_vector.
Proof.
  intros A RealTime fresh sc divergence input_vector out. subst out.
  repeat split;
    (rewrite untouched_calculate by (intros; reflexivity); reflexivity).
Qed.

(** X7: with Vamp features as output and input frames of another type,
    no output frame has a time stamp: [hasTimestamp] is cleared in
    every one of them, and time stamp, duration and label are those of
    a value-initialised feature. *)
Theorem vamp_features_from_other_frames :
  forall (A : Arith) (RealTime Source : Type) (in_access : FeaturesAccessPolicy Source)
         (fresh : Vamp.Feature RealTime)
         (sc : StructuralChange) (divergence : vec -> vec -> flt)
         (input_vector : list Source),
    let out := Generic.calculate Vamp.access in_access (Vamp.copy_meta_from Source)
                 fresh sc divergence input_vector in
    map Vamp.hasTimestamp out = map (fun _ => false) input_vector /\
    map Vamp.timestamp out = map (fun _ => Vamp.timestamp fresh) input_vector /\
    map Vamp.hasDuration out = map (fun _ => Vamp.hasDuration fresh) input_vector /\
    map Vamp.duration out = map (fun _ => Vamp.duration fresh) input_vector /\
    map Vamp.label out = map (fun _ => Vamp.label fresh) input_vector.
Proof.
  intros A RealTime Source in_access fresh sc divergence input_vector out. subst out.
  repeat split;
    (rewrite untouched_calculate by (intros; reflexivity); reflexivity).
Qed.

(** ** Further properties of the policies *)

Lemma fold_left_ext_in {X Y : Type} (f g : X -> Y -> X) (l : list Y) (s : X) :
  (forall s i, In i l -> f s i = g s i) -> fold_left f l s = fold_left g l s.
Proof.
  revert s. induction l as [| i l IH]; intros s H; [reflexivity |].
  cbn [fold_left]. rewrite (H s i (or_introl eq_refl)).
  apply IH. intros s' j Hj. apply H. now right.
Qed.

Lemma elem_firstn {A : Arith} (k : nat) (v : vec) (j : nat) :
  (j < k)%nat -> elem (firstn k v) j = elem v j.
Proof.
  intros H. unfold elem. now rewrite nth_firstn, (proj2 (Nat.ltb_lt j k) H).
Qed.

(** X8: the Mahalanobis policy works on the first [n] dimensions only,
    [n] being the smaller of the length of [a] and the number of rows
    of the matrix: elements of [a] and [b] beyond the rows of the
    matrix are ignored, and with the empty matrix the result is
    [sqrt 0], whatever the vectors are; in binary32 that is [+0]. *)
Theorem mahalanobis_uses_matrix_dimension :
  (forall (A : Arith) (m_inv_cov : list vec) (a b : vec),
      MahalanobisDivergencePolicy m_inv_cov a b =
      MahalanobisDivergencePolicy m_inv_cov (firstn (length m_inv_cov) a)
                                            (firstn (length m_inv_cov) b)) /\
  (forall (A : Arith) (a b : vec), MahalanobisDivergencePolicy [] a b = c_sqrt f0) /\
  @c_sqrt IEEE.arith (@f0 IEEE.arith) = S754_zero false.
Proof.
  split; [| split; [| reflexivity]].
  - intros A m a b. unfold MahalanobisDivergencePolicy.
    rewrite length_firstn.
    set (n := if (length m <? length a)%nat then length m else length a).
    assert (Hn : (if (length m <? Nat.min (length m) (length a))%nat
                  then length m else Nat.min (length m) (length a)) = n).
    { subst n. destruct (Nat.ltb_spec (length m) (Nat.min (length m) (length a)));
        destruct (Nat.ltb_spec (length m) (length a)); lia. }
    assert (Hle : (n <= length m)%nat).
    { subst n. destruct (Nat.ltb_spec (length m) (length a)); lia. }
    rewrite Hn. f_equal.
    apply fold_left_ext_in. intros s i Hi. apply in_seq in Hi.
    rewrite !elem_firstn by lia. do 2 f_equal.
    unfold mahalanobis_currval.
    apply fold_left_ext_in. intros s' j Hj. apply in_seq in Hj.
    rewrite !elem_firstn by lia. reflexivity.
  - intros A a b. unfold MahalanobisDivergencePolicy. cbn [length].
    destruct (Nat.ltb_spec 0 (length a)) as [H | H]; [reflexivity |].
    now replace (length a) with 0%nat by lia.
Qed.

(** *** Signs of the distance policies in binary32 *)

Module DistanceSign.

Import IEEE IEEEFacts.

Lemma round_aux_not_below_zero (prec emax mx ex : Z) (lx : location) :
  not_below_zero (binary_round_aux prec emax false mx ex lx) = true.
Proof.
  destruct (binary_round_aux_shape prec emax false mx ex lx)
    as [-> | [(m & e & ->) | [-> | ->]]]; reflexivity.
Qed.

Lemma sqrt_not_below_zero (prec emax : Z) (x : spec_float) :
  not_below_zero (SFsqrt prec emax x) = true.
Proof.
  destruct x as [s | [|] | | [|] m e]; try reflexivity.
  unfold SFsqrt.
  destruct (SFsqrt_core_binary prec emax (Z.pos m) e) as [[mz ez] lz].
  apply round_aux_not_below_zero.
Qed.

Lemma convert_not_below_zero (prec emax : Z) (x : spec_float) :
  not_below_zero x = true -> not_below_zero (convert prec emax x) = true.
Proof.
  destruct x as [s | [|] | | [|] m e]; intros H; try discriminate H; try reflexivity.
  unfold convert. cbn [cond_Zopp binary_normalize]. unfold binary_round.
  destruct (shl_align m e _) as [mz ez].
  apply round_aux_not_below_zero.
Qed.

(** The [sqrt] that ends both distance policies returns a NaN, a zero
    or a value above zero, whatever it is given. *)
Lemma c_sqrt_not_below_zero (x : spec_float) :
  not_below_zero (@c_sqrt arith x) = true.
Proof.
  unfold c_sqrt. apply convert_not_below_zero, sqrt_not_below_zero.
Qed.

Lemma not_below_zero_comparisons (x : spec_float) :
  not_below_zero x = true ->
  SFeqb x (b32_of_Z (-1)) = false /\ SFeqb x (b32_of_Z (-2)) = false /\
  SFltb x (b32_of_Z 0) = false.
Proof.
  destruct x as [s | [|] | | [|] m e]; intros H; try discriminate H;
    repeat split; reflexivity.
Qed.

Lemma substituted_not_below_zero (m x : spec_float) :
  not_below_zero x = true -> @substituted arith m x = x.
Proof.
  intros H. destruct (not_below_zero_comparisons x H) as (E1 & E2 & _).
  unfold substituted.
  change (@feqb arith) with SFeqb.
  change (@RIGHT arith) with (b32_of_Z (-2)). change (@LEFT arith) with (b32_of_Z (-1)).
  now rewrite E2, E1.
Qed.

End DistanceSign.

(** X9: in binary32 the Euclidean policy and the Mahalanobis policy,
    whatever its matrix, never return a negative number or minus
    infinity: their result is a NaN, a zero or a value above zero.  It
    therefore never compares equal to the placeholders [-1.0] and
    [-2.0], and with these policies the output of a normal frame (for
    fewer than [2^31] frames) is always the value the policy
    returned. *)
Theorem distance_policies_keep_their_values :
  (forall a b : @vec IEEE.arith,
      not_below_zero (@EuclideanDivergencePolicy IEEE.arith a b) = true) /\
  (forall (m_inv_cov : list (@vec IEEE.arith)) (a b : @vec IEEE.arith),
      not_below_zero (@MahalanobisDivergencePolicy IEEE.arith m_inv_cov a b) = true) /\
  (forall x : spec_float,
      not_below_zero x = true ->
      SFeqb x (@LEFT IEEE.arith) = false /\ SFeqb x (@RIGHT IEEE.arith) = false /\
      SFltb x (IEEE.b32_of_Z 0) = false) /\
  (forall (sc : StructuralChange) (m_inv_cov : list (@vec IEEE.arith))
          (input_vector : list (@vec IEEE.arith)) (t i : nat),
      Z.of_nat (length input_vector) < 2 ^ 31 ->
      (i < length input_vector)%nat -> (t < num_dim_of sc)%nat ->
      status sc input_vector t i = NORMAL ->
      get_out (output sc (@EuclideanDivergencePolicy IEEE.arith) input_vector) i t =
        divergence_at sc (@EuclideanDivergencePolicy IEEE.arith) input_vector t i /\
      get_out (output sc (@MahalanobisDivergencePolicy IEEE.arith m_inv_cov)
                 input_vector) i t =
        divergence_at sc (@MahalanobisDivergencePolicy IEEE.arith m_inv_cov)
          input_vector t i).
Proof.
  split; [| split; [| split]].
  - intros a b. apply DistanceSign.c_sqrt_not_below_zero.
  - intros m a b. apply DistanceSign.c_sqrt_not_below_zero.
  - intros x H. exact (DistanceSign.not_below_zero_comparisons x H).
  - intros sc m input_vector t i HN Hi Ht Hs.
    split; rewrite output_slot by assumption; rewrite Hs;
      unfold NORMAL; simpl Z.eqb; cbv iota;
      apply DistanceSign.substituted_not_below_zero;
      apply DistanceSign.c_sqrt_not_below_zero.
Qed.

Lemma distance_policies_keep_their_values_witness :
  let sc := {| m_num_dim := 1 |} in
  let euclid := @EuclideanDivergencePolicy IEEE.arith in
  get_out (output sc euclid scenario_input) 2 0 = divergence_at sc euclid scenario_input 0 2 /\
  SFeqb (euclid [IEEE.b32_of_Z 1] [IEEE.b32_of_Z 5]) (@LEFT IEEE.arith) = false.
Proof.
  intros sc euclid. split.
  - refine (proj1 (proj2 (proj2 (proj2 distance_policies_keep_their_values))
                     sc [] scenario_input 0%nat 2%nat _ _ _ _));
      vm_compute; (reflexivity || lia).
  - refine (proj1 (proj1 (proj2 (proj2 distance_policies_keep_their_values)) _ _)).
    exact (proj1 distance_policies_keep_their_values _ _).
Defined.

(** *** Symmetry in binary32 *)

Module Symmetry32.

Import IEEE.

Local Abbreviation add32 := (SFadd prec32 emax32).
Local Abbreviation mul32 := (SFmul prec32 emax32).
Local Abbreviation sub32 := (SFsub prec32 emax32).

Lemma mul32_comm (x y : spec_float) : mul32 x y = mul32 y x.
Proof.
  destruct x as [sx | sx | | sx mx ex], y as [sy | sy | | sy my ey];
    cbn [SFmul]; try reflexivity; try (now rewrite xorb_comm).
  now rewrite xorb_comm, Pos.mul_comm, Z.add_comm.
Qed.

(** The square of a rounded value does not depend on its sign. *)
Lemma square_round_aux (s : bool) (m e : Z) (l : location) :
  mul32 (binary_round_aux prec32 emax32 s m e l) (binary_round_aux prec32 emax32 s m e l) =
  mul32 (binary_round_aux prec32 emax32 false m e l)
        (binary_round_aux prec32 emax32 false m e l).
Proof.
  unfold binary_round_aux.
  destruct (shr_fexp prec32 emax32 m e l) as [mrs' e'].
  destruct (shr_fexp prec32 emax32 _ e' loc_Exact) as [mrs'' e''].
  destruct (shr_m mrs'') as [| p | p]; [now destruct s | | reflexivity].
  destruct (e'' <=? emax32 - prec32); now destruct s.
Qed.

Lemma square_normalize (d e : Z) :
  mul32 (binary_normalize prec32 emax32 (- d) e false)
        (binary_normalize prec32 emax32 (- d) e false) =
  mul32 (binary_normalize prec32 emax32 d e false)
        (binary_normalize prec32 emax32 d e false).
Proof.
  destruct d as [| p | p]; cbn [Z.opp binary_normalize]; [reflexivity | |];
    unfold binary_round; destruct (shl_align p e _) as [mz ez].
  - apply square_round_aux.
  - symmetry. apply square_round_aux.
Qed.

(** [(x - y) * (x - y)] and [(y - x) * (y - x)] are the same number. *)
Lemma square_difference_swap (x y : spec_float) :
  mul32 (sub32 x y) (sub32 x y) = mul32 (sub32 y x) (sub32 y x).
Proof.
  destruct x as [[|] | [|] | | sx mx ex], y as [[|] | [|] | | sy my ey];
    try reflexivity;
    try (cbn [SFsub SFmul negb]; now rewrite ?xorb_nilpotent).
  unfold SFsub. rewrite (Z.min_comm ey ex).
  set (ez := Z.min ex ey).
  replace (cond_Zopp sy (Z.pos (fst (shl_align my ey ez))) -
           cond_Zopp sx (Z.pos (fst (shl_align mx ex ez))))
    with (- (cond_Zopp sx (Z.pos (fst (shl_align mx ex ez))) -
             cond_Zopp sy (Z.pos (fst (shl_align my ey ez))))) by lia.
  symmetry. apply square_normalize.
Qed.

End Symmetry32.

Lemma euclid_swapped (a b : @vec IEEE.arith) :
  length a = length b ->
  @EuclideanDivergencePolicy IEEE.arith a b = @EuclideanDivergencePolicy IEEE.arith b a.
Proof.
  intros Hlen. unfold EuclideanDivergencePolicy. rewrite <- Hlen. f_equal.
  apply fold_left_ext_in. intros s i _. f_equal.
  apply Symmetry32.square_difference_swap.
Qed.

(** X10: in binary32 the Euclidean policy is symmetric: for vectors of
    the same length, exchanging the two arguments gives a NaN exactly
    when the original order gives one, and otherwise the very same
    number, with its rounding, the sign of a zero and infinities.
    Which NaN is returned, its sign and payload, is not described. *)
Theorem euclidean_symmetric_binary32 :
  forall a b : @vec IEEE.arith,
    length a = length b ->
    let d := @EuclideanDivergencePolicy IEEE.arith in
    is_nan (d a b) = is_nan (d b a) /\
    (is_nan (d a b) = false -> d a b = d b a).
Proof.
  intros a b Hlen d. subst d.
  pose proof (euclid_swapped a b Hlen) as E.
  split; [now rewrite E | intros _; exact E].
Qed.

Lemma euclidean_symmetric_binary32_witness :
  let a : @vec IEEE.arith := [IEEE.b32_of_Z 1; IEEE.b32_of_Z 2] in
  let b : @vec IEEE.arith := [IEEE.b32_of_Z 4; IEEE.b32_of_Z 6] in
  @EuclideanDivergencePolicy IEEE.arith a b = @EuclideanDivergencePolicy IEEE.arith b a /\
  @EuclideanDivergencePolicy IEEE.arith a b = IEEE.b32_of_Z 5.
Proof.
  intros a b. split; [| reflexivity].
  exact (proj2 (euclidean_symmetric_binary32 a b eq_refl) eq_refl).
Defined.

(** *** Symmetry of the correlation policy *)

Section CorrelationSymmetry.

Context {A : Arith}.

Hypothesis fmul_comm : forall x y : flt, fmul x y = fmul y x.

Variables a b : vec.

Let swap_scan (st : corr_scan) : corr_scan :=
  {| cs_a_mean := cs_b_mean st; cs_b_mean := cs_a_mean st;
     cs_a_valid := cs_b_valid st; cs_b_valid := cs_a_valid st |}.

Let swap_sums (st : corr_sums) : corr_sums :=
  {| above := above st; below_a := below_b st; below_b := below_a st |}.

Lemma corr_scan_swapped (l : list nat) (st : corr_scan) :
  fold_left (corr_scan_step b a) l (swap_scan st) =
  swap_scan (fold_left (corr_scan_step a b) l st).
Proof.
  revert st. induction l as [| i l IH]; intros st; [reflexivity |].
  cbn [fold_left]. rewrite <- IH. reflexivity.
Qed.

Lemma corr_sums_swapped (a_mean b_mean : flt) (l : list nat) (st : corr_sums) :
  fold_left (corr_sums_step b a b_mean a_mean) l (swap_sums st) =
  swap_sums (fold_left (corr_sums_step a b a_mean b_mean) l st).
Proof.
  revert st. induction l as [| i l IH]; intros st; [reflexivity |].
  cbn [fold_left]. rewrite <- IH. f_equal.
  unfold corr_sums_step, swap_sums. cbn [above below_a below_b].
  now rewrite (fmul_comm (fsub (elem b i) b_mean)).
Qed.

Lemma correlation_swapped :
  length a = length b ->
  CorrelationDivergencePolicy a b = CorrelationDivergencePolicy b a.
Proof.
  intros Hlen. unfold CorrelationDivergencePolicy. rewrite <- Hlen.
  pose proof (corr_scan_swapped (seq 0 (length a)) corr_scan_init) as Hscan.
  change (swap_scan corr_scan_init) with corr_scan_init in Hscan.
  rewrite Hscan.
  set (sc := fold_left (corr_scan_step a b) (seq 0 (length a)) corr_scan_init).
  cbn [swap_scan cs_a_mean cs_b_mean cs_a_valid cs_b_valid].
  rewrite (andb_comm (cs_b_valid sc)).
  destruct (cs_a_valid sc && cs_b_valid sc); [| reflexivity].
  set (a_mean := fdiv (cs_a_mean sc) (f_of_int (Z.of_nat (length a)))).
  set (b_mean := fdiv (cs_b_mean sc) (f_of_int (Z.of_nat (length a)))).
  pose proof (corr_sums_swapped a_mean b_mean (seq 0 (length a))
                {| above := f0; below_a := f0; below_b := f0 |}) as Hsums.
  change (swap_sums {| above := f0; below_a := f0; below_b := f0 |})
    with {| above := f0; below_a := f0; below_b := f0 |} in Hsums.
  rewrite Hsums.
  cbn [swap_sums above below_a below_b].
  now rewrite (fmul_comm (fsqrt (below_b _))).
Qed.

End CorrelationSymmetry.

(** X11: the correlation policy is symmetric.  In binary32, for
    vectors of the same length, exchanging the two arguments gives a
    NaN exactly when the original order gives one, and otherwise the
    very same number, with its rounding and sign; which NaN is
    returned, its sign and payload, is not described.  In exact
    arithmetic the two results are equal. *)
Theorem correlation_symmetric :
  (forall a b : @vec IEEE.arith,
      length a = length b ->
      let c := @CorrelationDivergencePolicy IEEE.arith in
      is_nan (c a b) = is_nan (c b a) /\
      (is_nan (c a b) = false -> c a b = c b a)) /\
  (forall a b : list R,
      length a = length b ->
      @CorrelationDivergencePolicy Exact.arith a b =
      @CorrelationDivergencePolicy Exact.arith b a).
Proof.
  split; intros a b Hlen.
  - intros c. subst c.
    pose proof (correlation_swapped (A := IEEE.arith) Symmetry32.mul32_comm a b Hlen) as E.
    split; [now rewrite E | intros _; exact E].
  - apply (correlation_swapped (A := Exact.arith)); [| exact Hlen].
    exact Rmult_comm.
Qed.

Lemma correlation_symmetric_witness :
  let a : @vec IEEE.arith := [IEEE.b32_of_Z 1; IEEE.b32_of_Z 2; IEEE.b32_of_Z 4] in
  let b : @vec IEEE.arith := [IEEE.b32_of_Z 3; IEEE.b32_of_Z 1; IEEE.b32_of_Z 7] in
  @CorrelationDivergencePolicy IEEE.arith a b = @CorrelationDivergencePolicy IEEE.arith b a.
Proof.
  intros a b. exact (proj2 (proj1 correlation_symmetric a b eq_refl) eq_refl).
Defined.

(** ** The distance policies in exact arithmetic *)

Module ExactDistance.

Import Exact ExactSpec ExactFacts ExactJS ExactJSPolicy ExactVocabulary.

Local Open Scope R_scope.

Lemma euclid_value (a b : list R) :
  @EuclideanDivergencePolicy arith a b = sqrt (squared_distance a b).
Proof.
  unfold EuclideanDivergencePolicy, c_sqrt, squared_distance. to_reals.
  change (@dsqrt arith) with sqrt.
  rewrite (fold_Rplus_sum (fun i => (nth i a 0 - nth i b 0) * (nth i a 0 - nth i b 0))).
  now rewrite Rplus_0_l.
Qed.

Lemma squared_distance_nonneg (a b : list R) : 0 <= squared_distance a b.
Proof.
  unfold squared_distance. apply Rsum_nonneg. intros i _. exact (Rle_0_sqr _).
Qed.

Lemma squared_distance_sym (a b : list R) :
  length a = length b -> squared_distance a b = squared_distance b a.
Proof.
  intros Hlen. unfold squared_distance. rewrite <- Hlen.
  apply Rsum_ext. intros i _. ring.
Qed.

Lemma squared_distance_zero (a b : list R) :
  length a = length b -> squared_distance a b = 0 -> a = b.
Proof.
  intros Hlen Hz. apply nth_ext with (d := 0) (d' := 0); [exact Hlen |].
  intros i Hi.
  pose proof (Rsum_zero_all
                (fun i => (nth i a 0 - nth i b 0) * (nth i a 0 - nth i b 0))
                (seq 0 (length a)) (fun j _ => Rle_0_sqr _) Hz i) as H.
  assert (Hin : In i (seq 0 (length a))) by (apply in_seq; lia).
  specialize (H Hin). cbv beta in H. nra.
Qed.

Lemma squared_distance_diagonal (a : list R) : squared_distance a a = 0.
Proof.
  unfold squared_distance.
  rewrite (Rsum_ext _ (fun _ => 0)) by (intros i _; ring).
  generalize (seq 0 (length a)). intros l.
  induction l as [| x l IH]; simpl; [reflexivity | lra].
Qed.

Lemma euclid_diagonal (a : list R) : @EuclideanDivergencePolicy arith a a = 0.
Proof. rewrite euclid_value, squared_distance_diagonal. apply sqrt_0. Qed.

Lemma Rsum_square_of_sum {X : Type} (u v : X -> R) (l : list X) :
  Rsum (map (fun i => (u i + v i) * (u i + v i)) l) =
  Rsum (map (fun i => u i * u i) l) + 2 * Rsum (map (fun i => u i * v i) l) +
  Rsum (map (fun i => v i * v i) l).
Proof.
  induction l as [| i l IH]; simpl; [lra |]. rewrite IH. ring.
Qed.

(** Minkowski's inequality for finite sums. *)
Lemma root_of_sum {X : Type} (u v : X -> R) (l : list X) :
  sqrt (Rsum (map (fun i => (u i + v i) * (u i + v i)) l)) <=
  sqrt (Rsum (map (fun i => u i * u i) l)) + sqrt (Rsum (map (fun i => v i * v i) l)).
Proof.
  rewrite Rsum_square_of_sum.
  set (P := Rsum (map (fun i => u i * u i) l)).
  set (Q := Rsum (map (fun i => v i * v i) l)).
  set (S := Rsum (map (fun i => u i * v i) l)).
  assert (HP : 0 <= P) by (apply Rsum_nonneg; intros; exact (Rle_0_sqr _)).
  assert (HQ : 0 <= Q) by (apply Rsum_nonneg; intros; exact (Rle_0_sqr _)).
  pose proof (sqrt_pos P) as HsP. pose proof (sqrt_pos Q) as HsQ.
  assert (HS : S <= sqrt P * sqrt Q).
  { apply square_order; [now apply Rmult_le_pos |].
    replace (sqrt P * sqrt Q * (sqrt P * sqrt Q))
      with ((sqrt P * sqrt P) * (sqrt Q * sqrt Q)) by ring.
    rewrite !sqrt_sqrt by assumption.
    apply cauchy_schwarz. }
  rewrite <- (sqrt_square (sqrt P + sqrt Q)) by lra.
  apply sqrt_le_1_alt.
  replace ((sqrt P + sqrt Q) * (sqrt P + sqrt Q))
    with (sqrt P * sqrt P + 2 * (sqrt P * sqrt Q) + sqrt Q * sqrt Q) by ring.
  rewrite !sqrt_sqrt by assumption. lra.
Qed.

Lemma euclid_triangle (a b c : list R) :
  length a = length b ->
  sqrt (squared_distance a c) <= sqrt (squared_distance a b) + sqrt (squared_distance b c).
Proof.
  intros Hab. unfold squared_distance. rewrite <- Hab.
  rewrite (Rsum_ext
             (fun i => (nth i a 0 - nth i c 0) * (nth i a 0 - nth i c 0))
             (fun i => ((nth i a 0 - nth i b 0) + (nth i b 0 - nth i c 0)) *
                       ((nth i a 0 - nth i b 0) + (nth i b 0 - nth i c 0))))
    by (intros i _; ring).
  apply (root_of_sum (fun i => nth i a 0 - nth i b 0) (fun i => nth i b 0 - nth i c 0)).
Qed.

(** Entries of the identity matrix, in any arithmetic. *)
Lemma identity_entry_any {A : Arith} (n i j : nat) :
  (i < n)%nat -> (j < n)%nat ->
  elem (nth i (identity_matrix n) []) j =
  if (i =? j)%nat then f_of_int 1 else f_of_int 0.
Proof.
  intros Hi Hj. unfold identity_matrix.
  rewrite nth_map_lt with (d' := 0%nat) by (now rewrite length_seq).
  rewrite seq_nth by exact Hi.
  now rewrite elem_map_seq by exact Hj.
Qed.

Lemma Rsum_pick (g : nat -> R) (i n : nat) :
  (i < n)%nat ->
  Rsum (map (fun j => (if (i =? j)%nat then 1 else 0) * g j) (seq 0 n)) = g i.
Proof.
  intros Hi.
  replace n with (i + (1 + (n - i - 1)))%nat by lia.
  rewrite !seq_app, !map_app, !Rsum_app. cbn [seq map Rsum Nat.add].
  rewrite Nat.eqb_refl.
  rewrite (Rsum_ext _ (fun _ => 0) (seq 0 i)).
  - rewrite (Rsum_ext _ (fun _ => 0) (seq (i + 1) _)).
    + assert (Z : forall l : list nat, Rsum (map (fun _ => 0) l) = 0).
      { intros l. induction l as [| x l IH]; simpl; [reflexivity | lra]. }
      rewrite !Z. unfold Rsum. cbn [fold_right]. ring.
    + intros j Hj. apply in_seq in Hj.
      destruct (Nat.eqb_spec i j); [lia | ring].
  - intros j Hj. apply in_seq in Hj.
    destruct (Nat.eqb_spec i j); [lia | ring].
Qed.

Lemma mahalanobis_value (m : list (list R)) (a b : list R) :
  @MahalanobisDivergencePolicy arith m a b =
  sqrt (quadratic_form m a b (Nat.min (length m) (length a))).
Proof.
  unfold MahalanobisDivergencePolicy, mahalanobis_currval, c_sqrt, quadratic_form.
  to_reals. change (@dsqrt arith) with sqrt. f_equal.
  replace (if (length m <? length a)%nat then length m else length a)
    with (Nat.min (length m) (length a))
    by (destruct (Nat.ltb_spec (length m) (length a)); lia).
  set (n := Nat.min (length m) (length a)).
  rewrite (fold_Rplus_sum
             (fun i => fold_left
                         (fun currval j =>
                            currval + nth j (nth i m []) 0 * (nth j a 0 - nth j b 0))
                         (seq 0 n) 0 * (nth i a 0 - nth i b 0))).
  rewrite Rplus_0_l. apply Rsum_ext. intros i _.
  rewrite (fold_Rplus_sum (fun j => nth j (nth i m []) 0 * (nth j a 0 - nth j b 0))).
  now rewrite Rplus_0_l.
Qed.

Lemma quadratic_form_identity (a b : list R) :
  quadratic_form (@identity_matrix arith (length a)) a b (length a) =
  squared_distance a b.
Proof.
  unfold quadratic_form, squared_distance.
  apply Rsum_ext. intros i Hi. apply in_seq in Hi. f_equal.
  rewrite (Rsum_ext _ (fun j => (if (i =? j)%nat then 1 else 0) *
                                (nth j a 0 - nth j b 0)) (seq 0 (length a))).
  - apply (Rsum_pick (fun j => nth j a 0 - nth j b 0)). lia.
  - intros j Hj. apply in_seq in Hj. f_equal.
    pose proof (identity_entry_any (A := arith) (length a) i j ltac:(lia) ltac:(lia)) as E.
    transitivity (if (i =? j)%nat then @f_of_int arith 1 else @f_of_int arith 0);
      [exact E | now destruct (i =? j)%nat].
Qed.

Lemma quadratic_form_sym (m : list (list R)) (a b : list R) (n : nat) :
  quadratic_form m a b n = quadratic_form m b a n.
Proof.
  unfold quadratic_form. apply Rsum_ext. intros i _.
  rewrite (Rsum_ext _ (fun j => -1 * (nth j (nth i m []) 0 * (nth j b 0 - nth j a 0))))
    by (intros j _; ring).
  assert (E : forall (g : nat -> R) (l : list nat),
             Rsum (map (fun j => -1 * g j) l) = -1 * Rsum (map g l)).
  { intros g l. induction l as [| x l IH]; simpl; [lra | rewrite IH; lra]. }
  rewrite E. ring.
Qed.

Lemma mahalanobis_identity_value (a b : list R) :
  @MahalanobisDivergencePolicy arith (@identity_matrix arith (length a)) a b =
  sqrt (squared_distance a b).
Proof.
  rewrite mahalanobis_value. f_equal.
  rewrite <- quadratic_form_identity. f_equal.
  transitivity (Nat.min (length a) (length a)); [| apply Nat.min_id].
  f_equal. unfold identity_matrix. now rewrite length_map, length_seq.
Qed.

End ExactDistance.

(** X12: in exact arithmetic the Euclidean policy returns the square
    root of the sum of the squared componentwise differences, and is a
    distance on vectors of one length: it is never negative, it is
    symmetric, it is zero exactly when the two vectors are equal, and
    it obeys the triangle inequality. *)
Theorem euclidean_is_a_distance :
  forall a b c : list R,
    length a = length b -> length b = length c ->
    let d := @EuclideanDivergencePolicy Exact.arith in
    d a b = sqrt (ExactVocabulary.squared_distance a b) /\
    (0 <= d a b)%R /\
    d a b = d b a /\
    (d a b = 0%R <-> a = b) /\
    (d a c <= d a b + d b c)%R.
Proof.
  intros a b c Hab Hbc d. subst d.
  rewrite !ExactDistance.euclid_value.
  split; [reflexivity |]. split; [apply sqrt_pos |]. split; [| split].
  - now rewrite ExactDistance.squared_distance_sym.
  - split.
    + intros H. apply ExactDistance.squared_distance_zero; [exact Hab |].
      apply sqrt_eq_0; [apply ExactDistance.squared_distance_nonneg | exact H].
    + intros <-. rewrite ExactDistance.squared_distance_diagonal. apply sqrt_0.
  - now apply ExactDistance.euclid_triangle.
Qed.

Lemma euclidean_is_a_distance_witness :
  (@EuclideanDivergencePolicy Exact.arith [0; 0] [3; 4] <=
   @EuclideanDivergencePolicy Exact.arith [0; 0] [3; 0] +
   @EuclideanDivergencePolicy Exact.arith [3; 0] [3; 4])%R.
Proof.
  exact (proj2 (proj2 (proj2 (proj2
           (euclidean_is_a_distance [0; 0]%R [3; 0]%R [3; 4]%R eq_refl eq_refl))))).
Defined.

(** X13: in exact arithmetic the Mahalanobis policy returns the square
    root of the quadratic form [d^T M d] of the difference [d = a - b]
    over the dimensions it works on; for vectors of one length it is
    symmetric in its two arguments, whatever the matrix, and with the
    identity matrix of the dimension of the vectors it returns the
    Euclidean distance. *)
Theorem mahalanobis_exact :
  (forall (m_inv_cov : list (list R)) (a b : list R),
      @MahalanobisDivergencePolicy Exact.arith m_inv_cov a b =
      sqrt (ExactVocabulary.quadratic_form m_inv_cov a b
              (Nat.min (length m_inv_cov) (length a)))) /\
  (forall (m_inv_cov : list (list R)) (a b : list R),
      length a = length b ->
      @MahalanobisDivergencePolicy Exact.arith m_inv_cov a b =
      @MahalanobisDivergencePolicy Exact.arith m_inv_cov b a) /\
  (forall a b : list R,
      length a = length b ->
      @MahalanobisDivergencePolicy Exact.arith
        (@identity_matrix Exact.arith (length a)) a b =
      @EuclideanDivergencePolicy Exact.arith a b).
Proof.
  split; [| split].
  - exact ExactDistance.mahalanobis_value.
  - intros m a b Hlen. rewrite !ExactDistance.mahalanobis_value, <- Hlen.
    now rewrite ExactDistance.quadratic_form_sym.
  - intros a b _.
    now rewrite ExactDistance.mahalanobis_identity_value, ExactDistance.euclid_value.
Qed.

Lemma mahalanobis_exact_witness :
  @MahalanobisDivergencePolicy Exact.arith (@identity_matrix Exact.arith 2)
    [0; 0]%R [3; 4]%R =
  @EuclideanDivergencePolicy Exact.arith [0; 0]%R [3; 4]%R.
Proof.
  exact (proj2 (proj2 mahalanobis_exact) [0; 0]%R [3; 4]%R eq_refl).
Defined.

(** ** The Jensen-Shannon policy in exact arithmetic: range and scaling *)

Module ExactJSRange.

Import Exact ExactSpec ExactFacts ExactJS ExactJSPolicy ExactJSResults.

Local Open Scope R_scope.

Lemma Rsum_scaled (v : list R) :
  Rsum v <> 0 -> Rsum (map (scaled v) (seq 0 (length v))) = 1.
Proof.
  intros H. rewrite <- (Rsum_normalize v H). now rewrite normalize_by_index.
Qed.

Lemma Rsum_const_mult {X : Type} (c : R) (g : X -> R) (l : list X) :
  Rsum (map (fun i => c * g i) l) = c * Rsum (map g l).
Proof. induction l as [| i l IH]; simpl; [lra | rewrite IH; lra]. Qed.

Lemma Rsum_le {X : Type} (g h : X -> R) (l : list X) :
  (forall i, In i l -> g i <= h i) -> Rsum (map g l) <= Rsum (map h l).
Proof.
  induction l as [| i l IH]; intros H; simpl; [lra |].
  pose proof (H i (or_introl eq_refl)).
  assert (Rsum (map g l) <= Rsum (map h l)) by (apply IH; intros; apply H; now right).
  lra.
Qed.

(** One term is at most [x * ln 2], the mean being at least half of [x]. *)
Lemma kl_term_upper (x y : R) :
  0 <= x -> 0 <= y -> kl_term (x, 1 / 2 * (x + y)) <= x * ln 2.
Proof.
  intros Hx Hy. unfold kl_term. cbn [fst snd].
  assert (Hln2 : 0 < ln 2) by (rewrite <- ln_1; apply ln_increasing; lra).
  destruct (Rltb 0 x) eqn:E.
  - apply Rltb_true in E.
    apply Rmult_le_compat_l; [lra |].
    assert (Hq : 0 < x / (1 / 2 * (x + y))).
    { apply Rdiv_lt_0_compat; lra. }
    assert (Hle : x / (1 / 2 * (x + y)) <= 2).
    { apply Rmult_le_reg_r with (1 / 2 * (x + y)); [lra |].
      unfold Rdiv at 1. rewrite Rmult_assoc, Rinv_l by lra. lra. }
    destruct Hle as [Hlt | Heq].
    + left. now apply ln_increasing.
    + right. now rewrite Heq.
  - apply Rltb_false in E. nra.
Qed.

Lemma js_formula_upper (a b : list R) :
  length a = length b ->
  (forall x, In x a -> 0 <= x) -> (forall x, In x b -> 0 <= x) ->
  Rsum a <> 0 -> Rsum b <> 0 -> js_formula a b <= ln 2.
Proof.
  intros Hlen Ha Hb Hna Hnb.
  rewrite js_formula_by_index by exact Hlen.
  assert (Hsa : 0 < Rsum a).
  { assert (0 <= Rsum a) by (rewrite <- (map_id a); apply Rsum_nonneg; exact Ha). lra. }
  assert (Hsb : 0 < Rsum b).
  { assert (0 <= Rsum b) by (rewrite <- (map_id b); apply Rsum_nonneg; exact Hb). lra. }
  assert (Hbound : Rsum (map (index_term a b) (seq 0 (length a))) <=
                   Rsum (map (fun i => ln 2 * (scaled a i + scaled b i))
                             (seq 0 (length a)))).
  { apply Rsum_le. intros i Hi. apply in_seq in Hi. unfold index_term.
    assert (Hpa : 0 <= scaled a i).
    { unfold scaled. apply Rmult_le_pos; [apply Ha, nth_In; lia |].
      apply Rlt_le, Rinv_0_lt_compat. lra. }
    assert (Hpb : 0 <= scaled b i).
    { unfold scaled. apply Rmult_le_pos; [apply Hb, nth_In; lia |].
      apply Rlt_le, Rinv_0_lt_compat. lra. }
    pose proof (kl_term_upper (scaled a i) (scaled b i) Hpa Hpb) as H1.
    pose proof (kl_term_upper (scaled b i) (scaled a i) Hpb Hpa) as H2.
    replace (scaled b i + scaled a i) with (scaled a i + scaled b i) in H2 by lra.
    lra. }
  rewrite Rsum_const_mult, <- Rsum_plus in Hbound.
  rewrite (Rsum_scaled a Hna) in Hbound.
  rewrite Hlen in Hbound at 2. rewrite (Rsum_scaled b Hnb) in Hbound.
  lra.
Qed.

Lemma js_upper (a b : list R) : length a = length b -> JS a b <= ln 2.
Proof.
  intros Hlen.
  assert (Hln2 : 0 < ln 2) by (rewrite <- ln_1; apply ln_increasing; lra).
  destruct (@any_negative arith a b (length a)) eqn:E.
  - rewrite (js_any_negative a b E). lra.
  - apply (no_negative_elements a b Hlen) in E. destruct E as [Ha Hb].
    destruct (js_no_negative a b Hlen Ha Hb) as [Z1 F1].
    destruct (Req_dec_T (Rsum a) 0) as [Ea | Ea]; [rewrite Z1; auto; lra |].
    destruct (Req_dec_T (Rsum b) 0) as [Eb | Eb]; [rewrite Z1; auto; lra |].
    rewrite F1 by assumption. now apply js_formula_upper.
Qed.

Lemma js_diagonal (a : list R) : JS a a = 0.
Proof.
  destruct (@any_negative arith a a (length a)) eqn:E.
  - now apply js_any_negative.
  - apply (no_negative_elements a a eq_refl) in E. destruct E as [Ha _].
    destruct (js_no_negative a a eq_refl Ha Ha) as [Z1 F1].
    destruct (Req_dec_T (Rsum a) 0) as [Ea | Ea]; [apply Z1; auto |].
    rewrite F1 by assumption.
    rewrite js_formula_by_index by reflexivity.
    rewrite (Rsum_ext _ (fun _ => 0)).
    + assert (Z : forall l : list nat, Rsum (map (fun _ => 0) l) = 0).
      { intros l. induction l as [| x l IH]; simpl; [reflexivity | lra]. }
      rewrite Z. lra.
    + intros i _. unfold index_term, kl_term. cbn [fst snd].
      destruct (Rltb 0 (scaled a i)) eqn:Ei; [| lra].
      apply Rltb_true in Ei.
      replace (scaled a i / (1 / 2 * (scaled a i + scaled a i))) with 1
        by (field; lra).
      rewrite ln_1. lra.
Qed.

(** *** Scaling *)

Lemma Rsum_scale (c : R) (v : list R) : Rsum (map (Rmult c) v) = c * Rsum v.
Proof. induction v as [| x v IH]; simpl; [lra | rewrite IH; lra]. Qed.

Lemma normalize_scale (c : R) (v : list R) :
  c <> 0 -> Rsum v <> 0 -> normalize (map (Rmult c) v) = normalize v.
Proof.
  intros Hc Hv. unfold normalize. rewrite map_map, Rsum_scale.
  apply map_ext. intros x. field. split; assumption.
Qed.

Lemma scale_nonneg (c : R) (v : list R) :
  0 < c -> ((forall x, In x (map (Rmult c) v) -> 0 <= x) <-> (forall x, In x v -> 0 <= x)).
Proof.
  intros Hc. split; intros H x Hx.
  - assert (0 <= c * x) by (apply H, in_map, Hx). nra.
  - apply in_map_iff in Hx. destruct Hx as (y & <- & Hy).
    apply Rmult_le_pos; [lra | now apply H].
Qed.

Lemma js_scale (c d : R) (a b : list R) :
  0 < c -> 0 < d -> length a = length b ->
  JS (map (Rmult c) a) (map (Rmult d) b) = JS a b.
Proof.
  intros Hc Hd Hlen.
  assert (Hlen' : length (map (Rmult c) a) = length (map (Rmult d) b))
    by (now rewrite !length_map).
  destruct (@any_negative arith a b (length a)) eqn:E.
  - rewrite (js_any_negative a b E).
    destruct (@any_negative arith (map (Rmult c) a) (map (Rmult d) b)
                (length (map (Rmult c) a))) eqn:E'; [now apply js_any_negative |].
    exfalso.
    apply (no_negative_elements _ _ Hlen') in E'. destruct E' as [Ha Hb].
    pose proof (proj1 (scale_nonneg c a Hc) Ha) as Ha0.
    pose proof (proj1 (scale_nonneg d b Hd) Hb) as Hb0.
    assert (F : @any_negative arith a b (length a) = false)
      by (apply (no_negative_elements a b Hlen); auto).
    congruence.
  - apply (no_negative_elements a b Hlen) in E. destruct E as [Ha Hb].
    pose proof (proj2 (scale_nonneg c a Hc) Ha) as Ha'.
    pose proof (proj2 (scale_nonneg d b Hd) Hb) as Hb'.
    destruct (js_no_negative a b Hlen Ha Hb) as [Z1 F1].
    destruct (js_no_negative _ _ Hlen' Ha' Hb') as [Z2 F2].
    rewrite !Rsum_scale in Z2, F2.
    destruct (Req_dec_T (Rsum a) 0) as [Ea | Ea].
    { rewrite Z1, Z2; auto. left. rewrite Ea. ring. }
    destruct (Req_dec_T (Rsum b) 0) as [Eb | Eb].
    { rewrite Z1, Z2; auto. right. rewrite Eb. ring. }
    rewrite F1, F2 by (assumption || nra).
    unfold js_formula. cbv zeta.
    now rewrite !normalize_scale by (assumption || lra).
Qed.

End ExactJSRange.

(** X14: in exact arithmetic with the natural logarithm, for vectors
    of one length, the Jensen-Shannon policy returns at most [ln 2];
    it returns [0] when its two arguments are the same vector; and its
    result does not change when either argument is multiplied by a
    positive factor, so that the inputs need not be normalised. *)
Theorem jensen_shannon_range_and_scaling :
  forall a b : list R,
    length a = length b ->
    let js := @JensonShannonDivergencePolicy Exact.arith ln in
    (js a b <= ln 2)%R /\
    js a a = 0%R /\
    (forall c d : R, (0 < c)%R -> (0 < d)%R ->
       js (map (Rmult c) a) (map (Rmult d) b) = js a b).
Proof.
  intros a b Hlen js. subst js. split; [| split].
  - now apply ExactJSRange.js_upper.
  - apply ExactJSRange.js_diagonal.
  - intros c d Hc Hd. now apply ExactJSRange.js_scale.
Qed.

Lemma jensen_shannon_range_and_scaling_witness :
  (@JensonShannonDivergencePolicy Exact.arith ln [1; 3] [2; 2] <= ln 2)%R /\
  @JensonShannonDivergencePolicy Exact.arith ln
    (map (Rmult 2) [1; 3]%R) (map (Rmult 5) [2; 2]%R) =
  @JensonShannonDivergencePolicy Exact.arith ln [1; 3]%R [2; 2]%R.
Proof.
  pose proof (jensen_shannon_range_and_scaling [1; 3]%R [2; 2]%R eq_refl) as H.
  cbv zeta in H. destruct H as (H1 & _ & H3).
  split; [exact H1 | apply H3; lra].
Defined.

(** ** The engine in exact arithmetic *)

(** The engine uses the policy, the cumulative matrix and the number of
    elements only to compute the divergence of a boundary vector. *)
Section Congruence.

Context {A : Arith}.

Variables divergence1 divergence2 : vec -> vec -> flt.
Variables cumulative1 cumulative2 : list vec.
Variables num_element1 num_element2 : nat.

Hypothesis same_divergences :
  forall wb, frame_divergence divergence1 cumulative1 num_element1 wb =
             frame_divergence divergence2 cumulative2 num_element2 wb.

Lemma frame_step_ext (boundaries : list (list Z)) (t : nat) (st : pass_state) (i : nat) :
  frame_step divergence1 cumulative1 num_element1 boundaries t st i =
  frame_step divergence2 cumulative2 num_element2 boundaries t st i.
Proof. unfold frame_step. now rewrite same_divergences. Qed.

Lemma timescale_pass_ext (num_frame : nat) (wbs : list (list (list Z)))
    (cm : list vec) (t : nat) :
  timescale_pass divergence1 cumulative1 num_element1 num_frame wbs cm t =
  timescale_pass divergence2 cumulative2 num_element2 num_frame wbs cm t.
Proof.
  unfold timescale_pass.
  now rewrite (fold_left_ext_in _ _ _ _ (fun st i _ => frame_step_ext _ t st i)).
Qed.

Lemma passes_ext (num_frame : nat) (wbs : list (list (list Z)))
    (l : list nat) (cm : list vec) :
  fold_left (timescale_pass divergence1 cumulative1 num_element1 num_frame wbs) l cm =
  fold_left (timescale_pass divergence2 cumulative2 num_element2 num_frame wbs) l cm.
Proof.
  apply fold_left_ext_in. intros cm' t _. apply timescale_pass_ext.
Qed.

End Congruence.

Lemma calculate_ext {A : Arith} (sc : StructuralChange)
    (divergence1 divergence2 : vec -> vec -> flt) (input1 input2 : list vec) :
  length input1 = length input2 ->
  (forall wb,
      frame_divergence divergence1 (cumulative_matrix input1)
        (length (nth 0 input1 [])) wb =
      frame_divergence divergence2 (cumulative_matrix input2)
        (length (nth 0 input2 [])) wb) ->
  calculate sc divergence1 input1 = calculate sc divergence2 input2.
Proof.
  intros Hlen H. unfold calculate. rewrite <- Hlen.
  destruct (length input1 =? 0)%nat; [reflexivity |].
  now apply passes_ext.
Qed.

Module ExactEngine.

Import Exact ExactSpec ExactFacts ExactJS ExactJSPolicy ExactJSResults ExactVocabulary.

Local Open Scope R_scope.

Lemma exact_fadd_assoc (x y z : @flt arith) :
  @fadd arith (@fadd arith x y) z = @fadd arith x (@fadd arith y z).
Proof. to_reals. ring. Qed.

Lemma exact_fadd_0_l (x : @flt arith) : @fadd arith (@f0 arith) x = x.
Proof. to_reals. ring. Qed.

Lemma exact_fadd_0_r (x : @flt arith) : @fadd arith x (@f0 arith) = x.
Proof. to_reals. ring. Qed.

Lemma exact_fsub_fadd (x y : @flt arith) : @fsub arith (@fadd arith x y) x = y.
Proof. to_reals. ring. Qed.

(** The difference of two rows of the cumulative matrix, divided by the
    number of frames between them, is the mean of these frames. *)
Lemma exact_window_mean (input_vector : list (@vec arith)) (j k : nat) :
  (j <= k <= length input_vector)%nat ->
  @window_mean arith (cumulative_matrix input_vector)
    (length (nth 0 input_vector [])) (Z.of_nat k) (Z.of_nat j) (Z.of_nat (k - j)) =
  @frames_mean arith (length (nth 0 input_vector [])) (frames_between input_vector j k).
Proof.
  intros Hjk. unfold window_mean, frames_mean, cum_row.
  set (ne := length (nth 0 input_vector [])).
  apply map_ext_in. intros e He. apply in_seq in He.
  rewrite !Nat2Z.id.
  assert (Hlen : length (frames_between input_vector j k) = (k - j)%nat).
  { unfold frames_between. rewrite length_firstn, length_skipn. lia. }
  rewrite Hlen. f_equal.
  rewrite !cumulative_matrix_row by lia. fold ne.
  rewrite (firstn_split_between input_vector j k) by lia.
  pose proof (frames_sum_difference (A := arith) exact_fadd_assoc exact_fadd_0_l
                exact_fadd_0_r exact_fsub_fadd ne (firstn j input_vector)
                (firstn (k - j) (skipn j input_vector))) as H.
  apply (f_equal (fun v => @elem arith v e)) in H.
  unfold vsub in H. rewrite (elem_map_seq (A := arith)) in H by lia.
  exact H.
Qed.

(** The boundary vector of a frame whose two windows are full. *)
Lemma normal_boundary (T N t i : nat) :
  (t < T)%nat -> (t < 32)%nat -> (Z.of_nat N < 2 ^ 31)%Z ->
  (half_width t <= i)%nat -> (i + half_width t <= N)%nat ->
  boundary_at (init_window_boundaries T N) t i =
  [Z.of_nat (i - half_width t); Z.of_nat i; Z.of_nat i; Z.of_nat (i + half_width t); 0%Z].
Proof.
  intros HtT Ht HN Hlo Hhi.
  pose proof (half_width_pos t) as Hpos. pose proof (half_width_pow2 t) as Hw.
  assert (Hle : (2 ^ Z.of_nat t <= 2 ^ 31)%Z) by (apply Z.pow_le_mono_r; lia).
  rewrite boundary_at_init by lia.
  rewrite window_width_pow2 by lia.
  rewrite window_boundary_in_range by lia.
  rewrite <- Hw.
  replace (Z.max 0 (Z.of_nat i - Z.of_nat (half_width t)))
    with (Z.of_nat (i - half_width t)) by lia.
  replace (Z.min (Z.of_nat N) (Z.of_nat i + Z.of_nat (half_width t)))
    with (Z.of_nat (i + half_width t)) by lia.
  do 4 f_equal. unfold status_of_sizes.
  replace (Z.of_nat i - Z.of_nat (i - half_width t) =? Z.of_nat (half_width t))%Z
    with true by (symmetry; apply Z.eqb_eq; lia).
  replace (Z.of_nat (i + half_width t) - Z.of_nat i =? Z.of_nat (half_width t))%Z
    with true by (symmetry; apply Z.eqb_eq; lia).
  reflexivity.
Qed.

Lemma normal_divergence (sc : StructuralChange)
    (divergence : @vec arith -> @vec arith -> @flt arith)
    (input_vector : list (@vec arith)) (t i : nat) :
  (Z.of_nat (length input_vector) < 2 ^ 31)%Z ->
  (t < num_dim_of sc)%nat -> (t < 32)%nat ->
  (half_width t <= i)%nat -> (i + half_width t <= length input_vector)%nat ->
  divergence_at sc divergence input_vector t i =
  divergence
    (@frames_mean arith (length (nth 0 input_vector []))
       (frames_between input_vector (i - half_width t) i))
    (@frames_mean arith (length (nth 0 input_vector []))
       (frames_between input_vector i (i + half_width t))).
Proof.
  intros HN HtT Ht Hlo Hhi.
  pose proof (half_width_pos t) as Hpos.
  unfold divergence_at. rewrite normal_boundary by assumption.
  unfold frame_divergence, entry. cbn [nth].
  replace (to_int (Z.of_nat i - Z.of_nat (i - half_width t)))
    with (Z.of_nat (half_width t)) by (rewrite to_int_small; lia).
  f_equal.
  - replace (half_width t) with (i - (i - half_width t))%nat at 2 by lia.
    apply exact_window_mean. lia.
  - replace (half_width t) with (i + half_width t - i)%nat at 2 by lia.
    apply exact_window_mean. lia.
Qed.

End ExactEngine.

(** X15: in exact arithmetic, at a time scale [t < 32] of half-width
    [w = 2^t] and for fewer than [2^31] frames, a frame [i] with
    [w <= i] and [i + w <= N] is normal, and the value computed for it
    is the policy applied to the mean of the [w] frames before it,
    [[i-w, i)], and the mean of the [w] frames from it on,
    [[i, i+w)]. *)
Theorem normal_frame_compares_window_means :
  forall (sc : StructuralChange) (divergence : list R -> list R -> R)
         (input_vector : list (list R)) (t i : nat),
    Z.of_nat (length input_vector) < 2 ^ 31 ->
    (t < num_dim_of sc)%nat -> (t < 32)%nat ->
    (half_width t <= i)%nat -> (i + half_width t <= length input_vector)%nat ->
    let num_element := length (nth 0 input_vector []) in
    @status Exact.arith sc input_vector t i = NORMAL /\
    @divergence_at Exact.arith sc divergence input_vector t i =
      divergence
        (@frames_mean Exact.arith num_element
           (@frames_between Exact.arith input_vector (i - half_width t) i))
        (@frames_mean Exact.arith num_element
           (@frames_between Exact.arith input_vector i (i + half_width t))).
Proof.
  intros sc divergence input_vector t i HN HtT Ht Hlo Hhi num_element.
  split.
  - unfold status.
    exact (f_equal (fun wb => entry wb 4)
             (ExactEngine.normal_boundary (num_dim_of sc) (length input_vector) t i
                HtT Ht HN Hlo Hhi)).
  - now apply ExactEngine.normal_divergence.
Qed.

Lemma normal_frame_compares_window_means_witness :
  let input_vector : list (list R) := [[1]; [1]; [5]; [5]]%R in
  @divergence_at Exact.arith {| m_num_dim := 1 |} (@EuclideanDivergencePolicy Exact.arith)
    input_vector 0 2 =
  @EuclideanDivergencePolicy Exact.arith
    (@frames_mean Exact.arith 1 [[1%R]]) (@frames_mean Exact.arith 1 [[5%R]]).
Proof.
  intros input_vector.
  refine (proj2 (normal_frame_compares_window_means {| m_num_dim := 1 |}
                   (@EuclideanDivergencePolicy Exact.arith) input_vector 0 2 _ _ _ _ _));
    vm_compute; (reflexivity || lia).
Defined.

(** ** Scaled and constant inputs in exact arithmetic *)

Module ExactScaling.

Import Exact ExactSpec ExactFacts ExactJS ExactJSPolicy ExactJSResults ExactVocabulary.

Local Open Scope R_scope.

Lemma nth_scale (c : R) (v : list R) (i : nat) :
  nth i (map (Rmult c) v) 0 = c * nth i v 0.
Proof.
  rewrite <- (Rmult_0_r c) at 1. apply map_nth.
Qed.

Lemma accumulate_scale (c : R) (num_element : nat) (cv frame : list R) :
  @accumulate arith num_element (map (Rmult c) cv) (map (Rmult c) frame) =
  map (Rmult c) (@accumulate arith num_element cv frame).
Proof.
  unfold accumulate. rewrite map_map. apply map_ext. intros e.
  to_reals. rewrite !nth_scale. ring.
Qed.

Lemma cumulative_rows_scale (c : R) (num_element : nat) (rest : list (list R)) :
  forall cv : list R,
    @cumulative_rows arith num_element (map (Rmult c) cv) (scale c rest) =
    map (map (Rmult c)) (@cumulative_rows arith num_element cv rest).
Proof.
  induction rest as [| frame rest IH]; intros cv; [reflexivity |].
  cbn [scale map cumulative_rows].
  rewrite accumulate_scale. f_equal. apply IH.
Qed.

Lemma first_frame_scale (c : R) (input_vector : list (list R)) :
  length (nth 0 (scale c input_vector) []) = length (nth 0 input_vector []).
Proof.
  destruct input_vector as [| first rest]; [reflexivity |].
  cbn [scale map nth]. apply length_map.
Qed.

Lemma cumulative_matrix_scale (c : R) (input_vector : list (list R)) :
  @cumulative_matrix arith (scale c input_vector) =
  map (map (Rmult c)) (@cumulative_matrix arith input_vector).
Proof.
  unfold cumulative_matrix. to_reals.
  rewrite (first_frame_scale c input_vector).
  set (ne := length (nth 0 input_vector [])).
  assert (Hz : map (Rmult c) (repeat 0 ne) = repeat 0 ne).
  { rewrite map_repeat. f_equal. ring. }
  cbn [map]. rewrite Hz. f_equal.
  rewrite <- Hz at 1. apply cumulative_rows_scale.
Qed.

Lemma window_mean_scale (c : R) (cumulative : list (list R)) (num_element : nat)
    (hi lo n : Z) :
  @window_mean arith (map (map (Rmult c)) cumulative) num_element hi lo n =
  map (Rmult c) (@window_mean arith cumulative num_element hi lo n).
Proof.
  unfold window_mean, cum_row. rewrite map_map. apply map_ext. intros e.
  to_reals.
  assert (Hrow : forall k, nth k (map (map (Rmult c)) cumulative) [] =
                           map (Rmult c) (nth k cumulative [])).
  { intros k. exact (map_nth (map (Rmult c)) cumulative [] k). }
  rewrite !Hrow, !nth_scale.
  unfold Rdiv. ring.
Qed.

Lemma length_window_mean (cumulative : list (list R)) (num_element : nat) (hi lo n : Z) :
  length (@window_mean arith cumulative num_element hi lo n) = num_element.
Proof. unfold window_mean. now rewrite length_map, length_seq. Qed.

Lemma js_frame_divergence_scale (c : R) (input_vector : list (list R)) (wb : list Z) :
  0 < c ->
  @frame_divergence arith (@JensonShannonDivergencePolicy arith ln)
    (@cumulative_matrix arith (scale c input_vector))
    (length (nth 0 (scale c input_vector) [])) wb =
  @frame_divergence arith (@JensonShannonDivergencePolicy arith ln)
    (@cumulative_matrix arith input_vector)
    (length (nth 0 input_vector [])) wb.
Proof.
  intros Hc. unfold frame_divergence.
  rewrite cumulative_matrix_scale, first_frame_scale, !window_mean_scale.
  apply ExactJSRange.js_scale; [exact Hc | exact Hc |].
  now rewrite !length_window_mean.
Qed.

End ExactScaling.

(** X16: in exact arithmetic the overload of [calculate] without a
    policy, which uses the Jensen-Shannon policy, returns the same
    output when every value of every input frame is multiplied by one
    positive factor. *)
Theorem default_calculate_ignores_gain :
  forall (sc : StructuralChange) (input_vector : list (list R)) (c : R),
    (0 < c)%R ->
    @calculate_default Exact.arith ln sc (ExactVocabulary.scale c input_vector) =
    @calculate_default Exact.arith ln sc input_vector.
Proof.
  intros sc input_vector c Hc. unfold calculate_default.
  apply (calculate_ext (A := Exact.arith)).
  - unfold ExactVocabulary.scale. apply length_map.
  - intros wb. now apply ExactScaling.js_frame_divergence_scale.
Qed.

Lemma default_calculate_ignores_gain_witness :
  @calculate_default Exact.arith ln {| m_num_dim := 2 |}
    (ExactVocabulary.scale 3 [[1; 2]; [2; 1]; [0; 4]; [1; 1]]%R) =
  @calculate_default Exact.arith ln {| m_num_dim := 2 |}
    [[1; 2]; [2; 1]; [0; 4]; [1; 1]]%R.
Proof.
  apply default_calculate_ignores_gain. lra.
Defined.

Module ExactConstant.

Import Exact ExactSpec ExactFacts ExactJS ExactJSPolicy ExactJSResults ExactVocabulary.

Local Open Scope R_scope.

Lemma firstn_repeat {X : Type} (x : X) (k n : nat) :
  (k <= n)%nat -> firstn k (repeat x n) = repeat x k.
Proof.
  revert n. induction k as [| k IH]; intros n H; [reflexivity |].
  destruct n as [| n]; [lia |]. cbn [repeat firstn]. f_equal. apply IH. lia.
Qed.

Lemma skipn_repeat {X : Type} (x : X) (j n : nat) :
  skipn j (repeat x n) = repeat x (n - j).
Proof.
  revert n. induction j as [| j IH]; intros n; [now rewrite Nat.sub_0_r |].
  destruct n as [| n]; [reflexivity |]. cbn [repeat skipn Nat.sub]. apply IH.
Qed.

Lemma frames_between_repeat (frame : list R) (N j k : nat) :
  (j <= k <= N)%nat ->
  @frames_between arith (repeat frame N) j k = repeat frame (k - j).
Proof.
  intros H. unfold frames_between. rewrite skipn_repeat. apply firstn_repeat. lia.
Qed.

Lemma sum_of_copies_from (x : R) (w : nat) (s : R) :
  fold_left Rplus (repeat x w) s = s + INR w * x.
Proof.
  revert s. induction w as [| w IH]; intros s; [simpl; ring |].
  cbn [repeat fold_left]. rewrite IH, S_INR. ring.
Qed.

Lemma sum_of_copies (x : R) (w : nat) :
  fold_left Rplus (repeat x w) 0 = INR w * x.
Proof. rewrite sum_of_copies_from. ring. Qed.

(** The mean of copies of one frame is that frame. *)
Lemma frames_mean_repeat (frame : list R) (w : nat) :
  (0 < w)%nat ->
  @frames_mean arith (length frame) (repeat frame w) = frame.
Proof.
  intros Hw. unfold frames_mean, frames_sum.
  transitivity (map (fun e => nth e frame 0) (seq 0 (length frame)));
    [| apply map_nth_seq].
  apply map_ext_in. intros e He. apply in_seq in He.
  rewrite (elem_map_seq (A := arith)) by lia.
  unfold column. rewrite map_repeat, repeat_length. to_reals.
  rewrite sum_of_copies, <- INR_IZR_INZ.
  field. apply not_0_INR. lia.
Qed.

Lemma mean_of_zeros {X : Type} (l : list X) :
  @mean_of arith (map (fun _ => 0) l) = 0.
Proof.
  destruct l as [| x l]; [reflexivity |].
  rewrite map_const. cbn [length repeat mean_of]. to_reals.
  change (0 :: repeat 0 (length l)) with (repeat 0 (S (length l))).
  rewrite (sum_of_copies 0). unfold Rdiv. ring.
Qed.

Lemma substituted_zero (v : R) :
  v = 0 \/ v = @LEFT arith \/ v = @RIGHT arith -> @substituted arith 0 v = 0.
Proof.
  unfold substituted. to_reals.
  change (@feqb arith) with Reqb. change (@f_of_int arith) with IZR.
  intros H.
  destruct (Reqb v (@RIGHT arith)) eqn:ER; [ring |].
  destruct (Reqb v (@LEFT arith)) eqn:EL; [ring |].
  destruct H as [H | [H | H]]; [exact H | |].
  - apply (proj2 (Reqb_true v (@LEFT arith))) in H. congruence.
  - apply (proj2 (Reqb_true v (@RIGHT arith))) in H. congruence.
Qed.

Lemma constant_input (sc : StructuralChange)
    (divergence : @vec arith -> @vec arith -> @flt arith)
    (frame : @vec arith) (N : nat) :
  (Z.of_nat N < 2 ^ 31)%Z -> (num_dim_of sc <= 32)%nat ->
  divergence frame frame = @f0 arith ->
  @calculate arith sc divergence (repeat frame N) =
  repeat (repeat (@f0 arith) (num_dim_of sc)) N.
Proof.
  intros HN HT Hdiag.
  set (input_vector := repeat frame N).
  assert (HlenN : length input_vector = N) by apply repeat_length.
  apply (rect_ext (A := arith)) with (N := N) (T := num_dim_of sc).
  - rewrite <- HlenN. apply (rect_calculate (A := arith)).
  - apply (rect_repeat (A := arith)).
  - intros i t Hi Ht.
    assert (Hfirst : length (nth 0 input_vector []) = length frame).
    { subst input_vector. destruct N as [| N]; [lia | reflexivity]. }
    assert (Hdiv : forall j,
              (j < N)%nat ->
              @status arith sc input_vector t j = NORMAL ->
              @divergence_at arith sc divergence input_vector t j = @f0 arith).
    { intros j Hj Hs. unfold status in Hs.
      rewrite HlenN, status_by_index in Hs by (assumption || lia).
      pose proof (half_width_pos t) as Hpos.
      destruct (Nat.leb_spec (half_width t) j);
        destruct (Nat.leb_spec (j + half_width t) N); try discriminate Hs.
      rewrite ExactEngine.normal_divergence by (rewrite ?HlenN; assumption || lia).
      rewrite Hfirst. subst input_vector.
      rewrite !frames_between_repeat by lia.
      rewrite !frames_mean_repeat by lia.
      exact Hdiag. }
    assert (Hmean : @meanDiv arith sc divergence input_vector t = @f0 arith).
    { unfold meanDiv.
      rewrite (map_ext_in _ (fun _ => @f0 arith)).
      - apply mean_of_zeros.
      - intros j Hj. unfold normal_frames in Hj. apply filter_In in Hj.
        destruct Hj as [Hj Hs]. apply in_seq in Hj. apply Z.eqb_eq in Hs.
        apply Hdiv; [rewrite <- HlenN; lia | exact Hs]. }
    transitivity (@f0 arith).
    + pose proof (output_slot (A := arith) sc divergence input_vector t i) as Hslot.
      unfold output in Hslot. rewrite Hslot by (rewrite ?HlenN; assumption).
      rewrite Hmean. apply substituted_zero.
      destruct (Z.eqb_spec (@status arith sc input_vector t i) 0) as [E0 | _];
        [left; now apply Hdiv |].
      destruct (@status arith sc input_vector t i =? -1)%Z;
        [right; left; reflexivity |].
      destruct (@status arith sc input_vector t i =? -2)%Z;
        [right; right; reflexivity | left; reflexivity].
    + symmetry. unfold get_out, elem.
      rewrite nth_repeat_lt by exact Hi. now rewrite nth_repeat_lt by exact Ht.
Qed.

End ExactConstant.

(** X17: in exact arithmetic, for an input of fewer than [2^31] frames
    that are all the same frame, at most 32 time scales, and a policy
    that returns [0] when it compares this frame with itself, every
    output value is [0]: no structural change is reported for a
    constant input. *)
Theorem constant_input_gives_zeros :
  forall (sc : StructuralChange) (divergence : list R -> list R -> R)
         (frame : list R) (N : nat),
    Z.of_nat N < 2 ^ 31 -> (num_dim_of sc <= 32)%nat ->
    divergence frame frame = 0%R ->
    @calculate Exact.arith sc divergence (repeat frame N) =
    repeat (repeat 0%R (num_dim_of sc)) N.
Proof. exact ExactConstant.constant_input. Qed.

Lemma constant_input_gives_zeros_witness :
  @calculate Exact.arith {| m_num_dim := 2 |} (@EuclideanDivergencePolicy Exact.arith)
    (repeat [1; 2]%R 5) =
  repeat (repeat 0%R 2) 5.
Proof.
  refine (constant_input_gives_zeros {| m_num_dim := 2 |}
            (@EuclideanDivergencePolicy Exact.arith) [1; 2]%R 5 _ _ _).
  - reflexivity.
  - vm_compute. lia.
  - apply ExactDistance.euclid_diagonal.
Defined.

(** ** Frames of different lengths *)

Section FrameLengths.

Context {A : Arith}.

Lemma accumulate_firstn (num_element : nat) (cv frame : vec) :
  accumulate num_element cv (firstn num_element frame) = accumulate num_element cv frame.
Proof.
  unfold accumulate. apply map_ext_in. intros e He. apply in_seq in He.
  now rewrite elem_firstn by lia.
Qed.

Lemma cumulative_rows_firstn (num_element : nat) (rest : list vec) :
  forall cv : vec,
    cumulative_rows num_element cv (map (firstn num_element) rest) =
    cumulative_rows num_element cv rest.
Proof.
  induction rest as [| frame rest IH]; intros cv; [reflexivity |].
  cbn [map cumulative_rows]. rewrite accumulate_firstn. f_equal. apply IH.
Qed.

Lemma first_frame_firstn (input_vector : list vec) :
  length (nth 0 (map (firstn (length (nth 0 input_vector []))) input_vector) []) =
  length (nth 0 input_vector []).
Proof.
  destruct input_vector as [| first rest]; [reflexivity |].
  cbn [map nth]. rewrite length_firstn. lia.
Qed.

Lemma cumulative_matrix_firstn (input_vector : list vec) :
  cumulative_matrix (map (firstn (length (nth 0 input_vector []))) input_vector) =
  cumulative_matrix input_vector.
Proof.
  unfold cumulative_matrix. rewrite first_frame_firstn.
  f_equal. apply cumulative_rows_firstn.
Qed.

End FrameLengths.

(** X18: only the length of the first frame counts: the values of a
    later frame beyond that length are never read, so cutting every
    frame to the length of the first one does not change the result,
    in any arithmetic and for any policy. *)
Theorem longer_frames_are_cut :
  forall (A : Arith) (sc : StructuralChange) (divergence : vec -> vec -> flt)
         (input_vector : list vec),
    calculate sc divergence
      (map (firstn (length (nth 0 input_vector []))) input_vector) =
    calculate sc divergence input_vector.
Proof.
  intros A sc divergence input_vector.
  apply calculate_ext; [apply length_map |].
  intros wb.
  exact (f_equal2 (fun cumulative num_element =>
                     frame_divergence divergence cumulative num_element wb)
           (cumulative_matrix_firstn input_vector) (first_frame_firstn input_vector)).
Qed.

(** ** The output as a function of the divergences of the normal frames *)

Lemma calculate_ext_normal {A : Arith} (sc : StructuralChange)
    (divergence1 divergence2 : vec -> vec -> flt) (input1 input2 : list vec) :
  length input1 = length input2 ->
  Z.of_nat (length input1) < 2 ^ 31 ->
  (forall t i, (t < num_dim_of sc)%nat -> (i < length input1)%nat ->
     status sc input1 t i = NORMAL ->
     divergence_at sc divergence1 input1 t i = divergence_at sc divergence2 input2 t i) ->
  calculate sc divergence1 input1 = calculate sc divergence2 input2.
Proof.
  intros Hlen HN H.
  assert (Hst : forall t i, status sc input2 t i = status sc input1 t i)
    by (intros t i; unfold status; now rewrite Hlen).
  apply rect_ext with (N := length input1) (T := num_dim_of sc).
  - apply rect_calculate.
  - rewrite Hlen. apply rect_calculate.
  - intros i t Hi Ht.
    pose proof (output_slot sc divergence1 input1 t i HN Hi Ht) as E1.
    pose proof (output_slot sc divergence2 input2 t i) as E2.
    rewrite <- Hlen in E2. specialize (E2 HN Hi Ht).
    unfold output in E1, E2. rewrite E1, E2, !Hst.
    assert (Hmean : meanDiv sc divergence1 input1 t = meanDiv sc divergence2 input2 t).
    { unfold meanDiv.
      assert (Hnf : normal_frames sc input2 t = normal_frames sc input1 t)
        by (unfold normal_frames; rewrite <- Hlen;
            apply filter_ext; intros j; now rewrite Hst).
      rewrite Hnf. f_equal. apply map_ext_in. intros j Hj.
      unfold normal_frames in Hj. apply filter_In in Hj. destruct Hj as [Hj Hs].
      apply in_seq in Hj. apply Z.eqb_eq in Hs. apply H; [exact Ht | lia | exact Hs]. }
    rewrite Hmean.
    destruct (Z.eqb_spec (status sc input1 t i) 0) as [E0 | _]; [| reflexivity].
    f_equal. now apply H.
Qed.

(** ** Offsets and the distance policies, in exact arithmetic *)

Module ExactTranslation.

Import Exact ExactSpec ExactFacts ExactJS ExactJSPolicy ExactJSResults ExactVocabulary.

Local Open Scope R_scope.

Lemma length_shift (v frame : list R) : length (shift v frame) = length frame.
Proof. unfold shift. now rewrite length_map, length_seq. Qed.

Lemma nth_shift (v frame : list R) (e : nat) :
  (e < length frame)%nat -> nth e (shift v frame) 0 = nth e frame 0 + nth e v 0.
Proof.
  intros H. unfold shift.
  exact (elem_map_seq (A := arith) (fun i => nth i frame 0 + nth i v 0) (length frame) e H).
Qed.

Lemma Rsum_shifted {X : Type} (g : X -> R) (c : R) (l : list X) :
  Rsum (map (fun x => g x + c) l) = Rsum (map g l) + INR (length l) * c.
Proof.
  induction l as [| x l IH]; [simpl; ring |].
  cbn [map Rsum fold_right length]. fold (Rsum (map (fun x => g x + c) l)).
  fold (Rsum (map g l)). rewrite IH, S_INR. ring.
Qed.

Lemma frames_mean_length (num_element : nat) (frames : list (list R)) :
  length (@frames_mean arith num_element frames) = num_element.
Proof. unfold frames_mean. now rewrite length_map, length_seq. Qed.

Lemma nth_frames_mean (num_element : nat) (frames : list (list R)) (e : nat) :
  (e < num_element)%nat ->
  nth e (@frames_mean arith num_element frames) 0 =
  Rsum (map (fun frame => nth e frame 0) frames) / INR (length frames).
Proof.
  intros He. unfold frames_mean.
  pose proof (elem_map_seq (A := arith)
                (fun i => @fdiv arith (@elem arith (@frames_sum arith num_element frames) i)
                            (@f_of_int arith (Z.of_nat (length frames))))
                num_element e He) as E.
  unfold elem in E at 1. to_reals. rewrite E. clear E.
  unfold frames_sum.
  pose proof (elem_map_seq (A := arith)
                (fun i => fold_left (@fadd arith) (@column arith frames i) (@f0 arith))
                num_element e He) as E.
  unfold elem in E at 1. to_reals. rewrite E. clear E.
  unfold column. to_reals.
  rewrite (fold_Rplus_sum (fun y : R => y)), map_id, Rplus_0_l.
  now rewrite <- INR_IZR_INZ.
Qed.

(** The mean of shifted frames is the shifted mean. *)
Lemma frames_mean_shift (v : list R) (num_element : nat) (frames : list (list R)) :
  frames <> [] -> (forall frame, In frame frames -> length frame = num_element) ->
  @frames_mean arith num_element (map (shift v) frames) =
  shift v (@frames_mean arith num_element frames).
Proof.
  intros Hne Hlen.
  apply nth_ext with (d := 0) (d' := 0);
    [now rewrite length_shift, !frames_mean_length |].
  intros e He. rewrite frames_mean_length in He.
  rewrite nth_shift by (now rewrite frames_mean_length).
  rewrite !nth_frames_mean by exact He.
  rewrite map_map, length_map.
  rewrite (map_ext_in _ (fun frame => nth e frame 0 + nth e v 0))
    by (intros frame Hf; apply nth_shift; rewrite (Hlen frame Hf); exact He).
  rewrite Rsum_shifted.
  assert (Hk : INR (length frames) <> 0).
  { apply not_0_INR. destruct frames; [contradiction | discriminate]. }
  match goal with |- ?lhs = ?rhs => change (@eq R lhs rhs) end.
  field. exact Hk.
Qed.

Lemma euclid_shift (v x y : list R) :
  length x = length y ->
  @EuclideanDivergencePolicy arith (shift v x) (shift v y) =
  @EuclideanDivergencePolicy arith x y.
Proof.
  intros Hlen. rewrite !ExactDistance.euclid_value. f_equal.
  unfold squared_distance. rewrite length_shift.
  apply Rsum_ext. intros i Hi. apply in_seq in Hi.
  rewrite !nth_shift by lia. ring.
Qed.

Lemma mahalanobis_shift (m : list (list R)) (v x y : list R) :
  length x = length y ->
  @MahalanobisDivergencePolicy arith m (shift v x) (shift v y) =
  @MahalanobisDivergencePolicy arith m x y.
Proof.
  intros Hlen. rewrite !ExactDistance.mahalanobis_value. f_equal.
  rewrite length_shift. set (n := Nat.min (length m) (length x)).
  assert (Hn : (n <= length x)%nat) by (subst n; lia).
  unfold quadratic_form.
  apply Rsum_ext. intros i Hi. apply in_seq in Hi.
  rewrite !nth_shift by lia.
  replace (nth i x 0 + nth i v 0 - (nth i y 0 + nth i v 0))
    with (nth i x 0 - nth i y 0) by ring.
  f_equal. apply Rsum_ext. intros j Hj. apply in_seq in Hj.
  rewrite !nth_shift by lia. ring.
Qed.

Lemma frames_between_map {X Y : Type} (g : X -> Y) (l : list X) (j k : nat) :
  firstn (k - j) (skipn j (map g l)) = map g (firstn (k - j) (skipn j l)).
Proof. now rewrite skipn_map, firstn_map. Qed.

Lemma In_between {X : Type} (x : X) (l : list X) (j m : nat) :
  In x (firstn m (skipn j l)) -> In x l.
Proof.
  intros H. rewrite <- (firstn_skipn j l). apply in_or_app. right.
  rewrite <- (firstn_skipn m (skipn j l)). apply in_or_app. now left.
Qed.

Lemma first_frame_translate (v : list R) (input_vector : list (list R)) :
  length (nth 0 (translate v input_vector) []) = length (nth 0 input_vector []).
Proof.
  destruct input_vector as [| first rest]; [reflexivity |].
  cbn [translate map nth]. apply length_shift.
Qed.

(** A policy that does not see a common offset of its two arguments
    makes the engine blind to a common offset of all frames. *)
Lemma translate_calculate (sc : StructuralChange)
    (divergence : list R -> list R -> R)
    (input_vector : list (list R)) (v : list R) :
  (forall x y : list R, length x = length y ->
     divergence (shift v x) (shift v y) = divergence x y) ->
  (Z.of_nat (length input_vector) < 2 ^ 31)%Z -> (num_dim_of sc <= 32)%nat ->
  (forall frame, In frame input_vector ->
     length frame = length (nth 0 input_vector [])) ->
  @calculate arith sc divergence (translate v input_vector) =
  @calculate arith sc divergence input_vector.
Proof.
  intros Hdiv HN HT Hlens.
  assert (Hlen : length (translate v input_vector) = length input_vector)
    by (unfold translate; apply length_map).
  apply (calculate_ext_normal (A := arith)); to_reals;
    [exact Hlen | now rewrite Hlen |].
  intros t i Ht Hi Hs. rewrite Hlen in Hi.
  pose proof (half_width_pos t) as Hpos.
  unfold status in Hs. to_reals.
  rewrite Hlen, status_by_index in Hs by (assumption || lia).
  destruct (Nat.leb_spec (half_width t) i) as [Hlo |];
    destruct (Nat.leb_spec (i + half_width t) (length input_vector)) as [Hhi |];
    try discriminate Hs.
  pose proof (ExactEngine.normal_divergence sc divergence (translate v input_vector) t i)
    as E1.
  pose proof (ExactEngine.normal_divergence sc divergence input_vector t i
                HN Ht ltac:(lia) Hlo Hhi) as E2.
  to_reals. rewrite Hlen in E1. specialize (E1 HN Ht ltac:(lia) Hlo Hhi).
  rewrite E1, E2.
  rewrite first_frame_translate.
  unfold frames_between, translate. to_reals. rewrite !frames_between_map.
  assert (Hsub : forall j k frame,
            In frame (firstn (k - j) (skipn j input_vector)) ->
            length frame = length (nth 0 input_vector [])).
  { intros j k frame Hf. apply Hlens. exact (In_between _ _ _ _ Hf). }
  assert (Hfull : forall j k, (j < k <= length input_vector)%nat ->
            firstn (k - j) (skipn j input_vector) <> []).
  { intros j k Hjk E. apply (f_equal (@length _)) in E.
    rewrite length_firstn, length_skipn in E. simpl in E. lia. }
  rewrite !frames_mean_shift by (try apply Hsub; apply Hfull; lia).
  apply Hdiv. now rewrite !frames_mean_length.
Qed.

End ExactTranslation.

(** X19: in exact arithmetic, with the Euclidean policy and with the
    Mahalanobis policy for any matrix, adding one and the same vector
    to every frame of the input does not change the output, for an
    input of fewer than [2^31] frames which all have the same length
    and at most 32 time scales. *)
Theorem distances_ignore_offset :
  forall (sc : StructuralChange) (m_inv_cov : list (list R))
         (input_vector : list (list R)) (v : list R),
    Z.of_nat (length input_vector) < 2 ^ 31 -> (num_dim_of sc <= 32)%nat ->
    (forall frame, In frame input_vector ->
       length frame = length (nth 0 input_vector [])) ->
    @calculate Exact.arith sc (@EuclideanDivergencePolicy Exact.arith)
      (ExactVocabulary.translate v input_vector) =
    @calculate Exact.arith sc (@EuclideanDivergencePolicy Exact.arith) input_vector /\
    @calculate Exact.arith sc (@MahalanobisDivergencePolicy Exact.arith m_inv_cov)
      (ExactVocabulary.translate v input_vector) =
    @calculate Exact.arith sc (@MahalanobisDivergencePolicy Exact.arith m_inv_cov)
      input_vector.
Proof.
  intros sc m input_vector v HN HT Hlens. split.
  - apply ExactTranslation.translate_calculate; try assumption.
    intros x y. apply ExactTranslation.euclid_shift.
  - apply ExactTranslation.translate_calculate; try assumption.
    intros x y. apply ExactTranslation.mahalanobis_shift.
Qed.

Lemma distances_ignore_offset_witness :
  @calculate Exact.arith {| m_num_dim := 2 |} (@EuclideanDivergencePolicy Exact.arith)
    (ExactVocabulary.translate [10; 20]%R [[1; 2]; [2; 1]; [0; 4]; [1; 1]]%R) =
  @calculate Exact.arith {| m_num_dim := 2 |} (@EuclideanDivergencePolicy Exact.arith)
    [[1; 2]; [2; 1]; [0; 4]; [1; 1]]%R.
Proof.
  refine (proj1 (distances_ignore_offset {| m_num_dim := 2 |} []
                   [[1; 2]; [2; 1]; [0; 4]; [1; 1]]%R [10; 20]%R _ _ _)).
  - reflexivity.
  - vm_compute. lia.
  - intros frame [<- | [<- | [<- | [<- | []]]]]; reflexivity.
Defined.

(** ** The sum of a time scale over all frames, in exact arithmetic *)

Module ExactColumn.

Import Exact ExactSpec ExactFacts ExactJS ExactJSPolicy ExactJSResults ExactVocabulary.

Local Open Scope R_scope.

Lemma Rsum_copies {X : Type} (c : R) (l : list X) :
  Rsum (map (fun _ => c) l) = INR (length l) * c.
Proof.
  induction l as [| x l IH]; [simpl; ring |].
  cbn [map Rsum fold_right length]. fold (Rsum (map (fun _ => c) l)).
  rewrite IH, S_INR. ring.
Qed.

(** With at least [2 w] frames the indices split into the [w] frames of
    the start, the frames with two full windows and the [w - 1] frames
    of the end. *)
Lemma three_runs (N w : nat) :
  (0 < w)%nat -> (2 * w <= N)%nat ->
  seq 0 N = seq 0 w ++ seq w (N + 1 - 2 * w) ++ seq (N + 1 - w) (w - 1).
Proof.
  intros Hw H.
  replace N with (w + ((N + 1 - 2 * w) + (w - 1)))%nat at 1 by lia.
  rewrite seq_app. f_equal. rewrite seq_app. f_equal. f_equal. lia.
Qed.

Lemma substituted_left (m : R) : @substituted arith m (@LEFT arith) = - m.
Proof.
  unfold substituted. to_reals.
  change (@feqb arith) with Reqb. change (@f_of_int arith) with IZR.
  destruct (Reqb (@LEFT arith) (@RIGHT arith)) eqn:E.
  - apply Reqb_true in E. vm_compute in E. lra.
  - destruct (Reqb (@LEFT arith) (@LEFT arith)) eqn:E'; [ring |].
    assert (H : Reqb (@LEFT arith) (@LEFT arith) = true) by now apply Reqb_true.
    congruence.
Qed.

Lemma substituted_right (m : R) : @substituted arith m (@RIGHT arith) = 3 * m.
Proof.
  unfold substituted. to_reals.
  change (@feqb arith) with Reqb. change (@f_of_int arith) with IZR.
  destruct (Reqb (@RIGHT arith) (@RIGHT arith)) eqn:E; [reflexivity |].
  assert (H : Reqb (@RIGHT arith) (@RIGHT arith) = true) by now apply Reqb_true.
  congruence.
Qed.

Lemma substituted_other (m v : R) :
  v <> @LEFT arith -> v <> @RIGHT arith -> @substituted arith m v = v.
Proof.
  intros HL HR. unfold substituted. to_reals.
  change (@feqb arith) with Reqb.
  destruct (Reqb v (@RIGHT arith)) eqn:E; [apply Reqb_true in E; contradiction |].
  destruct (Reqb v (@LEFT arith)) eqn:E'; [apply Reqb_true in E'; contradiction |].
  reflexivity.
Qed.

Lemma sum_of_mean (l : list R) :
  l <> [] -> Rsum l = INR (length l) * @mean_of arith l.
Proof.
  intros Hne. unfold mean_of. destruct l as [| x l]; [contradiction |].
  to_reals. change (@f_of_int arith) with IZR.
  rewrite <- INR_IZR_INZ.
  rewrite (fold_Rplus_sum (fun y : R => y)), map_id, Rplus_0_l.
  field. apply not_0_INR. discriminate.
Qed.

Lemma column_sum (sc : StructuralChange)
    (divergence : @vec arith -> @vec arith -> @flt arith)
    (input_vector : list (@vec arith)) (t : nat) :
  (Z.of_nat (length input_vector) < 2 ^ 31)%Z ->
  (t < num_dim_of sc)%nat -> (t < 32)%nat ->
  (2 * half_width t <= length input_vector)%nat ->
  (forall i, (i < length input_vector)%nat ->
     @status arith sc input_vector t i = NORMAL ->
     @divergence_at arith sc divergence input_vector t i <> @LEFT arith /\
     @divergence_at arith sc divergence input_vector t i <> @RIGHT arith) ->
  Rsum (map (fun i => @get_out arith (@output arith sc divergence input_vector) i t)
            (seq 0 (length input_vector))) =
  (INR (length input_vector) - 2) * @meanDiv arith sc divergence input_vector t.
Proof.
  intros HN Ht Ht32 Hfit Hd.
  set (N := length input_vector) in *. set (w := half_width t) in *.
  pose proof (half_width_pos t) as Hpos. fold w in Hpos.
  set (m := @meanDiv arith sc divergence input_vector t).
  assert (Hst : forall i, (i < N)%nat ->
            @status arith sc input_vector t i =
            if (w <=? i)%nat
            then (if (i + w <=? N)%nat then NORMAL else RIGHT_SHORT)
            else (if (i + w <=? N)%nat then LEFT_SHORT else BOTH_SHORT)).
  { intros i Hi. unfold status. now apply status_by_index. }
  assert (Hslot : forall i, (i < N)%nat ->
            @get_out arith (@output arith sc divergence input_vector) i t =
            @substituted arith m
              (if (@status arith sc input_vector t i =? 0)%Z
               then @divergence_at arith sc divergence input_vector t i
               else if (@status arith sc input_vector t i =? -1)%Z then @LEFT arith
               else if (@status arith sc input_vector t i =? -2)%Z then @RIGHT arith
               else @of_dbl arith (@d_zero arith))).
  { intros i Hi. now apply (output_slot (A := arith)). }
  pose (d := fun i : nat => (@divergence_at arith sc divergence input_vector t i : R)).
  rewrite (three_runs N w Hpos Hfit), !map_app, !Rsum_app.
  rewrite (Rsum_ext _ (fun _ => - m) (seq 0 w)).
  2:{ intros i Hi. apply in_seq in Hi. rewrite Hslot by lia. rewrite Hst by lia.
      destruct (Nat.leb_spec w i); [lia |].
      destruct (Nat.leb_spec (i + w) N); [| lia].
      apply substituted_left. }
  rewrite (Rsum_ext _ d (seq w (N + 1 - 2 * w))).
  2:{ intros i Hi. apply in_seq in Hi. rewrite Hslot by lia.
      assert (Hn : @status arith sc input_vector t i = NORMAL).
      { rewrite Hst by lia.
        destruct (Nat.leb_spec w i); [| lia].
        destruct (Nat.leb_spec (i + w) N); [reflexivity | lia]. }
      rewrite Hn. destruct (Hd i ltac:(lia) Hn) as [HL HR].
      now apply substituted_other. }
  rewrite (Rsum_ext _ (fun _ => 3 * m) (seq (N + 1 - w) (w - 1))).
  2:{ intros i Hi. apply in_seq in Hi. rewrite Hslot by lia. rewrite Hst by lia.
      destruct (Nat.leb_spec w i); [| lia].
      destruct (Nat.leb_spec (i + w) N); [lia |].
      apply substituted_right. }
  rewrite !Rsum_copies, !length_seq.
  assert (Hnormal : @normal_frames arith sc input_vector t = seq w (N + 1 - 2 * w)).
  { rewrite normal_frames_status. now apply normal_frames_run. }
  assert (Hmean : Rsum (map d (seq w (N + 1 - 2 * w))) = INR (N + 1 - 2 * w) * m).
  { rewrite sum_of_mean.
    - rewrite length_map, length_seq. subst m. unfold meanDiv. now rewrite Hnormal.
    - intros E. apply (f_equal (@length _)) in E.
      rewrite length_map, length_seq in E. simpl in E. lia. }
  rewrite Hmean.
  replace (INR (N + 1 - 2 * w)) with (INR N + 1 - 2 * INR w).
  2:{ rewrite minus_INR by lia. rewrite plus_INR, mult_INR. simpl. ring. }
  replace (INR (w - 1)) with (INR w - 1).
  2:{ rewrite minus_INR by lia. simpl. ring. }
  ring.
Qed.

End ExactColumn.

(** X20: in exact arithmetic, at a time scale [t < 32] of half-width
    [w = 2^t] with at least [2 w] frames (and fewer than [2^31]), and
    when the policy returns neither [-1] nor [-2] at a normal frame
    of the input,
    the output values of the time scale summed over all [N] frames are
    [N - 2] times the mean of the divergences of the normal frames:
    the [w] frames of the start contribute [-1] times that mean each,
    the [w - 1] frames of the end [3] times that mean each. *)
Theorem column_sum_of_time_scale :
  forall (sc : StructuralChange) (divergence : list R -> list R -> R)
         (input_vector : list (list R)) (t : nat),
    Z.of_nat (length input_vector) < 2 ^ 31 ->
    (t < num_dim_of sc)%nat -> (t < 32)%nat ->
    (2 * half_width t <= length input_vector)%nat ->
    (forall i, (i < length input_vector)%nat ->
       @status Exact.arith sc input_vector t i = NORMAL ->
       @divergence_at Exact.arith sc divergence input_vector t i <> (-1)%R /\
       @divergence_at Exact.arith sc divergence input_vector t i <> (-2)%R) ->
    ExactSpec.Rsum
      (map (fun i => @get_out Exact.arith (@output Exact.arith sc divergence input_vector) i t)
           (seq 0 (length input_vector))) =
    ((INR (length input_vector) - 2) * @meanDiv Exact.arith sc divergence input_vector t)%R.
Proof. exact ExactColumn.column_sum. Qed.

Lemma column_sum_of_time_scale_witness :
  let sc := {| m_num_dim := 1 |} in
  let euclid := @EuclideanDivergencePolicy Exact.arith in
  let input_vector := [[1]; [1]; [5]; [5]]%R in
  ExactSpec.Rsum
    (map (fun i => @get_out Exact.arith (@output Exact.arith sc euclid input_vector) i 0)
         (seq 0 4)) =
  ((INR 4 - 2) * @meanDiv Exact.arith sc euclid input_vector 0)%R.
Proof.
  intros sc euclid input_vector.
  refine (column_sum_of_time_scale sc euclid input_vector 0 _ _ _ _ _).
  - reflexivity.
  - vm_compute. lia.
  - lia.
  - vm_compute. lia.
  - intros i _ _. unfold divergence_at, frame_divergence, euclid.
    rewrite ExactDistance.euclid_value.
    match goal with |- sqrt ?x <> _ /\ _ => pose proof (sqrt_pos x) end.
    split; lra.
Defined.
